(** * Geographic enrichment scripts of the housing dashboard

    A shallow embedding of [api/geo-enrich.js] and of the metro
    enrichment script ([geo-enrich-metro.js] by its usage line), and the
    properties of their CSV parsing, lookup maps, update lists and
    batched UPDATE statements.

    JavaScript strings are sequences of UTF-16 code units: here
    [list N].  Maps are stdpp's [gmap].  The scripts' effects (console
    output, downloads, SQL statements, pool shutdown, process exit) are
    recorded as a trace of events by a small state-and-exception monad. *)

From Stdlib Require Import ZArith NArith List Ascii String Bool Lia.
From stdpp Require Import base option list gmap.
Import ListNotations.

Local Open Scope Z_scope.

(** ** JavaScript strings and the built-ins the scripts use *)

Module Js.

Abbreviation jsstring := (list N).

(** A string literal of the source, as code units. *)
Definition js (s : string) : jsstring :=
  map N_of_ascii (list_ascii_of_string s).

Definition QUOTE : N := 34.   (* the double quote character *)
Definition COMMA : N := 44.   (* the comma *)
Definition CR    : N := 13.   (* carriage return, \r *)
Definition LF    : N := 10.   (* line feed, \n *)
Definition EQUAL : N := 61.   (* the equals sign *)
Definition ZERO  : N := 48.   (* the digit 0 *)

(** [s.length] *)
Definition jslength (s : jsstring) : Z := Z.of_nat (length s).

(** Truthiness of a string value: only [''] is falsy. *)
Definition truthy (s : jsstring) : bool :=
  match s with [] => false | _ => true end.

(** [v || ''] for a value that is a string or undefined. *)
Definition or_empty (v : option jsstring) : jsstring :=
  match v with Some s => if truthy s then s else [] | None => [] end.

(** Truthiness of a value that is a string or undefined / null. *)
Definition truthy_opt (v : option jsstring) : bool :=
  match v with Some s => truthy s | None => false end.

(** [arr[i]] for an index that may be -1 or past the end: undefined. *)
Definition at_index {A} (l : list A) (i : Z) : option A :=
  if i <? 0 then None else nth_error l (Z.to_nat i).

(** WhiteSpace and LineTerminator code units, which [trim] removes
    (ECMA-262, String.prototype.trim). *)
Definition isWhiteSpace (c : N) : bool :=
  ((9 <=? c) && (c <=? 13) || (c =? 32) || (c =? 160) || (c =? 5760)
   || (8192 <=? c) && (c <=? 8202) || (c =? 8232) || (c =? 8233)
   || (c =? 8239) || (c =? 8287) || (c =? 12288) || (c =? 65279))%N.

Fixpoint trimStart (s : jsstring) : jsstring :=
  match s with
  | c :: s' => if isWhiteSpace c then trimStart s' else s
  | [] => []
  end.

Definition trimEnd (s : jsstring) : jsstring := rev (trimStart (rev s)).

Definition trim (s : jsstring) : jsstring := trimEnd (trimStart s).

(** [s.split(sep)] for a separator of one code unit: never empty. *)
Fixpoint split (sep : N) (s : jsstring) : list jsstring :=
  match s with
  | [] => [[]]
  | c :: s' =>
      if (c =? sep)%N then [] :: split sep s'
      else match split sep s' with
           | f :: fs => (c :: f) :: fs
           | [] => [[c]]
           end
  end.

(** [s.padStart(n, '0')] *)
Definition padStart (n : nat) (s : jsstring) : jsstring :=
  repeat ZERO (n - length s) ++ s.

(** [s.replace(re, '')] for the global regex matching every double quote *)
Definition strip_quotes (s : jsstring) : jsstring :=
  filter (fun c => c ≠ QUOTE) s.

Fixpoint startsWith (p s : jsstring) : bool :=
  match p, s with
  | [], _ => true
  | a :: p', b :: s' => (a =? b)%N && startsWith p' s'
  | _ :: _, [] => false
  end.

Definition endsWith (p s : jsstring) : bool := startsWith (rev p) (rev s).

Definition eqb (a b : jsstring) : bool := bool_decide (a = b).

(** [arr.indexOf(x)]: first position or -1. *)
Fixpoint indexOf_from (x : jsstring) (l : list jsstring) (i : Z) : Z :=
  match l with
  | [] => -1
  | y :: l' => if eqb y x then i else indexOf_from x l' (i + 1)
  end.
Definition indexOf (x : jsstring) (l : list jsstring) : Z := indexOf_from x l 0.

(** [arr.findIndex(p)]: first position or -1. *)
Fixpoint findIndex_from {A} (p : A -> bool) (l : list A) (i : Z) : Z :=
  match l with
  | [] => -1
  | y :: l' => if p y then i else findIndex_from p l' (i + 1)
  end.
Definition findIndex {A} (p : A -> bool) (l : list A) : Z := findIndex_from p l 0.

(** [Array.prototype.slice(a, b)], negative indices counting from the end *)
Definition clamp_index (len k : Z) : Z :=
  if k <? 0 then Z.max (len + k) 0 else Z.min k len.

Definition slice {A} (l : list A) (a b : Z) : list A :=
  let len := Z.of_nat (length l) in
  let a' := clamp_index len a in
  let b' := clamp_index len b in
  firstn (Z.to_nat (b' - a')) (skipn (Z.to_nat a') l).

(** *** Regular-expression tests of the scripts

    Every regex literal of the scripts is built from ASCII letters,
    [_], alternation, [.*], [^] and [$].  Under the [i] flag (without
    [u]) a pattern letter matches exactly its two ASCII cases, so the
    tests below fold ASCII case only. *)

Definition fold_case (c : N) : N :=
  if ((65 <=? c) && (c <=? 90))%N then (c + 32)%N else c.

Definition eq_ci (a b : jsstring) : bool :=
  eqb (map fold_case a) (map fold_case b).

(** the pattern matches at the very start of [s]; the rest is returned *)
Fixpoint match_prefix_ci (p s : jsstring) : option jsstring :=
  match p, s with
  | [], _ => Some s
  | a :: p', b :: s' =>
      if (fold_case a =? fold_case b)%N then match_prefix_ci p' s' else None
  | _ :: _, [] => None
  end.

(** [/p/i.test(s)] for a literal [p] *)
Fixpoint test_ci (p s : jsstring) : bool :=
  match match_prefix_ci p s with
  | Some _ => true
  | None => match s with [] => false | _ :: s' => test_ci p s' end
  end.

(** [.] matches any code unit but a line terminator *)
Definition isLineTerminator (c : N) : bool :=
  ((c =? 10) || (c =? 13) || (c =? 8232) || (c =? 8233))%N.

(** [.*q] matched at the start of [s] *)
Fixpoint dotstar_then_ci (q s : jsstring) : bool :=
  match match_prefix_ci q s with
  | Some _ => true
  | None =>
      match s with
      | [] => false
      | c :: s' => negb (isLineTerminator c) && dotstar_then_ci q s'
      end
  end.

(** [/p.*q/i.test(s)] for literals [p] and [q] *)
Fixpoint test_seq_ci (p q s : jsstring) : bool :=
  match match_prefix_ci p s with
  | Some rest => dotstar_then_ci q rest
  | None => false
  end
  || match s with [] => false | _ :: s' => test_seq_ci p q s' end.

(** [s.replace(/alt1$|alt2$|.../, '')]: the leftmost position whose
    remainder is one of the alternatives is cut off; no [i] flag. *)
Fixpoint replace_suffix (alts : list jsstring) (s : jsstring) : jsstring :=
  if existsb (eqb s) alts then []
  else match s with
       | [] => []
       | c :: s' => c :: replace_suffix alts s'
       end.

(** *** parseInt

    [parseInt(v)] for a string or undefined [v]: leading white space, an
    optional sign, an optional [0x] prefix, then the longest run of
    digits; [None] is NaN.  The value is kept as an exact integer, which
    is the JS number as long as its magnitude is at most 2^53; beyond it
    JS rounds to the nearest double.  A JS array has fewer than 2^32
    elements, so a batch size beyond 2^53 cuts an update list as its
    rounded value does (into one batch); the theorems in which the
    number itself is printed or returned assume it is at most 2^53. *)

Definition digit_value (radix : Z) (c : N) : option Z :=
  let d :=
    if ((48 <=? c) && (c <=? 57))%N then Some (Z.of_N c - 48)
    else if ((97 <=? c) && (c <=? 122))%N then Some (Z.of_N c - 87)
    else if ((65 <=? c) && (c <=? 90))%N then Some (Z.of_N c - 55)
    else None in
  match d with
  | Some v => if v <? radix then Some v else None
  | None => None
  end.

Fixpoint parse_digits (radix : Z) (s : jsstring) (acc : option Z) : option Z :=
  match s with
  | [] => acc
  | c :: s' =>
      match digit_value radix c with
      | Some v => parse_digits radix s' (Some (radix * default 0 acc + v))
      | None => acc
      end
  end.

Definition parseInt (v : option jsstring) : option Z :=
  let s := trimStart (default (js "undefined") v) in
  let '(sign, s) :=
    match s with
    | 45%N :: s' => (-1, s')
    | 43%N :: s' => (1, s')
    | _ => (1, s)
    end in
  let '(radix, s) :=
    match s with
    | 48%N :: 120%N :: s' => (16, s')
    | 48%N :: 88%N :: s' => (16, s')
    | _ => (10, s)
    end in
  option_map (Z.mul sign) (parse_digits radix s None).

End Js.

Import Js.

(** ** Effects: downloads, the connection pool, the console

    A run of a script is a function of the outside world: what each URL
    answers, if it answers, which SQL statement the server rejects, and
    the time of the UPDATE.  Its effects are recorded as a trace. *)

Module Run.

(** Errors the scripts can see: the two rejections [download] builds
    itself, a network or stream error, what [client.get] throws when it
    is called from the promise executor, and an error thrown by
    [pool.query]. *)
Inductive exn :=
| TooManyRedirects                (* new Error('Too many redirects') *)
| HttpStatus (code : Z)           (* new Error(`HTTP ${res.statusCode}`) *)
| NetError (message : jsstring)   (* the 'error' event of request or response *)
| InvalidUrl (message : jsstring) (* thrown by client.get, caught by the executor *)
| DbError (message : jsstring).   (* rejection of pool.query *)

(** A response: status, Location header and body (or a stream error). *)
Record response := {
  statusCode : Z;
  location : option jsstring;
  body : jsstring + jsstring      (* inl data | inr error message *)
}.

(** What [client.get(u, ...)] does.  A response of status 200 whose
    body never ends is [Silent] as well: the script sees nothing of
    it. *)
Inductive request :=
| Response (res : response)          (* the callback is called with res *)
| RequestError (message : jsstring)  (* the 'error' event of the request *)
| Refused (message : jsstring)       (* client.get throws: u is no URL it accepts *)
| Silent.                            (* neither a response nor an error, ever *)

Record world := {
  argv : list jsstring;                 (* process.argv *)
  http_get : jsstring -> request;       (* client.get(u, ...) *)
  url_resolve : jsstring -> jsstring -> option jsstring;
                                        (* new URL(loc, u).href; None: it throws *)
  query_error : nat -> option jsstring; (* is the n-th statement rejected *)
  now : N                               (* NOW() of the UPDATE statements *)
}.

(** Why a script stops without returning or throwing. *)
Inductive halt :=
| Uncaught   (* an exception thrown inside a callback, outside every promise:
                Node prints it and ends the process with exit code 1 *)
| Waiting.   (* the awaited promise is never settled *)

(** How [await download(url)] ends: the promise is resolved with the
    text ([inr]) or rejected ([inl]), or it is never settled. *)
Inductive awaited :=
| Settled (r : exn + jsstring)
| Unsettled (h : halt).

(** [download(url)]: [get] follows up to six redirects ([depth] 0 to 5
    are served, [depth > 5] is rejected); [hops] is [6 - depth].  What
    [new URL] or [client.get] throw inside the response callback ([get]
    called with [depth > 0]: [inner]) is caught by nothing; what
    [client.get] throws in the first call of [get] rejects the promise,
    whose executor made the call. *)
Fixpoint get (w : world) (hops : nat) (inner : bool) (u : jsstring) : awaited :=
  match hops with
  | O => Settled (inl TooManyRedirects)
  | S hops' =>
      match http_get w u with
      | Refused msg =>
          if inner then Unsettled Uncaught else Settled (inl (InvalidUrl msg))
      | Silent => Unsettled Waiting
      | RequestError msg => Settled (inl (NetError msg))
      | Response res =>
          if (300 <=? statusCode res) && (statusCode res <? 400)
             && truthy_opt (location res)
          then
            let l := default [] (location res) in
            match (if startsWith (js "http") l then Some l
                   else url_resolve w l u) with
            | Some loc => get w hops' true loc
            | None => Unsettled Uncaught
            end
          else if negb (statusCode res =? 200) then
            Settled (inl (HttpStatus (statusCode res)))
          else match body res with
               | inl data => Settled (inr data)
               | inr msg => Settled (inl (NetError msg))
               end
      end
  end.

Definition fetch (w : world) (url : jsstring) : awaited := get w 6 false url.

Section Machine.
Context {Log Sql Db : Type}.

Inductive event :=
| EvLog (l : Log)                          (* console.log / error / stdout *)
| EvDownload (url : jsstring) (ok : bool)  (* download(url); ok: it resolved *)
| EvQuery (q : Sql) (ok : bool)            (* await pool.query(q) *)
| EvPoolEnd                                (* await pool.end() *)
| EvExit (code : Z).                       (* process.exit(code) *)

Record state := {
  db : Db;                (* the housing_stats table *)
  trace : list event;     (* effects so far, oldest first *)
  sent : nat              (* statements sent to the pool so far *)
}.

(** A computation returns, throws, is still inside a [for] loop when
    the loop's fuel is spent, or halts; it leaves a state either way. *)
Inductive outcome (A : Type) :=
| Return (a : A)
| Throw (e : exn)
| OutOfFuel
| Halt (h : halt).
#[global] Arguments Return {A} a.
#[global] Arguments Throw {A} e.
#[global] Arguments OutOfFuel {A}.
#[global] Arguments Halt {A} h.

Definition M (A : Type) : Type := state -> outcome A * state.

Definition ret {A} (a : A) : M A := fun s => (Return a, s).

Definition bind {A B} (m : M A) (k : A -> M B) : M B :=
  fun s => match m s with
           | (Return a, s') => k a s'
           | (Throw e, s') => (Throw e, s')
           | (OutOfFuel, s') => (OutOfFuel, s')
           | (Halt h, s') => (Halt h, s')
           end.

Definition emit (e : event) (s : state) : state :=
  {| db := db s; trace := trace s ++ [e]; sent := sent s |}.

Definition log (l : Log) : M unit := fun s => (Return tt, emit (EvLog l) s).

Definition download (w : world) (url : jsstring) : M jsstring :=
  fun s => match fetch w url with
           | Settled (inr data) => (Return data, emit (EvDownload url true) s)
           | Settled (inl e) => (Throw e, emit (EvDownload url false) s)
           | Unsettled h => (Halt h, emit (EvDownload url false) s)
           end.

(** [pool.query]: the statement [q] acts on the table by [f], or the
    server rejects it; every statement is answered one way or the
    other, and [pool.end] resolves. *)
Definition pool_query {A} (w : world) (q : Sql) (f : Db -> A * Db) : M A :=
  fun s => match query_error w (sent s) with
           | Some msg =>
               (Throw (DbError msg),
                {| db := db s; trace := trace s ++ [EvQuery q false];
                   sent := S (sent s) |})
           | None =>
               let '(a, d) := f (db s) in
               (Return a,
                {| db := d; trace := trace s ++ [EvQuery q true];
                   sent := S (sent s) |})
           end.

Definition pool_end : M unit := fun s => (Return tt, emit EvPoolEnd s).

Definition out_of_fuel {A} : M A := fun s => (OutOfFuel, s).

(** [try { m } catch (e) { h e }]: only what is thrown is caught *)
Definition try_catch {A} (m : M A) (h : exn -> M A) : M A :=
  fun s => match m s with
           | (Throw e, s') => h e s'
           | r => r
           end.

(** [for (const x of l) body x] *)
Fixpoint for_each {A} (l : list A) (body : A -> M unit) : M unit :=
  match l with
  | [] => ret tt
  | x :: l' => bind (body x) (fun _ => for_each l' body)
  end.

(** [for (let i = 0; i < l.length; i += step) { batch = l.slice(i, i +
    step); ... }]: the loop both scripts end with.  [body i batch acc]
    is one turn and returns the new [totalUpdated]; each turn takes one
    unit of fuel. *)
Fixpoint for_batches {U} (fuel : nat) (step : Z) (l : list U)
    (body : Z -> list U -> Z -> M Z) (i acc : Z) : M Z :=
  if i <? Z.of_nat (length l) then
    match fuel with
    | O => out_of_fuel
    | S fuel' =>
        bind (body i (slice l i (i + step)) acc)
             (fun acc' => for_batches fuel' step l body (i + step) acc')
    end
  else ret acc.

(** [main().catch(e => { console.error('Fatal:', e); process.exit(1) })]:
    the handler runs when the promise of [main] is rejected, not when
    the script halts *)
Definition run_main (fatal : exn -> Log) (main : M unit) (d : Db)
  : outcome unit * state :=
  match main {| db := d; trace := []; sent := 0 |} with
  | (Throw e, s) => (Throw e, emit (EvExit 1) (emit (EvLog (fatal e)) s))
  | r => r
  end.

End Machine.

Arguments event : clear implicits.
Arguments state : clear implicits.
Arguments outcome : clear implicits.
Arguments M : clear implicits.

#[global] Instance M_ret {Log Sql Db} : MRet (M Log Sql Db) := @ret Log Sql Db.
#[global] Instance M_bind {Log Sql Db} : MBind (M Log Sql Db) :=
  fun A B k m => bind m k.

End Run.


Import Run.

(** ** The housing_stats table *)

Module Table.

Record row := {
  zip_code : jsstring;
  state_abbr : option jsstring;     (* None is SQL NULL *)
  county_name : option jsstring;
  metro_area : option jsstring;
  updated_at : N
}.

(** [col IS NULL OR col = ''], and on the JavaScript side
    [!row.col || row.col === '']. *)
Definition missing (v : option jsstring) : bool := negb (truthy_opt v).

(** [COALESCE(v, old)] *)
Definition coalesce (v old : option jsstring) : option jsstring :=
  match v with Some _ => v | None => old end.

(** [COUNT( * ) FILTER (WHERE p)] *)
Definition count_where (p : row -> bool) (t : list row) : nat :=
  length (List.filter p t).

End Table.

Import Table.

(** ** api/geo-enrich.js *)

Module GeoEnrich.

(** [DRY_RUN] and [BATCH_SIZE], from [process.argv] *)
Definition DRY_RUN (w : world) : bool :=
  existsb (eqb (js "--dry-run")) (argv w).

Definition BATCH_SIZE (w : world) : Z :=
  let a := or_empty (List.find (startsWith (js "--batch-size=")) (argv w)) in
  match parseInt (at_index (split EQUAL a) 1) with
  | Some n => if n =? 0 then 500 else n     (* NaN and 0 are falsy *)
  | None => 500
  end.

(** *** parseCSV *)

Record pstate := {
  fields : list jsstring;
  current : jsstring;
  inQuote : bool
}.

(** one turn of the [for] loop of [parseRow] on the code unit [c] *)
Definition parse_step (st : pstate) (c : N) : pstate :=
  if (c =? QUOTE)%N then
    {| fields := fields st; current := current st;
       inQuote := negb (inQuote st) |}
  else if (c =? COMMA)%N && negb (inQuote st) then
    {| fields := fields st ++ [trim (current st)]; current := [];
       inQuote := inQuote st |}
  else if (c =? CR)%N then st
  else
    {| fields := fields st; current := current st ++ [c];
       inQuote := inQuote st |}.

Definition parse_init : pstate :=
  {| fields := []; current := []; inQuote := false |}.

Definition parse_finish (st : pstate) : list jsstring :=
  fields st ++ [trim (current st)].

Definition parseRow (line : jsstring) : list jsstring :=
  parse_finish (fold_left parse_step line parse_init).

(** [parseCSV(text)]: header and rows *)
Definition parseCSV (text : jsstring) : list jsstring * list (list jsstring) :=
  let lines := split LF (trim text) in
  (parseRow (hd [] lines), map parseRow (tl lines)).

(** *** The lookup maps *)

Record geo := {
  g_state : jsstring;      (* state_abbr *)
  g_county : jsstring      (* county_name *)
}.

Definition csvUrl : jsstring :=
  js "https://raw.githubusercontent.com/scpike/us-state-county-zip/master/geo-data.csv".
Definition cbsaUrl : jsstring :=
  js "https://raw.githubusercontent.com/mwkracht/zip_to_cbsa/master/zip_to_cbsa/data/zip_cbsa.csv".
Definition namesUrl : jsstring :=
  js "https://raw.githubusercontent.com/mwkracht/zip_to_cbsa/master/zip_to_cbsa/data/cbsa.csv".

(** the cell [row[idx] || ''] *)
Definition cell (row : list jsstring) (idx : Z) : jsstring :=
  or_empty (at_index row idx).

(** Step 2, the loop over the rows of the ZIP-to-county CSV *)
Definition zipGeo_step (stateIdx zipIdx countyIdx : Z)
    (zipGeo : gmap jsstring geo) (row : list jsstring) : gmap jsstring geo :=
  let zip := padStart 5 (cell row zipIdx) in
  if negb (length zip =? 5)%nat then zipGeo
  else
    let state := cell row stateIdx in
    let county := cell row countyIdx in
    match zipGeo !! zip with
    | Some _ => zipGeo             (* keep the first occurrence *)
    | None =>
        <[zip := {| g_state := state;
                    g_county := if truthy county
                                then county ++ js " County" else [] |}]> zipGeo
    end.

Definition build_zipGeo (header : list jsstring) (rows : list (list jsstring))
    : gmap jsstring geo :=
  let stateIdx := indexOf (js "state_abbr") header in
  let zipIdx := indexOf (js "zipcode") header in
  let countyIdx := indexOf (js "county") header in
  fold_left (zipGeo_step stateIdx zipIdx countyIdx) rows ∅.

Section Npm.
(** [zipcodes.lookup(zip)] of the zipcodes package: [None] when the
    package has no record, else the record's [state] field ([[]] when
    that field is falsy). *)
Variable zipcodes_lookup : jsstring -> option jsstring.

(** Step 3, one turn of the loop over the ZIPs of the table; the
    second component counts [npmFills]. *)
Definition npm_step (acc : gmap jsstring geo * nat) (zip : jsstring)
    : gmap jsstring geo * nat :=
  let '(zipGeo, npmFills) := acc in
  match zipGeo !! zip with
  | None =>
      match zipcodes_lookup zip with
      | Some st =>
          (<[zip := {| g_state := st; g_county := [] |}]> zipGeo, S npmFills)
      | None => acc
      end
  | Some g =>
      if negb (truthy (g_state g)) then
        match zipcodes_lookup zip with
        | Some st =>
            if truthy st then
              (<[zip := {| g_state := st; g_county := g_county g |}]> zipGeo,
               S npmFills)
            else acc
        | None => acc
        end
      else acc
  end.

Definition npm_fill (zipGeo : gmap jsstring geo) (zips : list jsstring)
    : gmap jsstring geo * nat :=
  fold_left npm_step zips (zipGeo, O).
End Npm.

(** Step 4: column detection on the header of the ZIP-CBSA CSV *)
Definition is_zip_col (h : jsstring) : bool := test_ci (js "zip") h.
Definition is_cbsa_col (h : jsstring) : bool := test_ci (js "cbsa") h.
Definition is_metro_col (h : jsstring) : bool :=
  test_seq_ci (js "metro") (js "name") h
  || test_seq_ci (js "cbsa") (js "title") h
  || test_ci (js "name") h.
Definition is_code_col (h : jsstring) : bool :=
  test_seq_ci (js "cbsa") (js "code") h || test_ci (js "code") h.
Definition is_title_col (h : jsstring) : bool :=
  test_ci (js "title") h || test_ci (js "name") h.

(** the loops [if (zip.length === 5 && v) m.set(zip, v)] over the rows,
    used with the name column and with the code column *)
Definition zip_value_step (zipCol valCol : Z)
    (m : gmap jsstring jsstring) (row : list jsstring) : gmap jsstring jsstring :=
  let zip := padStart 5 (cell row zipCol) in
  let v := cell row valCol in
  if (length zip =? 5)%nat && truthy v then <[zip := v]> m else m.

Definition build_zip_value (zipCol valCol : Z) (rows : list (list jsstring))
    : gmap jsstring jsstring :=
  fold_left (zip_value_step zipCol valCol) rows ∅.

(** [nameMap.set(row[codeCol], row[titleCol])]: key and value may be
    undefined ([None]) *)
Definition build_nameMap (codeCol titleCol : Z) (rows : list (list jsstring))
    : gmap (option jsstring) (option jsstring) :=
  fold_left (fun m row => <[at_index row codeCol := at_index row titleCol]> m)
            rows ∅.

(** [for (const [zip, cbsa] of cbsaCodes) { name = nameMap.get(cbsa);
    if (name) zipMetro.set(zip, name) }]: the keys of [cbsaCodes] are
    distinct, so the result does not depend on the order of the loop. *)
Definition join_names (cbsaCodes : gmap jsstring jsstring)
    (nameMap : gmap (option jsstring) (option jsstring)) : gmap jsstring jsstring :=
  omap (fun cbsa =>
          match nameMap !! Some cbsa with
          | Some (Some name) => if truthy name then Some name else None
          | _ => None
          end) cbsaCodes.

(** *** Step 5: the update list *)

Record update := {
  u_zip : jsstring;
  u_state : option jsstring;     (* None is null *)
  u_county : option jsstring;
  u_metro : option jsstring
}.

Record stats := {
  st_state : nat;
  st_county : nat;
  st_metro : nat;
  st_noMatch : nat
}.

(** [geo?.state_abbr] and [geo?.county_name] *)
Definition geo_state (g : option geo) : option jsstring := g_state <$> g.
Definition geo_county (g : option geo) : option jsstring := g_county <$> g.

(** a field is filled when the table has none and the lookup has one *)
Definition fill (old : option jsstring) (new : option jsstring) : bool :=
  missing old && truthy_opt new.

(** one turn of the loop over [dbZips.rows] *)
Definition update_step (zipGeo : gmap jsstring geo)
    (zipMetro : gmap jsstring jsstring)
    (acc : list update * stats) (r : row) : list update * stats :=
  let '(updates, st) := acc in
  let geo := zipGeo !! zip_code r in
  let metro := zipMetro !! zip_code r in
  if negb (bool_decide (is_Some geo)) && negb (truthy_opt metro) then
    (updates, {| st_state := st_state st; st_county := st_county st;
                 st_metro := st_metro st; st_noMatch := S (st_noMatch st) |})
  else
    let fs := fill (state_abbr r) (geo_state geo) in
    let fc := fill (county_name r) (geo_county geo) in
    let fm := fill (metro_area r) metro in
    let u := {| u_zip := zip_code r;
                u_state := if fs then geo_state geo else None;
                u_county := if fc then geo_county geo else None;
                u_metro := if fm then metro else None |} in
    let st' := {| st_state := if fs then S (st_state st) else st_state st;
                  st_county := if fc then S (st_county st) else st_county st;
                  st_metro := if fm then S (st_metro st) else st_metro st;
                  st_noMatch := st_noMatch st |} in
    (if fs || fc || fm then updates ++ [u] else updates, st').

Definition build_updates (zipGeo : gmap jsstring geo)
    (zipMetro : gmap jsstring jsstring) (rows : list row)
    : list update * stats :=
  fold_left (update_step zipGeo zipMetro) rows
    ([], {| st_state := O; st_county := O; st_metro := O; st_noMatch := O |}).

(** *** The SQL statements *)

Record gaps := {
  total : nat;
  missing_state : nat;
  missing_county : nat;
  missing_metro : nat
}.

Inductive sql :=
| SelectGaps            (* SELECT COUNT ... FILTER ... FROM housing_stats *)
| SelectDistinctZips    (* SELECT DISTINCT zip_code FROM housing_stats *)
| SelectGapRows         (* SELECT ... WHERE a column is NULL or '' *)
| UpdateBatch (zips : list jsstring)
              (states counties metros : list (option jsstring)).
                        (* UPDATE ... FROM unnest($1..$4) WHERE zip_code matches *)

Definition count_gaps (t : list row) : gaps :=
  {| total := length t;
     missing_state := count_where (fun r => missing (state_abbr r)) t;
     missing_county := count_where (fun r => missing (county_name r)) t;
     missing_metro := count_where (fun r => missing (metro_area r)) t |}.

(** The order of the rows of a SELECT without ORDER BY is the server's
    choice; the table order is taken. *)
Definition select_distinct_zips (t : list row) : list jsstring :=
  remove_dups (map zip_code t).

Definition has_gap (r : row) : bool :=
  missing (state_abbr r) || missing (county_name r) || missing (metro_area r).

Definition select_gap_rows (t : list row) : list row := List.filter has_gap t.

(** the rows [v] of the FROM clause: the four arrays unnested in step *)
Fixpoint unnest4 (zips : list jsstring)
    (states counties metros : list (option jsstring)) : list update :=
  match zips, states, counties, metros with
  | z :: zs, s :: ss, c :: cs, m :: ms =>
      {| u_zip := z; u_state := s; u_county := c; u_metro := m |}
        :: unnest4 zs ss cs ms
  | _, _, _, _ => []
  end.

(** The UPDATE on one row [h]: joined with the first [v] of equal
    zip_code (the server uses one joined row when there are several). *)
Definition update_row (t : N) (vs : list update) (h : row) : row :=
  match List.find (fun v => eqb (zip_code h) (u_zip v)) vs with
  | Some v =>
      {| zip_code := zip_code h;
         state_abbr := coalesce (u_state v) (state_abbr h);
         county_name := coalesce (u_county v) (county_name h);
         metro_area := coalesce (u_metro v) (metro_area h);
         updated_at := t |}
  | None => h
  end.

Definition matched (vs : list update) (h : row) : bool :=
  existsb (fun v => eqb (zip_code h) (u_zip v)) vs.

(** the statement's effect on the table, and [result.rowCount] *)
Definition exec_update (t : N) (vs : list update) (tbl : list row)
    : Z * list row :=
  (Z.of_nat (count_where (matched vs) tbl), map (update_row t vs) tbl).

(** *** Console output

    One constructor for each output statement of the script, with the
    values it interpolates; the text around them is not kept.  The
    percentage of the progress line is a function of the two counts
    beside it and is left out. *)

Inductive logline :=
| LBanner | LMode (dry : bool) (batch : Z) | LGaps (g : gaps)
| LStep1 | LDownloaded (rows : nat) | LBuiltZipCounty (size : nat)
| LDownloadFailed (e : exn)
| LStep2 | LFilled (npmFills : nat) | LCoverage (size total : nat)
| LStep3 | LDownloadedCbsa (rows : nat) (header : list jsstring)
| LNoNames | LLoadedNames (size : nat) | LNamesFailed (e : exn)
| LMetroCoverage (size : nat)
| LCbsaFailed (e : exn) | LMetroLimited
| LBuilding
| LSummaryHead | LStateFills (n : nat) | LCountyFills (n : nat)
| LMetroFills (n : nat) | LNoMatch (n : nat) | LTotalUpdates (n : nat)
| LDryRun | LSampleHead | LSample (u : update)
| LUpdating (batch : Z)
| LProgress (done all updated : Z)
| LNewline
| LResultsHead | LTotalRecords (n : nat)
| LResState (before after : nat) | LResCounty (before after : nat)
| LResMetro (before after : nat) | LDone (updated : Z)
| LFatal (e : exn).

Abbreviation prog := (M logline sql (list row)).

Section Main.
Variable zipcodes_lookup : jsstring -> option jsstring.
Variable w : world.

(** Step 2: the ZIP-to-county dataset.  Only [download] can throw in
    the [try] block, before [zipGeo] is touched: the handler leaves the
    empty map. *)
Definition step_zipGeo : prog (gmap jsstring geo) :=
  try_catch
    (csvData ← download w csvUrl;
     let csv := parseCSV csvData in
     log (LDownloaded (length (snd csv)));;
     let zipGeo := build_zipGeo (fst csv) (snd csv) in
     log (LBuiltZipCounty (size zipGeo));;
     mret zipGeo)
    (fun e => log (LDownloadFailed e);; mret ∅).

(** the inner [try] of step 4: the CBSA names *)
Definition step_names (cbsaCodes : gmap jsstring jsstring)
    : prog (gmap jsstring jsstring) :=
  try_catch
    (namesData ← download w namesUrl;
     let names := parseCSV namesData in
     let codeCol := findIndex is_code_col (fst names) in
     let titleCol := findIndex is_title_col (fst names) in
     if (codeCol >=? 0) && (titleCol >=? 0) then
       let nameMap := build_nameMap codeCol titleCol (snd names) in
       log (LLoadedNames (size nameMap));;
       mret (join_names cbsaCodes nameMap)
     else mret ∅)
    (fun e2 => log (LNamesFailed e2);; mret ∅).

(** Step 4: the ZIP-to-metro map *)
Definition step_zipMetro : prog (gmap jsstring jsstring) :=
  try_catch
    (cbsaData ← download w cbsaUrl;
     let csv := parseCSV cbsaData in
     let zipCol := findIndex is_zip_col (fst csv) in
     let cbsaCol := findIndex is_cbsa_col (fst csv) in
     let metroCol := findIndex is_metro_col (fst csv) in
     log (LDownloadedCbsa (length (snd csv)) (fst csv));;
     zipMetro ←
       (if metroCol >=? 0 then
          mret (build_zip_value zipCol metroCol (snd csv))
        else if cbsaCol >=? 0 then
          log LNoNames;;
          step_names (build_zip_value zipCol cbsaCol (snd csv))
        else mret ∅);
     log (LMetroCoverage (size zipMetro));;
     mret zipMetro)
    (fun e => log (LCbsaFailed e);; log LMetroLimited;; mret ∅).

(** Step 6, one turn of the loop over the batches *)
Definition batch_body (updates : list update)
    (i : Z) (batch : list update) (totalUpdated : Z) : prog Z :=
  let zips := map u_zip batch in
  let states := map u_state batch in
  let counties := map u_county batch in
  let metros := map u_metro batch in
  rowCount ← pool_query w (UpdateBatch zips states counties metros)
               (exec_update (now w) (unnest4 zips states counties metros));
  let totalUpdated := totalUpdated + rowCount in
  log (LProgress (i + Z.of_nat (length batch))
                 (Z.of_nat (length updates)) totalUpdated);;
  mret totalUpdated.

Definition dry_run (updates : list update) : prog unit :=
  log LDryRun;;
  log LSampleHead;;
  for_each (slice updates 0 15) (fun u => log (LSample u));;
  pool_end.

Definition live_run (fuel : nat) (g : gaps) (updates : list update)
    : prog unit :=
  log (LUpdating (BATCH_SIZE w));;
  totalUpdated ← for_batches fuel (BATCH_SIZE w) updates
                   (batch_body updates) 0 0;
  log LNewline;;
  a ← pool_query w SelectGaps (fun t => (count_gaps t, t));
  log LResultsHead;;
  log (LTotalRecords (total a));;
  log (LResState (missing_state g) (missing_state a));;
  log (LResCounty (missing_county g) (missing_county a));;
  log (LResMetro (missing_metro g) (missing_metro a));;
  log (LDone totalUpdated);;
  pool_end.

Definition main (fuel : nat) : prog unit :=
  log LBanner;;
  log (LMode (DRY_RUN w) (BATCH_SIZE w));;
  g ← pool_query w SelectGaps (fun t => (count_gaps t, t));
  log (LGaps g);;
  log LStep1;;
  zipGeo ← step_zipGeo;
  log LStep2;;
  allZips ← pool_query w SelectDistinctZips
              (fun t => (select_distinct_zips t, t));
  let filled := npm_fill zipcodes_lookup zipGeo allZips in
  log (LFilled (snd filled));;
  log (LCoverage (size (fst filled)) (length allZips));;
  log LStep3;;
  zipMetro ← step_zipMetro;
  log LBuilding;;
  dbZips ← pool_query w SelectGapRows (fun t => (select_gap_rows t, t));
  let built := build_updates (fst filled) zipMetro dbZips in
  let updates := fst built in
  log LSummaryHead;;
  log (LStateFills (st_state (snd built)));;
  log (LCountyFills (st_county (snd built)));;
  log (LMetroFills (st_metro (snd built)));;
  log (LNoMatch (st_noMatch (snd built)));;
  log (LTotalUpdates (length updates));;
  if DRY_RUN w then dry_run updates else live_run fuel g updates.

(** the script: [main().catch(...)] on the table [t] *)
Definition script (fuel : nat) (t : list row)
  : outcome unit * state logline sql (list row) :=
  run_main LFatal (main fuel) t.
End Main.

End GeoEnrich.

(** ** The metro enrichment script (geo-enrich-metro.js) *)

Module MetroEnrich.

Definition DRY_RUN (w : world) : bool :=
  existsb (eqb (js "--dry-run")) (argv w).

Definition BATCH_SIZE : Z := 500.

(** [STATE_FIPS]: state abbreviation to state FIPS prefix *)
Definition STATE_FIPS : gmap jsstring jsstring :=
  list_to_map (map (fun p => (js (fst p), js (snd p)))
  [ ("AL","01"); ("AK","02"); ("AZ","04"); ("AR","05"); ("CA","06");
    ("CO","08"); ("CT","09"); ("DE","10"); ("DC","11"); ("FL","12");
    ("GA","13"); ("HI","15"); ("ID","16"); ("IL","17"); ("IN","18");
    ("IA","19"); ("KS","20"); ("KY","21"); ("LA","22"); ("ME","23");
    ("MD","24"); ("MA","25"); ("MI","26"); ("MN","27"); ("MS","28");
    ("MO","29"); ("MT","30"); ("NE","31"); ("NV","32"); ("NH","33");
    ("NJ","34"); ("NM","35"); ("NY","36"); ("NC","37"); ("ND","38");
    ("OH","39"); ("OK","40"); ("OR","41"); ("PA","42"); ("RI","44");
    ("SC","45"); ("SD","46"); ("TN","47"); ("TX","48"); ("UT","49");
    ("VT","50"); ("VA","51"); ("WA","53"); ("WV","54"); ("WI","55");
    ("WY","56"); ("AS","60"); ("GU","66"); ("MP","69"); ("PR","72");
    ("VI","78") ]%string).

(** [STATE_FIPS] is an object literal: a name it does not own is looked
    up on [Object.prototype], whose members are all truthy. *)
Definition Object_prototype : list jsstring :=
  map js [ "constructor"; "__defineGetter__"; "__defineSetter__";
           "hasOwnProperty"; "__lookupGetter__"; "__lookupSetter__";
           "isPrototypeOf"; "propertyIsEnumerable"; "toString"; "valueOf";
           "__proto__"; "toLocaleString" ]%string.

(** truthiness of [STATE_FIPS[state]] *)
Definition stateFips_truthy (state : jsstring) : bool :=
  match STATE_FIPS !! state with
  | Some v => truthy v
  | None => existsb (eqb state) Object_prototype
  end.

Definition nberUrl : jsstring :=
  js "https://data.nber.org/cbsa-csa-fips-county-crosswalk/cbsa2fipsxw.csv".
Definition fipsUrl : jsstring :=
  js "https://raw.githubusercontent.com/kjhealy/fips-codes/master/county_fips_master.csv".

Definition cell (row : list jsstring) (idx : Z) : jsstring :=
  or_empty (at_index row idx).

(** *** Step 2: the NBER crosswalk, split on every comma *)

(** [line.split(',').map(v => v.replace(re, '').trim())], [re] the
    global regex of the double quote *)
Definition split_plain (line : jsstring) : list jsstring :=
  map (fun v => trim (strip_quotes v)) (split COMMA line).

Definition is_fips_col (h : jsstring) : bool :=
  test_ci (js "fipscounty") h || test_ci (js "fipscode") h
  || test_ci (js "fips") h.
Definition is_state_col (h : jsstring) : bool :=
  test_ci (js "fipsstate") h || test_ci (js "statecode") h.
Definition is_name_col (h : jsstring) : bool :=
  test_ci (js "cbsatitle") h || test_ci (js "metroname") h
  || test_seq_ci (js "cbsa") (js "name") h.

Definition fipsToMetro_step (fipsCol stateCol nameCol : Z)
    (m : gmap jsstring jsstring) (line : jsstring) : gmap jsstring jsstring :=
  let vals := split_plain line in
  let sf := padStart 2 (cell vals stateCol) in
  let cf := padStart 3 (cell vals fipsCol) in
  let fips := sf ++ cf in
  let name := cell vals nameCol in
  if (length fips =? 5)%nat && truthy name && negb (eqb name [QUOTE; QUOTE])
  then <[fips := name]> m else m.

Definition build_countyFipsToMetro (header : list jsstring)
    (lines : list jsstring) : gmap jsstring jsstring :=
  let fipsCol := findIndex is_fips_col header in
  let stateCol := findIndex is_state_col header in
  let nameCol := findIndex is_name_col header in
  fold_left (fipsToMetro_step fipsCol stateCol nameCol) (tl lines) ∅.

(** *** Step 3: the county FIPS master, parsed with quotes *)

(** [for (const c of line)] walks code points: a high surrogate followed
    by a low one is one [c] of two code units. *)
Definition is_high (c : N) : bool := ((55296 <=? c) && (c <=? 56319))%N.
Definition is_low (c : N) : bool := ((56320 <=? c) && (c <=? 57343))%N.

Fixpoint codePoints (s : jsstring) : list jsstring :=
  match s with
  | [] => []
  | c :: s' =>
      match s' with
      | d :: s'' =>
          if is_high c && is_low d then [c; d] :: codePoints s''
          else [c] :: codePoints s'
      | [] => [[c]]
      end
  end.

Definition parse_step (st : GeoEnrich.pstate) (c : jsstring) : GeoEnrich.pstate :=
  if eqb c [QUOTE] then
    {| GeoEnrich.fields := GeoEnrich.fields st;
       GeoEnrich.current := GeoEnrich.current st;
       GeoEnrich.inQuote := negb (GeoEnrich.inQuote st) |}
  else if eqb c [COMMA] && negb (GeoEnrich.inQuote st) then
    {| GeoEnrich.fields := GeoEnrich.fields st ++ [trim (GeoEnrich.current st)];
       GeoEnrich.current := [];
       GeoEnrich.inQuote := GeoEnrich.inQuote st |}
  else if eqb c [CR] then st
  else
    {| GeoEnrich.fields := GeoEnrich.fields st;
       GeoEnrich.current := GeoEnrich.current st ++ c;
       GeoEnrich.inQuote := GeoEnrich.inQuote st |}.

Definition parseRow (line : jsstring) : list jsstring :=
  GeoEnrich.parse_finish
    (fold_left parse_step (codePoints line) GeoEnrich.parse_init).

Definition is_fips_exact (h : jsstring) : bool := eq_ci (js "fips") h.
Definition is_county_name_col (h : jsstring) : bool :=
  test_ci (js "county_name") h || test_ci (js "name") h.
Definition is_state_abbr_col (h : jsstring) : bool :=
  test_ci (js "state_abbr") h || test_ci (js "state") h.

(** the suffixes cut when the map is built, and when a row is matched *)
Definition build_suffixes : list jsstring :=
  map js [ " county"; " parish"; " borough"; " census area";
           " municipality"; " city and borough"; " city" ]%string.
Definition match_suffixes : list jsstring :=
  map js [ " county"; " parish"; " borough"; " census area";
           " municipality" ]%string.

(** [`${state}|${name}`] *)
Definition key (state name : jsstring) : jsstring := state ++ 124%N :: name.

Section Host.
(** [String.prototype.toLowerCase] and [toUpperCase]: the Unicode case
    mappings of the host. *)
Variable toLowerCase toUpperCase : jsstring -> jsstring.

Definition nameToFips_step (fipsCol nameCol stateCol : Z)
    (m : gmap jsstring jsstring) (line : jsstring) : gmap jsstring jsstring :=
  let vals := parseRow line in
  let fips := padStart 5 (cell vals fipsCol) in
  let name := toLowerCase (cell vals nameCol) in
  let state := toUpperCase (cell vals stateCol) in
  if (length fips =? 5)%nat && truthy name && truthy state then
    let short := trim (replace_suffix build_suffixes name) in
    <[key state short := fips]> (<[key state name := fips]> m)
  else m.

Definition build_countyNameToFips (header : list jsstring)
    (lines : list jsstring) : gmap jsstring jsstring :=
  let fipsCol := findIndex is_fips_exact header in
  let nameCol := findIndex is_county_name_col header in
  let stateCol := findIndex is_state_abbr_col header in
  fold_left (nameToFips_step fipsCol nameCol stateCol) (tl lines) ∅.

(** *** Step 4: matching the rows of the table *)

Record update := {
  u_zip : jsstring;
  u_metro : jsstring
}.

(** the county FIPS of a row: the direct key, else the key without
    suffix *)
Definition find_fips (countyNameToFips : gmap jsstring jsstring)
    (state county : jsstring) : option jsstring :=
  let fips := countyNameToFips !! key state county in
  if negb (truthy_opt fips) then
    let short := trim (replace_suffix match_suffixes county) in
    countyNameToFips !! key state short
  else fips.

Inductive verdict :=
| Skipped                 (* continue *)
| Matched (u : update)    (* updates.push, matched++ *)
| Unmatched.              (* unmatched++ *)

(** the body of the loop over [zips.rows] *)
Definition match_row (countyNameToFips countyFipsToMetro : gmap jsstring jsstring)
    (r : row) : verdict :=
  let county := toLowerCase (or_empty (county_name r)) in
  match state_abbr r with
  | None => Skipped                  (* STATE_FIPS[null] is undefined *)
  | Some state =>
      if negb (stateFips_truthy state) || negb (truthy county) then Skipped
      else
        let fips := find_fips countyNameToFips state county in
        if truthy_opt fips then
          let metro := countyFipsToMetro !! default [] fips in
          if truthy_opt metro then
            Matched {| u_zip := zip_code r; u_metro := default [] metro |}
          else Unmatched
        else Unmatched
  end.

Definition match_step (countyNameToFips countyFipsToMetro : gmap jsstring jsstring)
    (acc : list update * nat * nat) (r : row) : list update * nat * nat :=
  let '(updates, matched, unmatched) := acc in
  match match_row countyNameToFips countyFipsToMetro r with
  | Skipped => acc
  | Matched u => (updates ++ [u], S matched, unmatched)
  | Unmatched => (updates, matched, S unmatched)
  end.

Definition match_rows (countyNameToFips countyFipsToMetro : gmap jsstring jsstring)
    (rows : list row) : list update * nat * nat :=
  fold_left (match_step countyNameToFips countyFipsToMetro) rows ([], O, O).
End Host.

(** *** The SQL statements *)

Inductive sql :=
| SelectCounties   (* SELECT DISTINCT state_abbr, county_name ... needing metro *)
| SelectZips       (* SELECT zip_code, state_abbr, county_name ... needing metro *)
| UpdateBatch (zips metros : list jsstring)
                   (* UPDATE ... SET metro_area = v.metro FROM unnest($1, $2) *)
| SelectMissing.   (* SELECT COUNT ... FILTER (metro_area missing) *)

(** only the number of rows of the first SELECT is used *)
Definition count_counties (t : list row) : nat :=
  length (remove_dups
            (map (fun r => (state_abbr r, county_name r))
                 (List.filter (fun r => negb (missing (state_abbr r))
                                        && negb (missing (county_name r))
                                        && missing (metro_area r)) t))).

(** The order of the rows of a SELECT without ORDER BY is the server's
    choice; the table order is taken. *)
Definition select_zips (t : list row) : list row :=
  List.filter (fun r => negb (missing (state_abbr r)) && missing (metro_area r)) t.

Fixpoint unnest2 (zips metros : list jsstring) : list update :=
  match zips, metros with
  | z :: zs, m :: ms => {| u_zip := z; u_metro := m |} :: unnest2 zs ms
  | _, _ => []
  end.

(** The UPDATE on one row [h]: joined with the first [v] of equal
    zip_code (the server uses one joined row when there are several). *)
Definition update_row (t : N) (vs : list update) (h : row) : row :=
  match List.find (fun v => eqb (zip_code h) (u_zip v)) vs with
  | Some v =>
      {| zip_code := zip_code h;
         state_abbr := state_abbr h;
         county_name := county_name h;
         metro_area := Some (u_metro v);
         updated_at := t |}
  | None => h
  end.

Definition matched (vs : list update) (h : row) : bool :=
  existsb (fun v => eqb (zip_code h) (u_zip v)) vs.

Definition exec_update (t : N) (vs : list update) (tbl : list row)
    : Z * list row :=
  (Z.of_nat (count_where (matched vs) tbl), map (update_row t vs) tbl).

(** *** Console output: one constructor for each output statement, as
    for the other script *)

Inductive logline :=
| LBanner | LMode (dry : bool) | LCountiesNeeding (n : nat)
| LDownloadingCbsa
| LNber (rows : Z) (header : list jsstring)
| LUsing (fips state name : option jsstring)
| LBuiltMetroMap (size : nat)
| LNberFailed (e : exn)
| LFallback (rows : Z) | LFallbackFailed (e : exn)
| LNoCbsa
| LDownloadingFips
| LCountyFips (rows : Z) (header : list jsstring)
| LBuiltNameMap (size : nat)
| LFipsFailed (e : exn)
| LMatching
| LMatched (n : nat) | LUnmatched (n : nat) | LTotalUpdates (n : nat)
| LDrySampleHead | LSample (u : update)
| LUpdating (n : nat)
| LProgress (done all updated : Z)
| LNewline
| LComplete (updated : Z) | LRemaining (missing : nat)
| LFatal (e : exn).

Abbreviation prog := (M logline sql (list row)).

Section Main.
Variable toLowerCase toUpperCase : jsstring -> jsstring.
Variable w : world.

(** Step 2.  In the [try] block only [download] throws, before the
    map is touched; the handler tries the fallback URL, counts its
    lines and builds nothing from them. *)
Definition step_countyFipsToMetro : prog (gmap jsstring jsstring) :=
  try_catch
    (data ← download w nberUrl;
     let lines := split LF (trim data) in
     let header := split_plain (hd [] lines) in
     log (LNber (Z.of_nat (length lines) - 1) header);;
     log (LUsing (at_index header (findIndex is_fips_col header))
                 (at_index header (findIndex is_state_col header))
                 (at_index header (findIndex is_name_col header)));;
     let m := build_countyFipsToMetro header lines in
     log (LBuiltMetroMap (size m));;
     mret m)
    (fun e =>
       log (LNberFailed e);;
       try_catch
         (data ← download w fipsUrl;
          let lines := split LF (trim data) in
          log (LFallback (Z.of_nat (length lines) - 1));;
          mret ∅)
         (fun e2 => log (LFallbackFailed e2);; mret ∅)).

(** Step 3 *)
Definition step_countyNameToFips : prog (gmap jsstring jsstring) :=
  try_catch
    (data ← download w fipsUrl;
     let lines := split LF (trim data) in
     let header := parseRow (hd [] lines) in
     log (LCountyFips (Z.of_nat (length lines) - 1) (slice header 0 8));;
     let m := build_countyNameToFips toLowerCase toUpperCase header lines in
     log (LBuiltNameMap (size m));;
     mret m)
    (fun e => log (LFipsFailed e);; mret ∅).

(** Step 5, one turn of the loop over the batches *)
Definition batch_body (updates : list update)
    (i : Z) (batch : list update) (totalUpdated : Z) : prog Z :=
  let zips := map u_zip batch in
  let metros := map u_metro batch in
  rowCount ← pool_query w (UpdateBatch zips metros)
               (exec_update (now w) (unnest2 zips metros));
  let totalUpdated := totalUpdated + rowCount in
  log (LProgress (i + Z.of_nat (length batch))
                 (Z.of_nat (length updates)) totalUpdated);;
  mret totalUpdated.

Definition dry_run (updates : list update) : prog unit :=
  log LDrySampleHead;;
  for_each (slice updates 0 15) (fun u => log (LSample u));;
  pool_end.

Definition live_run (fuel : nat) (updates : list update) : prog unit :=
  log (LUpdating (length updates));;
  totalUpdated ← for_batches fuel BATCH_SIZE updates (batch_body updates) 0 0;
  log LNewline;;
  after ← pool_query w SelectMissing
            (fun t => (count_where (fun r => missing (metro_area r)) t, t));
  log (LComplete totalUpdated);;
  log (LRemaining after);;
  pool_end.

(** Steps 3 to 5, reached when the CBSA map is not empty *)
Definition enrich (fuel : nat) (countyFipsToMetro : gmap jsstring jsstring)
    : prog unit :=
  log LDownloadingFips;;
  countyNameToFips ← step_countyNameToFips;
  log LMatching;;
  zips ← pool_query w SelectZips (fun t => (select_zips t, t));
  let res := match_rows toLowerCase countyNameToFips countyFipsToMetro zips in
  let updates := fst (fst res) in
  log (LMatched (snd (fst res)));;
  log (LUnmatched (snd res));;
  log (LTotalUpdates (length updates));;
  if DRY_RUN w then dry_run updates else live_run fuel updates.

Definition main (fuel : nat) : prog unit :=
  log LBanner;;
  log (LMode (DRY_RUN w));;
  counties ← pool_query w SelectCounties (fun t => (count_counties t, t));
  log (LCountiesNeeding counties);;
  log LDownloadingCbsa;;
  countyFipsToMetro ← step_countyFipsToMetro;
  if (size countyFipsToMetro =? 0)%nat then
    log LNoCbsa;;
    pool_end
  else enrich fuel countyFipsToMetro.

Definition script (fuel : nat) (t : list row)
  : outcome unit * state logline sql (list row) :=
  run_main LFatal (main fuel) t.
End Main.

End MetroEnrich.

(** ** Definitions used to state the properties *)

Module Spec.

(** The line cut at the commas that are outside double quotes, every
    code unit kept; [q] tells whether the cut starts inside quotes. *)
Definition cons_head (c : N) (l : list jsstring) : list jsstring :=
  match l with
  | f :: fs => (c :: f) :: fs
  | [] => [[c]]
  end.

Fixpoint split_unquoted (q : bool) (s : jsstring) : list jsstring :=
  match s with
  | [] => [[]]
  | c :: s' =>
      if (c =? QUOTE)%N then cons_head c (split_unquoted (negb q) s')
      else if (c =? COMMA)%N && negb q then [] :: split_unquoted q s'
      else cons_head c (split_unquoted q s')
  end.

(** the number of commas outside double quotes *)
Fixpoint unquoted_commas (q : bool) (s : jsstring) : nat :=
  match s with
  | [] => O
  | c :: s' =>
      if (c =? QUOTE)%N then unquoted_commas (negb q) s'
      else if (c =? COMMA)%N && negb q then S (unquoted_commas q s')
      else unquoted_commas q s'
  end.

(** a field without its double quotes and carriage returns *)
Definition unquote (f : jsstring) : jsstring :=
  List.filter (fun c => negb (c =? QUOTE)%N && negb (c =? CR)%N) f.

(** A specification of the effects of a computation: from every
    state it extends the trace by some [t], and [Q] holds of its outcome
    and of [t]. *)
Definition spec {Log Sql Db A} (m : M Log Sql Db A)
    (Q : outcome A -> list (event Log Sql) -> Prop) : Prop :=
  forall s, exists t, trace (snd (m s)) = trace s ++ t /\ Q (fst (m s)) t.

(** An invariant of the state that a computation keeps. *)
Definition preserves {Log Sql Db A} (I : state Log Sql Db -> Prop)
    (m : M Log Sql Db A) : Prop :=
  forall s, I s -> I (snd (m s)).

(** the downloads and the SQL statements of a trace, in order *)
Fixpoint downloads {Log Sql} (t : list (event Log Sql))
    : list (jsstring * bool) :=
  match t with
  | [] => []
  | EvDownload u ok :: t' => (u, ok) :: downloads t'
  | _ :: t' => downloads t'
  end.

Fixpoint queries {Log Sql} (t : list (event Log Sql)) : list (Sql * bool) :=
  match t with
  | [] => []
  | EvQuery q ok :: t' => (q, ok) :: queries t'
  | _ :: t' => queries t'
  end.

(** the trace [t] ends with [tail] *)
Definition ends_with {E} (tail t : list E) : Prop :=
  exists pre, t = pre ++ tail.

(** the exit codes of a trace *)
Fixpoint exits {Log Sql} (t : list (event Log Sql)) : list Z :=
  match t with
  | [] => []
  | EvExit c :: t' => c :: exits t'
  | _ :: t' => exits t'
  end.

(** no statement follows a rejected one *)
Fixpoint rejected_last {Sql} (qs : list (Sql * bool)) : bool :=
  match qs with
  | [] => true
  | (_, ok) :: rest => if ok then rejected_last rest
                       else match rest with [] => true | _ => false end
  end.

(** no statement was rejected *)
Fixpoint succeeded {Sql} (qs : list (Sql * bool)) : bool :=
  match qs with
  | [] => true
  | (_, ok) :: rest => ok && succeeded rest
  end.

(** What a run of [main] does about failures.  No URL is requested
    twice, so no failed download is tried again; nothing is sent to the
    pool after a rejected statement; the process is not ended from
    within; and an error that leaves [main] is the rejection of the
    last statement sent. *)
Definition no_retry {Log Sql} (r : outcome unit) (t : list (event Log Sql))
    : Prop :=
  NoDup (map fst (downloads t))
  /\ rejected_last (queries t) = true
  /\ exits t = []
  /\ match r with
     | Throw e => exists msg q, e = DbError msg /\ ends_with [EvQuery q false] t
     | _ => succeeded (queries t) = true
     end.

(** The table is as it was at the start, and no statement for which
    [upd] holds has been sent. *)
Definition untouched {Log Sql Db} (upd : Sql -> bool) (d0 : Db)
    (s : state Log Sql Db) : Prop :=
  db s = d0
  /\ Forall (fun e => match e with
                     | EvQuery q _ => upd q = false
                     | _ => True
                     end) (trace s).

Definition geo_is_update (q : GeoEnrich.sql) : bool :=
  match q with GeoEnrich.UpdateBatch _ _ _ _ => true | _ => false end.

Definition metro_is_update (q : MetroEnrich.sql) : bool :=
  match q with MetroEnrich.UpdateBatch _ _ => true | _ => false end.

(** The consecutive slices of [n] rows of a list; the length of the
    list bounds their number. *)
Fixpoint chunks {U} (fuel n : nat) (l : list U) : list (list U) :=
  match fuel, l with
  | S fuel', _ :: _ => firstn n l :: chunks fuel' n (skipn n l)
  | _, _ => []
  end.

Definition batches {U} (n : nat) (l : list U) : list (list U) :=
  chunks (length l) n l.

(** the rows carried by the UPDATE statements of a trace, statement by
    statement, with the statement's success *)
Definition geo_updates_sent (t : list (event GeoEnrich.logline GeoEnrich.sql))
    : list (list GeoEnrich.update * bool) :=
  omap (fun e => match e with
                 | EvQuery (GeoEnrich.UpdateBatch z s c m) ok =>
                     Some (GeoEnrich.unnest4 z s c m, ok)
                 | _ => None
                 end) t.

Definition metro_updates_sent
    (t : list (event MetroEnrich.logline MetroEnrich.sql))
    : list (list MetroEnrich.update * bool) :=
  omap (fun e => match e with
                 | EvQuery (MetroEnrich.UpdateBatch z m) ok =>
                     Some (MetroEnrich.unnest2 z m, ok)
                 | _ => None
                 end) t.

(** The traces of the loop over the batches: statement and progress
    line for each turn, until the loop ends, a statement is rejected, or
    the fuel is spent. *)
Inductive loop_trace {Log Sql U} (stmt : list U -> Sql)
    : outcome Z -> list (event Log Sql) -> Prop :=
| lt_return acc : loop_trace stmt (Return acc) []
| lt_fuel : loop_trace stmt OutOfFuel []
| lt_throw b msg :
    loop_trace stmt (Throw (DbError msg)) [EvQuery (stmt b) false]
| lt_step b l r t :
    loop_trace stmt r t ->
    loop_trace stmt r (EvQuery (stmt b) true :: EvLog l :: t).

(** one turn of the loop: the statement for the batch, then a progress
    line, or the statement rejected *)
Definition turn_post {Log Sql U} (stmt : list U -> Sql) (b : list U)
    (r : outcome Z) (t : list (event Log Sql)) : Prop :=
  (exists acc l, r = Return acc /\ t = [EvQuery (stmt b) true; EvLog l])
  \/ (exists msg, r = Throw (DbError msg) /\ t = [EvQuery (stmt b) false]).

(** the trace of a loop of which no statement is rejected: for each
    batch its statement, then its progress line *)
Fixpoint loop_events {Log Sql U} (stmt : list U -> Sql)
    (bs : list (list U)) (lgs : list Log) : list (event Log Sql) :=
  match bs, lgs with
  | b :: bs', lg :: lgs' =>
      EvQuery (stmt b) true :: EvLog lg :: loop_events stmt bs' lgs'
  | _, _ => []
  end.

Definition geo_stmt (b : list GeoEnrich.update) : GeoEnrich.sql :=
  GeoEnrich.UpdateBatch (map GeoEnrich.u_zip b) (map GeoEnrich.u_state b)
                        (map GeoEnrich.u_county b) (map GeoEnrich.u_metro b).

Definition metro_stmt (b : list MetroEnrich.update) : MetroEnrich.sql :=
  MetroEnrich.UpdateBatch (map MetroEnrich.u_zip b) (map MetroEnrich.u_metro b).

(** [r'] is the row [r0] with, at most, columns filled that were
    missing ([updated_at] is free). *)
Definition row_kept (r0 r' : row) : Prop :=
  zip_code r' = zip_code r0
  /\ (missing (state_abbr r0) = false -> state_abbr r' = state_abbr r0)
  /\ (missing (county_name r0) = false -> county_name r' = county_name r0)
  /\ (missing (metro_area r0) = false -> metro_area r' = metro_area r0).

(** the table [t'] is [t0] with no existing value overwritten *)
Definition keeps (t0 t' : list row) : Prop := Forall2 row_kept t0 t'.

(** an update of geo-enrich.js sets a column only where the row [r]
    has none *)
Definition geo_fills_gaps (r : row) (u : GeoEnrich.update) : Prop :=
  (is_Some (GeoEnrich.u_state u) -> missing (state_abbr r) = true)
  /\ (is_Some (GeoEnrich.u_county u) -> missing (county_name r) = true)
  /\ (is_Some (GeoEnrich.u_metro u) -> missing (metro_area r) = true).

(** What a run of a script does about failures: as for [main], and an
    error that leaves [main] is followed by the line that reports it and
    by [process.exit(1)], which end the trace; the process is ended in
    no other case. *)
Definition script_failures {Log Sql} (fatal : exn -> Log) (r : outcome unit)
    (t : list (event Log Sql)) : Prop :=
  NoDup (map fst (downloads t))
  /\ rejected_last (queries t) = true
  /\ match r with
     | Throw e =>
         (exists msg q,
             e = DbError msg
             /\ ends_with [EvQuery q false; EvLog (fatal e); EvExit 1] t)
         /\ exits t = [1]
     | _ => succeeded (queries t) = true /\ exits t = []
     end.

(** the promise of [download(url)] is settled: resolved or rejected *)
Definition settles (w : world) (url : jsstring) : Prop :=
  exists r, fetch w url = Settled r.

(** every download of geo-enrich.js, and of the metro script, settles *)
Definition geo_settle (w : world) : Prop :=
  settles w GeoEnrich.csvUrl /\ settles w GeoEnrich.cbsaUrl
  /\ settles w GeoEnrich.namesUrl.

Definition metro_settle (w : world) : Prop :=
  settles w MetroEnrich.nberUrl /\ settles w MetroEnrich.fipsUrl.




(** A run halts at a download that is not settled, which is its last
    event; in a run that does not halt every download has settled. *)
Definition halts_at_download {Log Sql A} (w : world)
    (r : outcome A) (t : list (event Log Sql)) : Prop :=
  match r with
  | Halt h =>
      exists url, fetch w url = Unsettled h
                  /\ ends_with [EvDownload url false] t
  | _ => Forall (fun d => settles w (fst d)) (downloads t)
  end.

(** How a dry run ends.  When it returns, every statement it sent
    succeeded and every download it made was settled.  An error leaves
    main only as a rejected statement, and is followed by the line that
    reports it and by [process.exit(1)].  The script halts only at a
    download that is never settled.  It has no loop that could go on. *)
Definition dry_run_ends {Log Sql} (fatal : exn -> Log) (w : world)
    (r : outcome unit) (t : list (event Log Sql)) : Prop :=
  match r with
  | Return _ =>
      succeeded (queries t) = true
      /\ Forall (fun d => settles w (fst d)) (downloads t)
  | Throw e =>
      exists msg q,
        e = DbError msg
        /\ ends_with [EvQuery q false; EvLog (fatal e); EvExit 1] t
  | Halt h =>
      exists url, fetch w url = Unsettled h
                  /\ ends_with [EvDownload url false] t
  | OutOfFuel => False
  end.

(** the URLs a trace downloads, in order *)
Definition urls {Log Sql} (t : list (event Log Sql)) : list jsstring :=
  map fst (downloads t).

(** geo-enrich.js downloads the CBSA names when the ZIP-CBSA CSV arrives
    with a CBSA column and without a column of metro names *)
Definition names_needed (w : world) : bool :=
  match fetch w GeoEnrich.cbsaUrl with
  | Settled (inr data) =>
      let header := fst (GeoEnrich.parseCSV data) in
      negb (findIndex GeoEnrich.is_metro_col header >=? 0)
      && (findIndex GeoEnrich.is_cbsa_col header >=? 0)
  | _ => false
  end.

(** the reference tables geo-enrich.js consults in a run: the zipcodes
    package, and each URL it downloads *)
Definition geo_tables (t : list (event GeoEnrich.logline GeoEnrich.sql)) : nat :=
  S (length (remove_dups (urls t))).

(** the reference tables the metro script downloads in a run *)
Definition metro_tables (t : list (event MetroEnrich.logline MetroEnrich.sql))
    : nat :=
  length (remove_dups (urls t)).

(** the downloads of a run of geo-enrich.js: a prefix of the three URLs
    in their order, and all that are needed when main returns *)
Definition geo_downloads (w : world) (r : outcome unit)
    (t : list (event GeoEnrich.logline GeoEnrich.sql)) : Prop :=
  (exists k, urls t
             = firstn k [GeoEnrich.csvUrl; GeoEnrich.cbsaUrl; GeoEnrich.namesUrl])
  /\ (r = Return tt ->
      urls t = [GeoEnrich.csvUrl; GeoEnrich.cbsaUrl]
               ++ (if names_needed w then [GeoEnrich.namesUrl] else [])).

(** the downloads of a run of the metro script: a prefix of its two
    URLs, the first of them when main returns *)
Definition metro_downloads (r : outcome unit)
    (t : list (event MetroEnrich.logline MetroEnrich.sql)) : Prop :=
  (exists k, urls t = firstn k [MetroEnrich.nberUrl; MetroEnrich.fipsUrl])
  /\ (r = Return tt ->
      urls t = [MetroEnrich.nberUrl]
      \/ urls t = [MetroEnrich.nberUrl; MetroEnrich.fipsUrl]).

(** *** Stages of a run *)

(** the stages of the events of a trace, events without stage left out *)
Fixpoint stages {E} (stage : E -> option nat) (t : list E) : list nat :=
  match t with
  | [] => []
  | e :: t' =>
      match stage e with
      | Some n => n :: stages stage t'
      | None => stages stage t'
      end
  end.

(** the stages never go back: each is at least the one before, [cur]
    at the start *)
Fixpoint ordered (cur : nat) (l : list nat) : bool :=
  match l with
  | [] => true
  | x :: l' => (cur <=? x)%nat && ordered x l'
  end.

(** Stages of geo-enrich.js: 1, the lookup maps are built (downloads,
    and the SELECT of the table's ZIPs for the supplement from the
    zipcodes package); 2, the SELECT of the rows with gaps, which the
    update list is joined from; 3, the UPDATE statements.  The two
    counting SELECTs, at the start and at the end, have no stage. *)
Definition geo_stage (e : event GeoEnrich.logline GeoEnrich.sql) : option nat :=
  match e with
  | EvDownload _ _ => Some 1%nat
  | EvQuery GeoEnrich.SelectDistinctZips _ => Some 1%nat
  | EvQuery GeoEnrich.SelectGapRows _ => Some 2%nat
  | EvQuery (GeoEnrich.UpdateBatch _ _ _ _) _ => Some 3%nat
  | _ => None
  end.

(** Stages of the metro script: 1, downloads; 2, the SELECT of the rows
    that need a metro area; 3, the UPDATE statements. *)
Definition metro_stage (e : event MetroEnrich.logline MetroEnrich.sql)
    : option nat :=
  match e with
  | EvDownload _ _ => Some 1%nat
  | EvQuery MetroEnrich.SelectZips _ => Some 2%nat
  | EvQuery (MetroEnrich.UpdateBatch _ _) _ => Some 3%nat
  | _ => None
  end.

(** The phases as the pipeline download, parse, join, UPDATE has them,
    for geo-enrich.js: 1, a download; 2, the line printed once a text is
    parsed; 3, a SELECT whose rows are joined with the lookup maps by
    ZIP; 4, an UPDATE statement. *)
Definition geo_pipeline_phase (e : event GeoEnrich.logline GeoEnrich.sql)
    : option nat :=
  match e with
  | EvDownload _ _ => Some 1%nat
  | EvLog (GeoEnrich.LDownloaded _) => Some 2%nat
  | EvLog (GeoEnrich.LDownloadedCbsa _ _) => Some 2%nat
  | EvLog (GeoEnrich.LLoadedNames _) => Some 2%nat
  | EvQuery GeoEnrich.SelectDistinctZips _ => Some 3%nat
  | EvQuery GeoEnrich.SelectGapRows _ => Some 3%nat
  | EvQuery (GeoEnrich.UpdateBatch _ _ _ _) _ => Some 4%nat
  | _ => None
  end.

(** the update that geo-enrich.js derives from one row, if any: every
    column that the row misses and a lookup map has *)
Definition geo_row_update (zipGeo : gmap jsstring GeoEnrich.geo)
    (zipMetro : gmap jsstring jsstring) (r : row) : option GeoEnrich.update :=
  let geo := zipGeo !! zip_code r in
  let metro := zipMetro !! zip_code r in
  let fs := GeoEnrich.fill (state_abbr r) (GeoEnrich.geo_state geo) in
  let fc := GeoEnrich.fill (county_name r) (GeoEnrich.geo_county geo) in
  let fm := GeoEnrich.fill (metro_area r) metro in
  if fs || fc || fm then
    Some {| GeoEnrich.u_zip := zip_code r;
            GeoEnrich.u_state := if fs then GeoEnrich.geo_state geo else None;
            GeoEnrich.u_county := if fc then GeoEnrich.geo_county geo else None;
            GeoEnrich.u_metro := if fm then metro else None |}
  else None.

(** the update that the metro script derives from one row, if any *)
Definition metro_row_update (v : MetroEnrich.verdict)
    : option MetroEnrich.update :=
  match v with MetroEnrich.Matched u => Some u | _ => None end.

(** an update that only fills gaps of the table [t0], whichever row
    has its zip_code *)
Definition geo_safe (t0 : list row) (u : GeoEnrich.update) : Prop :=
  forall r0, r0 ∈ t0 -> GeoEnrich.u_zip u = zip_code r0 -> geo_fills_gaps r0 u.

Definition metro_safe (t0 : list row) (u : MetroEnrich.update) : Prop :=
  forall r0, r0 ∈ t0 -> MetroEnrich.u_zip u = zip_code r0 ->
             missing (metro_area r0) = true.

(** a property of the table alone, as a property of the state *)
Definition on_table {Log Sql} (J : list row -> Prop)
    (s : state Log Sql (list row)) : Prop := J (db s).

(** what a dry run of geo-enrich.js prints last: the summary of the
    planned updates, the first 15 of them, and the pool is closed *)
Definition geo_dry_output (updates : list GeoEnrich.update)
    (st : GeoEnrich.stats) : list (event GeoEnrich.logline GeoEnrich.sql) :=
  [ EvLog GeoEnrich.LSummaryHead;
    EvLog (GeoEnrich.LStateFills (GeoEnrich.st_state st));
    EvLog (GeoEnrich.LCountyFills (GeoEnrich.st_county st));
    EvLog (GeoEnrich.LMetroFills (GeoEnrich.st_metro st));
    EvLog (GeoEnrich.LNoMatch (GeoEnrich.st_noMatch st));
    EvLog (GeoEnrich.LTotalUpdates (length updates));
    EvLog GeoEnrich.LDryRun;
    EvLog GeoEnrich.LSampleHead ]
  ++ map (fun u => EvLog (GeoEnrich.LSample u)) (firstn 15 updates)
  ++ [EvPoolEnd].

(** the same for the metro script *)
Definition metro_dry_output (updates : list MetroEnrich.update)
    (matched unmatched : nat)
    : list (event MetroEnrich.logline MetroEnrich.sql) :=
  [ EvLog (MetroEnrich.LMatched matched);
    EvLog (MetroEnrich.LUnmatched unmatched);
    EvLog (MetroEnrich.LTotalUpdates (length updates));
    EvLog MetroEnrich.LDrySampleHead ]
  ++ map (fun u => EvLog (MetroEnrich.LSample u)) (firstn 15 updates)
  ++ [EvPoolEnd].

(** what the metro script prints last when it has no CBSA data *)
Definition metro_abort_output
    : list (event MetroEnrich.logline MetroEnrich.sql) :=
  [EvLog MetroEnrich.LNoCbsa; EvPoolEnd].

(** every key of the map satisfies [P] *)
Definition keys_in {K V} `{Countable K} (P : K -> Prop) (m : gmap K V) : Prop :=
  forall k, is_Some (m !! k) -> P k.

(** a 5-digit ZIP code, or a FIPS code: 2 (state), 3 (county) or 5
    (state and county) digits *)
Definition is_digit (c : N) : bool := ((48 <=? c) && (c <=? 57))%N.

Definition is_zip_or_fips (k : jsstring) : bool :=
  forallb is_digit k
  && ((length k =? 2) || (length k =? 3) || (length k =? 5))%nat.

(** *** Statement-side definitions for the properties beyond the
    pipeline: downloads, flags, CSV texts *)

(** one redirect: [u] answers with a status from 300 to 399 and a
    Location header, which sends the download to [v] *)
Definition redirects (w : world) (u v : jsstring) : Prop :=
  exists res l,
    http_get w u = Response res
    /\ 300 <= statusCode res < 400
    /\ location res = Some l /\ l <> []
    /\ Some v = if startsWith (js "http") l then Some l else url_resolve w l u.


(** [k] redirects in a row lead from [u] to [v] *)
Inductive redirect_chain (w : world) : nat -> jsstring -> jsstring -> Prop :=
| chain_here u : redirect_chain w 0 u u
| chain_step k u v v' :
    redirects w u v -> redirect_chain w k v v' ->
    redirect_chain w (S k) u v'.

(** what a URL that answers and does not redirect makes of the
    download: its body when the status is 200, an error otherwise *)
Definition answers (w : world) (u : jsstring) (r : exn + jsstring) : Prop :=
  match http_get w u with
  | RequestError msg => r = inl (NetError msg)
  | Response res =>
      ((300 <= statusCode res < 400) -> truthy_opt (location res) = false)
      /\ r = if statusCode res =? 200
             then match body res with
                  | inl data => inr data
                  | inr msg => inl (NetError msg)
                  end
             else inl (HttpStatus (statusCode res))
  | Refused _ | Silent => False
  end.

(** the code unit of a decimal digit, and the number a row of decimal
    digits writes *)
Definition digit_char (d : nat) : N := (48 + N.of_nat d)%N.

Definition decimal_value (ds : list nat) : Z :=
  fold_left (fun acc d => 10 * acc + Z.of_nat d) ds 0.

(** a CSV line written from fields: each field between double quotes,
    the fields joined by commas *)
Definition quoted (f : jsstring) : jsstring := QUOTE :: f ++ [QUOTE].

Fixpoint join (sep : N) (fs : list jsstring) : jsstring :=
  match fs with
  | [] => []
  | [f] => f
  | f :: fs' => f ++ sep :: join sep fs'
  end.

(** a text without its carriage returns *)
Definition dropCR (s : jsstring) : jsstring :=
  List.filter (fun c => negb (c =? CR)%N) s.

(** the entry a row of the ZIP-to-county CSV stands for: its state
    cell, and its county cell followed by the word County *)
Definition zipGeo_entry (stateIdx countyIdx : Z) (row : list jsstring)
    : GeoEnrich.geo :=
  {| GeoEnrich.g_state := GeoEnrich.cell row stateIdx;
     GeoEnrich.g_county :=
       match GeoEnrich.cell row countyIdx with
       | [] => []
       | c => c ++ js " County"
       end |}.

(** the row of a CSV whose ZIP cell, padded to 5, is [zip] *)
Definition has_zip (zipIdx : Z) (zip : jsstring) (row : list jsstring) : bool :=
  eqb (padStart 5 (GeoEnrich.cell row zipIdx)) zip.

(** the number of commas of a line, quoted or not *)
Definition commas (line : jsstring) : nat :=
  length (List.filter (fun c => (c =? COMMA)%N) line).

(** the number of updates that set a column *)
Definition sets {U} (col : U -> option jsstring) (us : list U) : nat :=
  length (List.filter (fun u => truthy_opt (col u)) us).

(** what the supplement from the zipcodes package makes of the entry
    of a ZIP of the table *)
Definition supplemented (zipcodes_lookup : jsstring -> option jsstring)
    (z : jsstring) (o : option GeoEnrich.geo) : option GeoEnrich.geo :=
  match o with
  | None =>
      (fun st => {| GeoEnrich.g_state := st; GeoEnrich.g_county := [] |})
        <$> zipcodes_lookup z
  | Some g =>
      match zipcodes_lookup z with
      | Some st =>
          if negb (truthy (GeoEnrich.g_state g)) && truthy st
          then Some {| GeoEnrich.g_state := st;
                       GeoEnrich.g_county := GeoEnrich.g_county g |}
          else Some g
      | None => Some g
      end
  end.

(** a row whose ZIP neither lookup map has *)
Definition no_match (zg : gmap jsstring GeoEnrich.geo)
    (zm : gmap jsstring jsstring) (r : row) : bool :=
  negb (bool_decide (is_Some (zg !! zip_code r)))
  && negb (truthy_opt (zm !! zip_code r)).

(** the verdicts the metro script counts nowhere, and as unmatched *)
Definition skipped (v : MetroEnrich.verdict) : bool :=
  match v with MetroEnrich.Skipped => true | _ => false end.
Definition unmatched (v : MetroEnrich.verdict) : bool :=
  match v with MetroEnrich.Unmatched => true | _ => false end.

(** *** What a run leaves in the table *)

(** from every state whose table is [d], [Q] holds of the outcome of
    the computation and of the table it leaves *)
Definition yields {Log Sql Db A} (d : Db) (m : M Log Sql Db A)
    (Q : outcome A -> Db -> Prop) : Prop :=
  forall s, db s = d -> Q (fst (m s)) (db (snd (m s))).

(** the lookup maps of geo-enrich.js as the URLs of the world give
    them: empty when the download fails *)
Definition downloaded_zipGeo (w : world) : gmap jsstring GeoEnrich.geo :=
  match fetch w GeoEnrich.csvUrl with
  | Settled (inr data) =>
      let csv := GeoEnrich.parseCSV data in
      GeoEnrich.build_zipGeo (fst csv) (snd csv)
  | _ => ∅
  end.

Definition downloaded_names (w : world) (cbsaCodes : gmap jsstring jsstring)
    : gmap jsstring jsstring :=
  match fetch w GeoEnrich.namesUrl with
  | Settled (inr data) =>
      let names := GeoEnrich.parseCSV data in
      let codeCol := findIndex GeoEnrich.is_code_col (fst names) in
      let titleCol := findIndex GeoEnrich.is_title_col (fst names) in
      if (codeCol >=? 0) && (titleCol >=? 0) then
        GeoEnrich.join_names cbsaCodes
          (GeoEnrich.build_nameMap codeCol titleCol (snd names))
      else ∅
  | _ => ∅
  end.

Definition downloaded_zipMetro (w : world) : gmap jsstring jsstring :=
  match fetch w GeoEnrich.cbsaUrl with
  | Settled (inr data) =>
      let csv := GeoEnrich.parseCSV data in
      let zipCol := findIndex GeoEnrich.is_zip_col (fst csv) in
      let cbsaCol := findIndex GeoEnrich.is_cbsa_col (fst csv) in
      let metroCol := findIndex GeoEnrich.is_metro_col (fst csv) in
      if metroCol >=? 0 then GeoEnrich.build_zip_value zipCol metroCol (snd csv)
      else if cbsaCol >=? 0 then
        downloaded_names w (GeoEnrich.build_zip_value zipCol cbsaCol (snd csv))
      else ∅
  | _ => ∅
  end.

(** the ZIP-to-county map after the supplement for the ZIPs of the
    table [t] *)
Definition supplemented_zipGeo (zipcodes_lookup : jsstring -> option jsstring)
    (w : world) (t : list row) : gmap jsstring GeoEnrich.geo :=
  fst (GeoEnrich.npm_fill zipcodes_lookup (downloaded_zipGeo w)
         (GeoEnrich.select_distinct_zips t)).

(** a row enriched from the two maps: each of its three columns that is
    null or empty takes the value the map has for the row's ZIP, if it
    has one that is not empty; a row of which a column is filled gets
    the time of the UPDATE *)
Definition geo_enriched (zg : gmap jsstring GeoEnrich.geo)
    (zm : gmap jsstring jsstring) (t : N) (r : row) : row :=
  let geo := zg !! zip_code r in
  let metro := zm !! zip_code r in
  let fs := GeoEnrich.fill (state_abbr r) (GeoEnrich.geo_state geo) in
  let fc := GeoEnrich.fill (county_name r) (GeoEnrich.geo_county geo) in
  let fm := GeoEnrich.fill (metro_area r) metro in
  if fs || fc || fm then
    {| zip_code := zip_code r;
       state_abbr := if fs then GeoEnrich.geo_state geo else state_abbr r;
       county_name := if fc then GeoEnrich.geo_county geo else county_name r;
       metro_area := if fm then metro else metro_area r;
       updated_at := t |}
  else r.

(** the lookup maps of the metro script as the URLs of the world give
    them *)
Definition downloaded_countyFipsToMetro (w : world) : gmap jsstring jsstring :=
  match fetch w MetroEnrich.nberUrl with
  | Settled (inr data) =>
      let lines := split LF (trim data) in
      MetroEnrich.build_countyFipsToMetro
        (MetroEnrich.split_plain (hd [] lines)) lines
  | _ => ∅
  end.

Definition downloaded_countyNameToFips
    (toLowerCase toUpperCase : jsstring -> jsstring) (w : world)
    : gmap jsstring jsstring :=
  match fetch w MetroEnrich.fipsUrl with
  | Settled (inr data) =>
      let lines := split LF (trim data) in
      MetroEnrich.build_countyNameToFips toLowerCase toUpperCase
        (MetroEnrich.parseRow (hd [] lines)) lines
  | _ => ∅
  end.

(** a row enriched by the metro script: a row with a state and
    without metro area takes the metro area its county is matched to *)
Definition metro_enriched (toLowerCase : jsstring -> jsstring)
    (n2f f2m : gmap jsstring jsstring) (t : N) (r : row) : row :=
  if negb (missing (state_abbr r)) && missing (metro_area r) then
    match MetroEnrich.match_row toLowerCase n2f f2m r with
    | MetroEnrich.Matched u =>
        {| zip_code := zip_code r;
           state_abbr := state_abbr r;
           county_name := county_name r;
           metro_area := Some (MetroEnrich.u_metro u);
           updated_at := t |}
    | _ => r
    end
  else r.

(** the update the metro script derives from a row of the table: that
    of its match, when the row is selected *)
Definition selected_update (toLowerCase : jsstring -> jsstring)
    (n2f f2m : gmap jsstring jsstring) (r : row) : option MetroEnrich.update :=
  if negb (missing (state_abbr r)) && missing (metro_area r)
  then metro_row_update (MetroEnrich.match_row toLowerCase n2f f2m r)
  else None.

(** from every state whose table is [d], the computation extends the
    trace by some [t], and [Q] holds of its outcome, of [t] and of the
    table it leaves *)
Definition effects {Log Sql Db A} (d : Db) (m : M Log Sql Db A)
    (Q : outcome A -> list (event Log Sql) -> Db -> Prop) : Prop :=
  forall s, db s = d ->
    exists t, trace (snd (m s)) = trace s ++ t
              /\ Q (fst (m s)) t (db (snd (m s))).

(** the sum of the [rowCount]s of the statements of the batches, each
    counted on the table the batches before it have left *)
Fixpoint rows_counted {U Db} (cnt : list U -> Db -> Z) (F : list U -> Db -> Db)
    (bs : list (list U)) (d : Db) : Z :=
  match bs with
  | [] => 0
  | b :: bs' => cnt b d + rows_counted cnt F bs' (F b d)
  end.

(** what a live run of geo-enrich.js does last: the statements of the
    batches, each followed by its progress line, the SELECT that
    verifies, the report and the shutdown of the pool *)
Definition geo_live_output (batch : Z) (bs : list (list GeoEnrich.update))
    (progress : list GeoEnrich.logline) (before after : GeoEnrich.gaps)
    (updated : Z) : list (event GeoEnrich.logline GeoEnrich.sql) :=
  EvLog (GeoEnrich.LUpdating batch)
    :: loop_events geo_stmt bs progress
    ++ [ EvLog GeoEnrich.LNewline;
         EvQuery GeoEnrich.SelectGaps true;
         EvLog GeoEnrich.LResultsHead;
         EvLog (GeoEnrich.LTotalRecords (GeoEnrich.total after));
         EvLog (GeoEnrich.LResState (GeoEnrich.missing_state before)
                                    (GeoEnrich.missing_state after));
         EvLog (GeoEnrich.LResCounty (GeoEnrich.missing_county before)
                                     (GeoEnrich.missing_county after));
         EvLog (GeoEnrich.LResMetro (GeoEnrich.missing_metro before)
                                    (GeoEnrich.missing_metro after));
         EvLog (GeoEnrich.LDone updated);
         EvPoolEnd ].

Definition metro_live_output (bs : list (list MetroEnrich.update))
    (progress : list MetroEnrich.logline) (updates : nat) (updated : Z)
    (remaining : nat) : list (event MetroEnrich.logline MetroEnrich.sql) :=
  EvLog (MetroEnrich.LUpdating updates)
    :: loop_events metro_stmt bs progress
    ++ [ EvLog MetroEnrich.LNewline;
         EvQuery MetroEnrich.SelectMissing true;
         EvLog (MetroEnrich.LComplete updated);
         EvLog (MetroEnrich.LRemaining remaining);
         EvPoolEnd ].

End Spec.

(** ** Concrete worlds and tables, for the examples *)

Module Examples.

(** case mappings of ASCII letters, standing for the host's *)
Definition ascii_lower (s : jsstring) : jsstring := map fold_case s.
Definition ascii_upper (s : jsstring) : jsstring :=
  map (fun c => if ((97 <=? c) && (c <=? 122))%N then (c - 32)%N else c) s.

(** lines joined by line feeds *)
Definition text (lines : list jsstring) : jsstring :=
  concat (map (fun l => l ++ [LF]) lines).

Definition ok (data : jsstring) : request :=
  Response {| statusCode := 200; location := None; body := inl data |}.

Definition mkrow (zip : jsstring) (state county metro : option jsstring) : row :=
  {| zip_code := zip; state_abbr := state; county_name := county;
     metro_area := metro; updated_at := 0 |}.

(** no URL answers: every request ends in an error *)
Definition offline (args : list jsstring) : world :=
  {| argv := args;
     http_get := fun _ => RequestError (js "ENOTFOUND");
     url_resolve := fun l _ => Some l;
     query_error := fun _ => None;
     now := 1%N |}.

Definition dry_args : list jsstring :=
  [js "node"; js "script.js"; js "--dry-run"].

Definition live_args : list jsstring := [js "node"; js "script.js"].

(** the zipcodes package knows one ZIP *)
Definition zipcodes_lookup (zip : jsstring) : option jsstring :=
  if eqb zip (js "99501") then Some (js "AK") else None.

Definition geo_csv : jsstring :=
  text [ js "state_fips,state,state_abbr,zipcode,county,city";
         js "1,Alabama,AL,35004,St. Clair,Moody";
         js "6,California,CA,90001,Los Angeles,Los Angeles" ].

Definition cbsa_csv : jsstring :=
  text [ js "zip,cbsa,name"; js "90001,31080,Los Angeles Metro" ].

Definition nber_csv : jsstring :=
  text [ js "cbsacode,cbsatitle,countyfips,fipsstatecode";
         js "31080,Los Angeles Metro,037,06";
         js "10180,Abilene TX,441,48" ].

Definition fips_csv : jsstring :=
  text [ js "fips,county_name,state_abbr";
         js "6037,Los Angeles County,CA";
         js "48441,Taylor County,TX" ].

(** every URL of the two scripts answers *)
Definition online (args : list jsstring) : world :=
  {| argv := args;
     http_get := fun u =>
       if eqb u GeoEnrich.csvUrl then ok geo_csv
       else if eqb u GeoEnrich.cbsaUrl then ok cbsa_csv
       else if eqb u MetroEnrich.nberUrl then ok nber_csv
       else if eqb u MetroEnrich.fipsUrl then ok fips_csv
       else RequestError (js "ENOTFOUND");
     url_resolve := fun l _ => Some l;
     query_error := fun _ => None;
     now := 1%N |}.

Definition table : list row :=
  [ mkrow (js "35004") None None None;
    mkrow (js "90001") (Some (js "CA")) (Some (js "Los Angeles County")) None;
    mkrow (js "79601") (Some (js "TX")) (Some (js "Taylor")) None;
    mkrow (js "99501") None None None;
    mkrow (js "10001") (Some (js "NY")) (Some (js "New York County"))
          (Some (js "New York Metro")) ].

(** two rows of one ZIP: one without metro area, one with *)
Definition shared_zip_metro : list row :=
  [ mkrow (js "90001") (Some (js "CA")) (Some (js "Los Angeles County")) None;
    mkrow (js "90001") (Some (js "CA")) (Some (js "Los Angeles County"))
          (Some (js "Old Metro")) ].

(** two rows of one ZIP: one without state and county, one with
    nothing missing *)
Definition shared_zip_state : list row :=
  [ mkrow (js "35004") None None (Some (js "Birmingham"));
    mkrow (js "35004") (Some (js "XX")) (Some (js "Old County"))
          (Some (js "Old Metro")) ].

Definition batch_args : list jsstring :=
  [js "node"; js "geo-enrich.js"; js "--batch-size=2"].

Definition negative_batch_args : list jsstring :=
  [js "node"; js "geo-enrich.js"; js "--batch-size=-1"].

Definition three_updates : list GeoEnrich.update :=
  [ {| GeoEnrich.u_zip := js "35004"; GeoEnrich.u_state := Some (js "AL");
       GeoEnrich.u_county := Some (js "St. Clair County");
       GeoEnrich.u_metro := None |};
    {| GeoEnrich.u_zip := js "90001"; GeoEnrich.u_state := None;
       GeoEnrich.u_county := None;
       GeoEnrich.u_metro := Some (js "Los Angeles Metro") |};
    {| GeoEnrich.u_zip := js "99501"; GeoEnrich.u_state := Some (js "AK");
       GeoEnrich.u_county := None; GeoEnrich.u_metro := None |} ].

(** geo-enrich.js, live, when every URL answers *)
Definition geo_online_live
    : outcome unit * state GeoEnrich.logline GeoEnrich.sql (list row) :=
  GeoEnrich.script zipcodes_lookup (online live_args) 10 table.

(** the metro script, live, when every URL answers *)
Definition metro_online_live
    : outcome unit * state MetroEnrich.logline MetroEnrich.sql (list row) :=
  MetroEnrich.script ascii_lower ascii_upper (online live_args) 10 table.


(** the metro script, dry, when no URL answers *)
Definition metro_offline_dry
    : outcome unit * state MetroEnrich.logline MetroEnrich.sql (list row) :=
  MetroEnrich.script ascii_lower ascii_upper (offline dry_args) 10 table.

(** a county FIPS master and a crosswalk with the state XX, which
    [STATE_FIPS] does not have, and a row of that state *)
Definition xx_countyNameToFips : gmap jsstring jsstring :=
  let lines := [ js "fips,county_name,state_abbr"; js "99001,Foo County,XX" ] in
  MetroEnrich.build_countyNameToFips ascii_lower ascii_upper
    (MetroEnrich.parseRow (hd [] lines)) lines.

Definition xx_countyFipsToMetro : gmap jsstring jsstring :=
  let lines := [ js "cbsacode,cbsatitle,countyfips,fipsstatecode";
                 js "12345,Foo Metro,001,99" ] in
  MetroEnrich.build_countyFipsToMetro
    (MetroEnrich.split_plain (hd [] lines)) lines.

(** the first row of the county FIPS master *)
Definition al_countyNameToFips : gmap jsstring jsstring :=
  let lines := [ js "fips,county_name,state_abbr"; js "1001,Autauga County,AL" ] in
  MetroEnrich.build_countyNameToFips ascii_lower ascii_upper
    (MetroEnrich.parseRow (hd [] lines)) lines.

(** a ZIP-to-county CSV whose ZIP cell is no number *)
Definition odd_zipGeo : gmap jsstring GeoEnrich.geo :=
  GeoEnrich.build_zipGeo
    (GeoEnrich.parseRow (js "state_abbr,zipcode,county"))
    [GeoEnrich.parseRow (js "AL,N/A,Autauga")].

Definition xx_row : row :=
  mkrow (js "00001") (Some (js "XX")) (Some (js "Foo County")) None.

(** a world in which the ZIP-to-county URL is redirected twice, the
    second time by a relative Location, before it answers *)
Definition redirecting : world :=
  {| argv := live_args;
     http_get := fun u =>
       if eqb u GeoEnrich.csvUrl then
         Response {| statusCode := 301; location := Some (js "https://mirror/a");
                     body := inl [] |}
       else if eqb u (js "https://mirror/a") then
         Response {| statusCode := 302; location := Some (js "/b");
                     body := inl [] |}
       else if eqb u (js "https://mirror/b") then ok geo_csv
       else RequestError (js "ENOTFOUND");
     url_resolve := fun l _ => Some (js "https://mirror" ++ l);
     query_error := fun _ => None;
     now := 1%N |}.

End Examples.

(** * Properties *)

(** ** Rules for [spec] and [preserves] *)

Section Logic.
Import Spec.
Context {Log Sql Db : Type}.
Implicit Types (w : world) (s : state Log Sql Db).

Lemma spec_ret {A} (a : A) (Q : outcome A -> list (event Log Sql) -> Prop) :
  Q (Return a) [] -> spec (Db:=Db) (ret a) Q.
Proof. intros H s. exists []. simpl. now rewrite app_nil_r. Qed.

Lemma spec_log (l : Log) (Q : outcome unit -> list (event Log Sql) -> Prop) :
  Q (Return tt) [EvLog l] -> spec (Db:=Db) (log l) Q.
Proof. intros H s. now exists [EvLog l]. Qed.

Lemma spec_pool_end (Q : outcome unit -> list (event Log Sql) -> Prop) :
  Q (Return tt) [EvPoolEnd] -> spec (Db:=Db) pool_end Q.
Proof. intros H s. now exists [EvPoolEnd]. Qed.

Lemma spec_out_of_fuel {A} (Q : outcome A -> list (event Log Sql) -> Prop) :
  Q OutOfFuel [] -> spec (Db:=Db) out_of_fuel Q.
Proof. intros H s. exists []. simpl. now rewrite app_nil_r. Qed.

Lemma spec_download w url (Q : outcome jsstring -> list (event Log Sql) -> Prop) :
  (forall data, fetch w url = Settled (inr data) ->
                Q (Return data) [EvDownload url true]) ->
  (forall e, fetch w url = Settled (inl e) ->
             Q (Throw e) [EvDownload url false]) ->
  (forall h, fetch w url = Unsettled h -> Q (Halt h) [EvDownload url false]) ->
  spec (Db:=Db) (download w url) Q.
Proof.
  intros Hok Herr Hhalt s. unfold download.
  destruct (fetch w url) as [[e|data]|h] eqn:E; eexists; split; simpl; eauto.
Qed.

Lemma spec_pool_query {A} w q (f : Db -> A * Db)
    (Q : outcome A -> list (event Log Sql) -> Prop) :
  (forall a, Q (Return a) [EvQuery q true]) ->
  (forall msg, Q (Throw (DbError msg)) [EvQuery q false]) ->
  spec (pool_query w q f) Q.
Proof.
  intros Hok Herr s. unfold pool_query.
  destruct (query_error w (sent s)) as [msg|].
  - eexists; split; simpl; eauto.
  - destruct (f (db s)) as [a d]. eexists; split; simpl; eauto.
Qed.

(** when the server rejects nothing, a statement returns *)
Lemma spec_pool_query_ok {A} w q (f : Db -> A * Db)
    (Q : outcome A -> list (event Log Sql) -> Prop) :
  (forall n, query_error w n = None) ->
  (forall a, Q (Return a) [EvQuery q true]) ->
  spec (pool_query w q f) Q.
Proof.
  intros Hw Hok s. unfold pool_query. rewrite Hw.
  destruct (f (db s)) as [a d]. eexists; split; simpl; eauto.
Qed.

Lemma spec_bind {A B} (m : M Log Sql Db A) (k : A -> M Log Sql Db B) Q :
  spec m (fun r t1 =>
            match r with
            | Return a => spec (k a) (fun r2 t2 => Q r2 (t1 ++ t2))
            | Throw e => Q (Throw e) t1
            | OutOfFuel => Q OutOfFuel t1
            | Halt h => Q (Halt h) t1
            end) ->
  spec (bind m k) Q.
Proof.
  intros H s. destruct (H s) as (t1 & Ht & HQ). unfold bind.
  destruct (m s) as [[a|e| |hl] s1]; simpl in *; eauto.
  destruct (HQ s1) as (t2 & Ht2 & HQ2).
  exists (t1 ++ t2). rewrite Ht2, Ht, app_assoc. auto.
Qed.

Lemma spec_try_catch {A} (m : M Log Sql Db A) (h : exn -> M Log Sql Db A) Q :
  spec m (fun r t1 =>
            match r with
            | Return a => Q (Return a) t1
            | Throw e => spec (h e) (fun r2 t2 => Q r2 (t1 ++ t2))
            | OutOfFuel => Q OutOfFuel t1
            | Halt h => Q (Halt h) t1
            end) ->
  spec (try_catch m h) Q.
Proof.
  intros H s. destruct (H s) as (t1 & Ht & HQ). unfold try_catch.
  destruct (m s) as [[a|e| |hl] s1]; simpl in *; eauto.
  destruct (HQ s1) as (t2 & Ht2 & HQ2).
  exists (t1 ++ t2). rewrite Ht2, Ht, app_assoc. auto.
Qed.

Lemma spec_conseq {A} (m : M Log Sql Db A) (Q Q' : outcome A -> _ -> Prop) :
  spec m Q -> (forall r t, Q r t -> Q' r t) -> spec m Q'.
Proof. intros H HQ s. destruct (H s) as (t & Ht & Hq). eauto. Qed.

(** the trace a computation adds is one: two specifications hold
    together *)
Lemma spec_and {A} (m : M Log Sql Db A) (Q1 Q2 : outcome A -> _ -> Prop) :
  spec m Q1 -> spec m Q2 -> spec m (fun r t => Q1 r t /\ Q2 r t).
Proof.
  intros H1 H2 s. destruct (H1 s) as (t1 & E1 & K1).
  destruct (H2 s) as (t2 & E2 & K2).
  rewrite E1 in E2. apply app_inv_head in E2. subst t2. eauto.
Qed.

(** a loop that only writes to the console *)
Lemma spec_for_each_log {A} (l : list A) (f : A -> Log)
    (Q : outcome unit -> list (event Log Sql) -> Prop) :
  Q (Return tt) (map (fun x => EvLog (f x)) l) ->
  spec (Db:=Db) (for_each l (fun x => log (f x))) Q.
Proof.
  revert Q. induction l as [|x l IH]; intros Q H; simpl.
  - now apply spec_ret.
  - apply spec_bind, spec_log. simpl. apply IH. exact H.
Qed.

Lemma preserves_ret {A} (I : state Log Sql Db -> Prop) (a : A) :
  preserves I (ret a).
Proof. now intros s. Qed.

Lemma preserves_bind {A B} I (m : M Log Sql Db A) (k : A -> M Log Sql Db B) :
  preserves I m -> (forall a, preserves I (k a)) -> preserves I (bind m k).
Proof.
  intros Hm Hk s Hs. unfold bind. specialize (Hm s Hs).
  destruct (m s) as [[a|e| |hl] s1]; simpl in *; auto. now apply Hk.
Qed.

Lemma preserves_try_catch {A} I (m : M Log Sql Db A) h :
  preserves I m -> (forall e, preserves I (h e)) -> preserves I (try_catch m h).
Proof.
  intros Hm Hh s Hs. unfold try_catch. specialize (Hm s Hs).
  destruct (m s) as [[a|e| |hl] s1]; simpl in *; auto. now apply Hh.
Qed.

Lemma preserves_for_each {A} I (l : list A) (body : A -> M Log Sql Db unit) :
  (forall x, preserves I (body x)) -> preserves I (for_each l body).
Proof.
  intros H. induction l; simpl.
  - apply preserves_ret.
  - apply preserves_bind; auto.
Qed.

Lemma preserves_for_batches {U} I (P : list U -> Prop) fuel step (l : list U)
    (body : Z -> list U -> Z -> M Log Sql Db Z) :
  (forall a b, P (slice l a b)) ->
  (forall i b acc, P b -> preserves I (body i b acc)) ->
  forall i acc, preserves I (for_batches fuel step l body i acc).
Proof.
  intros HP Hb. induction fuel as [|fuel IH]; intros i acc; simpl;
    destruct (i <? Z.of_nat (length l)); try apply preserves_ret.
  - now intros s.
  - apply preserves_bind; auto.
Qed.
End Logic.

(** ** The CSV row parser *)

Section ParseRow.
Import Spec.

Lemma trimStart_suffix s : exists p, s = p ++ trimStart s.
Proof.
  induction s as [|c s [p Hp]]; simpl.
  - now exists [].
  - destruct (isWhiteSpace c).
    + exists (c :: p). simpl. now f_equal.
    + now exists [].
Qed.

Lemma trimStart_head s c s' :
  trimStart s = c :: s' -> isWhiteSpace c = false.
Proof.
  induction s as [|d s IH]; simpl; [discriminate|].
  destruct (isWhiteSpace d) eqn:E; [exact IH|].
  intros [= -> _]. exact E.
Qed.

Lemma trimStart_fixed s :
  match s with c :: _ => isWhiteSpace c = false | [] => True end ->
  trimStart s = s.
Proof. destruct s as [|c s]; simpl; [easy|]. now intros ->. Qed.

Lemma trimStart_idem s : trimStart (trimStart s) = trimStart s.
Proof.
  apply trimStart_fixed.
  destruct (trimStart s) as [|c s'] eqn:E; [easy|].
  eapply trimStart_head; eauto.
Qed.

Lemma trimEnd_idem s : trimEnd (trimEnd s) = trimEnd s.
Proof. unfold trimEnd. now rewrite rev_involutive, trimStart_idem. Qed.

Lemma trimEnd_prefix s : exists p, s = trimEnd s ++ p.
Proof.
  unfold trimEnd. destruct (trimStart_suffix (rev s)) as [p Hp].
  exists (rev p). rewrite <- rev_app_distr, <- Hp. now rewrite rev_involutive.
Qed.

(** trimming the end keeps a first code unit that is no white space *)
Lemma trimStart_trimEnd s :
  trimStart s = s -> trimStart (trimEnd s) = trimEnd s.
Proof.
  intros Hs. apply trimStart_fixed.
  destruct (trimEnd s) as [|c u] eqn:E; [easy|].
  destruct (trimEnd_prefix s) as [p Hp]. rewrite E in Hp.
  rewrite Hp in Hs. simpl in Hs.
  destruct (isWhiteSpace c) eqn:W; [|easy].
  exfalso.
  destruct (trimStart_suffix (u ++ p)) as [p' Hp'].
  rewrite Hs in Hp'. apply (f_equal (@length N)) in Hp'.
  rewrite (length_app p') in Hp'. simpl in Hp'. lia.
Qed.

Lemma trim_idem s : trim (trim s) = trim s.
Proof.
  unfold trim.
  rewrite (trimStart_trimEnd (trimStart s)) by apply trimStart_idem.
  apply trimEnd_idem.
Qed.

Lemma Forall_trimStart (P : N -> Prop) s :
  Forall P s -> Forall P (trimStart s).
Proof.
  destruct (trimStart_suffix s) as [p Hp]. intros H.
  rewrite Hp in H. now apply Forall_app in H.
Qed.

Lemma Forall_trim (P : N -> Prop) s : Forall P s -> Forall P (trim s).
Proof.
  intros H. unfold trim, trimEnd.
  apply Forall_rev, Forall_trimStart, Forall_rev, Forall_trimStart, H.
Qed.

Lemma split_unquoted_length q s :
  length (split_unquoted q s) = S (unquoted_commas q s).
Proof.
  revert q. induction s as [|c s IH]; intros q; simpl; [easy|].
  destruct (c =? QUOTE)%N.
  - specialize (IH (negb q)).
    destruct (split_unquoted (negb q) s); simpl in *; lia.
  - destruct ((c =? COMMA)%N && negb q); simpl.
    + now rewrite IH.
    + specialize (IH q). destruct (split_unquoted q s); simpl in *; lia.
Qed.

(** the loop of [parseRow], from any state of the loop *)
Lemma parse_loop s : forall st,
  GeoEnrich.parse_finish (fold_left GeoEnrich.parse_step s st) =
  GeoEnrich.fields st ++
    match split_unquoted (GeoEnrich.inQuote st) s with
    | f :: fs =>
        trim (GeoEnrich.current st ++ unquote f)
          :: map (fun f => trim (unquote f)) fs
    | [] => []
    end.
Proof.
  induction s as [|c s IH]; intros [fs cur q]; simpl.
  - unfold GeoEnrich.parse_finish. simpl. now rewrite app_nil_r.
  - unfold GeoEnrich.parse_step at 2. simpl.
    pose proof (split_unquoted_length q s) as Lq.
    pose proof (split_unquoted_length (negb q) s) as Lnq.
    destruct (c =? QUOTE)%N eqn:EQ.
    + rewrite IH. simpl.
      destruct (split_unquoted (negb q) s) as [|f l]; [discriminate|].
      simpl. unfold unquote at 2. simpl. now rewrite EQ.
    + destruct ((c =? COMMA)%N && negb q) eqn:EC.
      * rewrite IH. simpl.
        destruct (split_unquoted q s) as [|f l]; [discriminate|].
        simpl. rewrite app_nil_r, <- app_assoc. reflexivity.
      * destruct (c =? CR)%N eqn:ER.
        -- rewrite IH. simpl.
           destruct (split_unquoted q s) as [|f l]; [discriminate|].
           simpl. unfold unquote at 2. simpl. now rewrite EQ, ER.
        -- rewrite IH. simpl.
           destruct (split_unquoted q s) as [|f l]; [discriminate|].
           simpl. unfold unquote at 2. simpl. rewrite EQ, ER. simpl.
           now rewrite <- app_assoc.
Qed.

Lemma parseRow_split line :
  GeoEnrich.parseRow line =
  map (fun f => trim (unquote f)) (split_unquoted false line).
Proof.
  unfold GeoEnrich.parseRow. rewrite parse_loop. simpl.
  pose proof (split_unquoted_length false line).
  destruct (split_unquoted false line); [discriminate|reflexivity].
Qed.

Lemma surrogate_plain c :
  MetroEnrich.is_high c = true \/ MetroEnrich.is_low c = true ->
  (c =? QUOTE)%N = false /\ (c =? COMMA)%N = false /\ (c =? CR)%N = false.
Proof.
  unfold MetroEnrich.is_high, MetroEnrich.is_low, QUOTE, COMMA, CR.
  intros H. repeat split; apply N.eqb_neq; intros ->; now destruct H.
Qed.

Lemma parse_step_unit st c :
  MetroEnrich.parse_step st [c] = GeoEnrich.parse_step st c.
Proof.
  unfold MetroEnrich.parse_step, GeoEnrich.parse_step, eqb.
  assert (E : forall d : N, bool_decide ([c] = [d]) = (c =? d)%N).
  { intros d. destruct (N.eqb_spec c d) as [->|Hn].
    - now apply bool_decide_eq_true.
    - apply bool_decide_eq_false. congruence. }
  now rewrite !E.
Qed.

Lemma parse_step_pair st c d :
  MetroEnrich.is_high c = true -> MetroEnrich.is_low d = true ->
  MetroEnrich.parse_step st [c; d] =
  GeoEnrich.parse_step (GeoEnrich.parse_step st c) d.
Proof.
  intros Hc Hd.
  destruct (surrogate_plain c (or_introl Hc)) as (C1 & C2 & C3).
  destruct (surrogate_plain d (or_intror Hd)) as (D1 & D2 & D3).
  unfold MetroEnrich.parse_step, GeoEnrich.parse_step, eqb.
  rewrite C1, C2, C3. simpl. rewrite D1, D2, D3. simpl.
  rewrite !bool_decide_eq_false_2 by discriminate. simpl.
  now rewrite <- app_assoc.
Qed.

(** walking the code points and walking the code units parse alike *)
Lemma parse_codePoints n : forall s st, (length s <= n)%nat ->
  fold_left MetroEnrich.parse_step (MetroEnrich.codePoints s) st =
  fold_left GeoEnrich.parse_step s st.
Proof.
  induction n as [|n IH]; intros [|c [|d s]] st Hn; simpl in *;
    try reflexivity; try lia.
  - now rewrite parse_step_unit.
  - destruct (MetroEnrich.is_high c && MetroEnrich.is_low d) eqn:E; simpl.
    + apply andb_true_iff in E as [Hc Hd].
      rewrite parse_step_pair by assumption. apply IH. lia.
    + rewrite parse_step_unit.
      change (fold_left GeoEnrich.parse_step s
                (GeoEnrich.parse_step (GeoEnrich.parse_step st c) d))
        with (fold_left GeoEnrich.parse_step (d :: s)
                (GeoEnrich.parse_step st c)).
      apply (IH (d :: s)). simpl. lia.
Qed.

Lemma parseRow_same line :
  MetroEnrich.parseRow line = GeoEnrich.parseRow line.
Proof.
  unfold MetroEnrich.parseRow, GeoEnrich.parseRow.
  now rewrite (parse_codePoints (length line)).
Qed.

Lemma unquote_clean f :
  Forall (fun c => c <> QUOTE /\ c <> CR) (unquote f).
Proof.
  unfold unquote. apply Forall_forall. intros c Hc.
  apply list_elem_of_In, filter_In in Hc as [_ Hc].
  apply andb_true_iff in Hc as [H1 H2].
  apply negb_true_iff in H1, H2. now rewrite N.eqb_neq in H1, H2.
Qed.

(** C9.  Both row parsers (the one of [parseCSV] in geo-enrich.js and
    the one of the metro script) are the same total function.  On
    every line the fields are the pieces of the line between the
    commas that are outside double quotes, each without its double
    quotes and carriage returns and then trimmed: a quoted comma does
    not split, no field holds a double quote or a carriage return,
    every field is trimmed, and there is one field more than there are
    unquoted commas, so at least one. *)
Theorem parseRow_quote_aware (line : jsstring) :
  MetroEnrich.parseRow line = GeoEnrich.parseRow line
  /\ GeoEnrich.parseRow line =
     map (fun f => trim (unquote f)) (split_unquoted false line)
  /\ length (GeoEnrich.parseRow line) = S (unquoted_commas false line)
  /\ Forall (fun f => Forall (fun c => c <> QUOTE /\ c <> CR) f
                      /\ trim f = f) (GeoEnrich.parseRow line).
Proof.
  split; [apply parseRow_same|].
  split; [apply parseRow_split|].
  rewrite parseRow_split. split.
  - now rewrite length_map, split_unquoted_length.
  - apply Forall_map, Forall_forall. intros f _. split.
    + apply Forall_trim, unquote_clean.
    + apply trim_idem.
Qed.
End ParseRow.

(** ** Dry runs *)

Section Untouched.
Import Spec.
Context {Log Sql Db : Type}.
Variable upd : Sql -> bool.
Variable d0 : Db.

Lemma untouched_emit (e : event Log Sql) (s : state Log Sql Db) :
  match e with EvQuery q _ => upd q = false | _ => True end ->
  untouched upd d0 s -> untouched upd d0 (emit e s).
Proof.
  intros He [Hd Ht]. split; [exact Hd|]. simpl.
  apply Forall_app; split; [exact Ht|]. now constructor.
Qed.

Lemma untouched_log (l : Log) :
  preserves (untouched upd d0) (log l : M Log Sql Db unit).
Proof. intros s. now apply untouched_emit. Qed.

Lemma untouched_pool_end :
  preserves (untouched upd d0) (pool_end : M Log Sql Db unit).
Proof. intros s. now apply untouched_emit. Qed.

Lemma untouched_download w url :
  preserves (untouched upd d0) (download w url : M Log Sql Db jsstring).
Proof.
  intros s. unfold download.
  destruct (fetch w url) as [[e|data]|h]; now apply untouched_emit.
Qed.

(** a statement that is no update and leaves the table as it is *)
Lemma untouched_select {A} w q (f : Db -> A) :
  upd q = false ->
  preserves (untouched upd d0)
            (pool_query (Log:=Log) w q (fun t => (f t, t))).
Proof.
  intros Hq s [Hd Ht]. unfold pool_query.
  destruct (query_error w (sent s)); (split; [exact Hd|]); simpl;
    (apply Forall_app; split; [exact Ht|]); now constructor.
Qed.

Lemma untouched_run_main fatal (main : M Log Sql Db unit) :
  preserves (untouched upd d0) main ->
  untouched upd d0 (snd (run_main fatal main d0)).
Proof.
  intros H. unfold run_main.
  assert (H0 : untouched upd d0
                 ({| db := d0; trace := []; sent := 0 |} : state Log Sql Db))
    by (split; [reflexivity|simpl; constructor]).
  specialize (H _ H0).
  destruct (main _) as [[a|e| |hl] s]; simpl in *; auto.
  now repeat apply untouched_emit.
Qed.
End Untouched.

(** unfolds the monad notations and applies the rules *)
Ltac untouched_auto :=
  unfold mbind, M_bind, mret, M_ret;
  repeat first
    [ apply preserves_ret | apply untouched_log | apply untouched_pool_end
    | apply untouched_download | apply untouched_select; reflexivity
    | apply preserves_bind; [|intros ?]
    | apply preserves_try_catch; [|intros ?]
    | apply preserves_for_each; intros ?
    | match goal with |- Spec.preserves _ (if ?b then _ else _) => destruct b end
    | match goal with |- Spec.preserves _ (let _ := _ in _) => cbv zeta end ].

Section GeoDryRun.
Import Spec GeoEnrich.
Variable zipcodes_lookup : jsstring -> option jsstring.
Variable w : world.

Lemma geo_prefix_untouched d0 :
  preserves (untouched geo_is_update d0) (step_zipGeo w)
  /\ preserves (untouched geo_is_update d0) (step_zipMetro w).
Proof. unfold step_zipGeo, step_zipMetro, step_names. split; untouched_auto. Qed.

Lemma geo_dry_untouched d0 fuel :
  DRY_RUN w = true ->
  preserves (untouched geo_is_update d0) (main zipcodes_lookup w fuel).
Proof.
  intros Hdry. unfold main. rewrite Hdry. unfold dry_run.
  destruct (geo_prefix_untouched d0) as [H1 H2].
  untouched_auto; auto.
Qed.
End GeoDryRun.

(** ** Batches *)

Section Batches.
Import Spec.
Context {U : Type}.

Lemma chunks_concat n : (0 < n)%nat -> forall fuel (l : list U),
  (length l <= fuel)%nat -> concat (chunks fuel n l) = l.
Proof.
  intros Hn. induction fuel as [|fuel IH]; intros l Hl.
  - destruct l; [reflexivity|simpl in Hl; lia].
  - destruct l as [|x l]; [reflexivity|].
    cbn [chunks concat]. rewrite IH.
    + apply firstn_skipn.
    + rewrite length_skipn. simpl in *. lia.
Qed.


(** every batch but the last is full *)
Lemma chunks_full n : (0 < n)%nat -> forall fuel (l : list U) b bs' b' bs,
  chunks fuel n l = bs ++ b :: b' :: bs' -> length b = n.
Proof.
  intros Hn. induction fuel as [|fuel IH]; intros l b bs' b' bs H.
  - destruct bs; discriminate.
  - destruct l as [|x l]; [destruct bs; discriminate|].
    cbn [chunks] in H. destruct bs as [|b0 bs].
    + simpl in H. injection H as Hb Hrest. subst b.
      destruct fuel as [|fuel]; [discriminate|].
      destruct (skipn n (x :: l)) as [|y r] eqn:E; [discriminate|].
      apply (f_equal (@length U)) in E. rewrite length_skipn in E.
      rewrite length_firstn. simpl in *. lia.
    + simpl in H. injection H as _ Hrest. eapply IH; eauto.
Qed.

Lemma slice_chunk (l : list U) (i step : Z) :
  0 <= i < Z.of_nat (length l) -> 0 < step ->
  slice l i (i + step) = firstn (Z.to_nat step) (skipn (Z.to_nat i) l).
Proof.
  intros Hi Hs. unfold slice, clamp_index.
  destruct (Z.ltb_spec i 0); [lia|].
  destruct (Z.ltb_spec (i + step) 0); [lia|].
  rewrite (Z.min_l i) by lia.
  destruct (Z.le_ge_cases (i + step) (Z.of_nat (length l))) as [Hle|Hge].
  - rewrite Z.min_l by lia. f_equal. lia.
  - rewrite Z.min_r by lia.
    rewrite (firstn_all2 (n := Z.to_nat step)), firstn_all2;
      auto; rewrite length_skipn; lia.
Qed.

Lemma slice_0 (l : list U) (n : Z) : 0 <= n -> slice l 0 n = firstn (Z.to_nat n) l.
Proof.
  intros Hn. unfold slice, clamp_index.
  destruct (Z.ltb_spec n 0); [lia|].
  change (0 <? 0) with false. cbv iota.
  replace (Z.min 0 (Z.of_nat (length l))) with 0 by lia.
  rewrite Z.sub_0_r. cbn [Z.to_nat skipn].
  destruct (Z.le_ge_cases n (Z.of_nat (length l))).
  - now rewrite Z.min_l by lia.
  - rewrite Z.min_r by lia. rewrite Nat2Z.id.
    rewrite firstn_all, firstn_all2; auto. lia.
Qed.

Lemma slice_incl (l : list U) a b x : x ∈ slice l a b -> x ∈ l.
Proof.
  unfold slice. intros H.
  apply (subseteq_drop (Z.to_nat (clamp_index (Z.of_nat (length l)) a))).
  eapply subseteq_take. exact H.
Qed.
End Batches.

(** ** The loop over the batches *)

Section Projections.
Import Spec.
Context {Log Sql : Type}.
Implicit Types t : list (event Log Sql).

Lemma queries_app t1 t2 : queries (t1 ++ t2) = queries t1 ++ queries t2.
Proof.
  induction t1 as [|[] t1 IH]; simpl; auto. now rewrite IH.
Qed.

Lemma downloads_app t1 t2 :
  downloads (t1 ++ t2) = downloads t1 ++ downloads t2.
Proof.
  induction t1 as [|[] t1 IH]; simpl; auto. now rewrite IH.
Qed.
End Projections.

Section Loop.
Import Spec.
Context {Log Sql Db U : Type}.
Variable stmt : list U -> Sql.
Variable body : Z -> list U -> Z -> M Log Sql Db Z.
Variable l : list U.
Variable step : Z.

Lemma for_batches_trace :
  (forall i b acc, spec (body i b acc) (turn_post stmt b)) ->
  forall fuel i acc,
    spec (for_batches fuel step l body i acc) (loop_trace stmt).
Proof.
  intros Hb. induction fuel as [|fuel IH]; intros i acc; simpl;
    destruct (i <? Z.of_nat (length l)).
  - apply spec_out_of_fuel. constructor.
  - apply spec_ret. constructor.
  - apply spec_bind. eapply spec_conseq; [apply Hb|].
    intros r t [(acc' & lg & -> & ->)|(msg & -> & ->)].
    + eapply spec_conseq; [apply IH|].
      intros r t H. simpl. now constructor.
    + constructor.
  - apply spec_ret. constructor.
Qed.

(** With a positive step, fuel for every row, and no statement
    rejected, the loop returns and its statements are those of the
    consecutive slices, in order. *)
Lemma for_batches_chunks :
  (forall i b acc,
      spec (body i b acc)
           (fun r t => exists acc' lg,
                r = Return acc' /\ t = [EvQuery (stmt b) true; EvLog lg])) ->
  0 < step ->
  forall fuel i acc,
    0 <= i -> (length (skipn (Z.to_nat i) l) <= fuel)%nat ->
    spec (for_batches fuel step l body i acc)
         (fun r t =>
            (exists acc', r = Return acc')
            /\ exists lgs,
                let bs := chunks fuel (Z.to_nat step) (skipn (Z.to_nat i) l) in
                length lgs = length bs /\ t = loop_events stmt bs lgs).
Proof.
  intros Hb Hs. induction fuel as [|fuel IH]; intros i acc Hi Hf.
  - assert (E : skipn (Z.to_nat i) l = [])
      by (destruct (skipn _ l); [easy|simpl in Hf; lia]).
    rewrite E. apply (f_equal (@length U)) in E. rewrite length_skipn in E.
    simpl in *. destruct (Z.ltb_spec i (Z.of_nat (length l))); [lia|].
    apply spec_ret. split; [eauto|]. now exists [].
  - cbn [for_batches].
    destruct (Z.ltb_spec i (Z.of_nat (length l))) as [Hlt|Hge].
    + destruct (skipn (Z.to_nat i) l) as [|x r] eqn:E.
      { apply (f_equal (@length U)) in E. rewrite length_skipn in E.
        simpl in E. lia. }
      cbn [chunks]. rewrite <- E.
      apply spec_bind. eapply spec_conseq; [apply Hb|].
      intros r0 t (acc' & lg & -> & ->).
      eapply spec_conseq; [apply (IH (i + step) acc')|]; try lia.
      * rewrite length_skipn. simpl in Hf.
        apply (f_equal (@length U)) in E. rewrite length_skipn in E.
        simpl in E. lia.
      * intros r1 t1 (Hr & lgs & Hl & ->). split; [exact Hr|].
        exists (lg :: lgs). cbn zeta in *.
        rewrite slice_chunk by lia.
        rewrite skipn_skipn, Nat.add_comm, <- Z2Nat.inj_add by lia.
        split; [simpl; now rewrite Hl|reflexivity].
    + assert (E : skipn (Z.to_nat i) l = []).
      { apply skipn_all2. lia. }
      rewrite E. apply spec_ret. split; [eauto|]. now exists [].
Qed.
End Loop.

(** One step of a symbolic run: the rule of the outermost construct. *)
Ltac wp_step query_rule :=
  lazymatch goal with
  | |- Spec.spec (mbind _ _) _ => apply spec_bind
  | |- Spec.spec (Run.bind _ _) _ => apply spec_bind
  | |- Spec.spec (Run.try_catch _ _) _ => apply spec_try_catch
  | |- Spec.spec (Run.log _) _ => apply spec_log
  | |- Spec.spec (mret _) _ => apply spec_ret
  | |- Spec.spec (Run.ret _) _ => apply spec_ret
  | |- Spec.spec Run.pool_end _ => apply spec_pool_end
  | |- Spec.spec Run.out_of_fuel _ => apply spec_out_of_fuel
  | |- Spec.spec (Run.download _ _) _ =>
      apply spec_download; [intros ? ?|intros ? ?|intros ? ?]
  | |- Spec.spec (Run.pool_query _ _ _) _ => query_rule
  | |- Spec.spec (Run.for_each _ _) _ => apply spec_for_each_log
  | |- Spec.spec (if ?b then _ else _) _ => destruct b eqn:?
  end; cbn beta iota zeta delta [app].

(** closes a path on which a download that settles does not *)
Ltac settled_path :=
  match goal with
  | H : fetch ?w ?u = Unsettled _, S : Spec.settles ?w ?u |- _ =>
      let S' := fresh in
      exfalso; pose proof S as [? S']; rewrite S' in H; discriminate H
  end.

(** every statement may be rejected *)
Ltac wp := repeat wp_step ltac:(apply spec_pool_query; [intros ?|intros ?]).

(** no statement is rejected, by [H] *)
Ltac wp_ok H := repeat wp_step ltac:(apply (spec_pool_query_ok _ _ _ _ H); intros ?).

Section BatchedUpdates.
Import Spec.

Lemma chunks_enough {U} n : (0 < n)%nat -> forall fuel fuel' (l : list U),
  (length l <= fuel)%nat -> (length l <= fuel')%nat ->
  chunks fuel n l = chunks fuel' n l.
Proof.
  intros Hn. induction fuel as [|fuel IH]; intros fuel' l H H'.
  - destruct l; [|simpl in H; lia]. now destruct fuel'.
  - destruct l as [|x l]; [now destruct fuel'|].
    destruct fuel' as [|fuel']; [simpl in H'; lia|].
    cbn [chunks]. f_equal. apply IH; rewrite length_skipn; simpl in *; lia.
Qed.

Lemma unnest4_maps (b : list GeoEnrich.update) :
  GeoEnrich.unnest4 (map GeoEnrich.u_zip b) (map GeoEnrich.u_state b)
    (map GeoEnrich.u_county b) (map GeoEnrich.u_metro b) = b.
Proof. induction b as [|[] b IH]; simpl; [reflexivity|now rewrite IH]. Qed.

Lemma unnest2_maps (b : list MetroEnrich.update) :
  MetroEnrich.unnest2 (map MetroEnrich.u_zip b) (map MetroEnrich.u_metro b) = b.
Proof. induction b as [|[] b IH]; simpl; [reflexivity|now rewrite IH]. Qed.





Variable w : world.
Hypothesis no_reject : forall n, query_error w n = None.

Lemma geo_turn_ok updates i b acc :
  spec (GeoEnrich.batch_body w updates i b acc)
       (fun r t => exists acc' lg,
            r = Return acc' /\ t = [EvQuery (geo_stmt b) true; EvLog lg]).
Proof. unfold GeoEnrich.batch_body. wp_ok no_reject. eauto. Qed.

Lemma metro_turn_ok updates i b acc :
  spec (MetroEnrich.batch_body w updates i b acc)
       (fun r t => exists acc' lg,
            r = Return acc' /\ t = [EvQuery (metro_stmt b) true; EvLog lg]).
Proof. unfold MetroEnrich.batch_body. wp_ok no_reject. eauto. Qed.


End BatchedUpdates.

(** ** No value is overwritten *)

Section Keeps.
Import Spec.

Lemma keeps_refl t : keeps t t.
Proof. apply Forall2_same_length_lookup_2; [reflexivity|].
       intros i x y Hx Hy. rewrite Hx in Hy. injection Hy as <-.
       now repeat split. Qed.

Lemma keeps_zips t0 t : keeps t0 t -> map zip_code t = map zip_code t0.
Proof.
  induction 1 as [|r0 r l0 l (Hz & _) _ IH]; simpl; [reflexivity|].
  now rewrite Hz, IH.
Qed.

Lemma NoDup_map_eq {A B} (f : A -> B) (l : list A) x y :
  NoDup (map f l) -> x ∈ l -> y ∈ l -> f x = f y -> x = y.
Proof.
  induction l as [|a l IH]; intros Hn Hx Hy Hf; [now inversion Hx|].
  simpl in Hn. apply NoDup_cons in Hn as [Ha Hn].
  apply elem_of_cons in Hx as [->|Hx]; apply elem_of_cons in Hy as [->|Hy];
    auto.
  - exfalso. apply Ha. rewrite Hf. now apply list_elem_of_fmap_2.
  - exfalso. apply Ha. rewrite <- Hf. now apply list_elem_of_fmap_2.
Qed.

(** the row of the original table that a row of the table stands for *)
Lemma keeps_origin t0 t r :
  keeps t0 t -> r ∈ t -> exists r0, r0 ∈ t0 /\ row_kept r0 r.
Proof.
  induction 1 as [|r0 r' l0 l Hr _ IH]; intros Hin; [now inversion Hin|].
  apply elem_of_cons in Hin as [->|Hin].
  - exists r0. split; [left|exact Hr].
  - destruct (IH Hin) as (r1 & H1 & H2). exists r1. split; [now right|exact H2].
Qed.

(** rows that satisfy [P] may be rewritten by a function under which
    they are kept *)
Lemma keeps_map (P : row -> Prop) (f : row -> row) t0 t :
  (forall r0 r, P r0 -> row_kept r0 r -> row_kept r0 (f r)) ->
  Forall P t0 -> keeps t0 t -> keeps t0 (map f t).
Proof.
  intros Hf HP H. induction H as [|r0 r l0 l Hr _ IH]; simpl; [constructor|].
  inversion HP; subst. constructor; auto. now apply IH.
Qed.

Lemma find_zip_geo vs h v :
  List.find (fun v => eqb (zip_code h) (GeoEnrich.u_zip v)) vs = Some v ->
  v ∈ vs /\ GeoEnrich.u_zip v = zip_code h.
Proof.
  intros H. apply find_some in H as [Hin Hz].
  split; [now apply list_elem_of_In|].
  unfold eqb in Hz. now apply bool_decide_eq_true in Hz.
Qed.

Lemma find_zip_metro vs h v :
  List.find (fun v => eqb (zip_code h) (MetroEnrich.u_zip v)) vs = Some v ->
  v ∈ vs /\ MetroEnrich.u_zip v = zip_code h.
Proof.
  intros H. apply find_some in H as [Hin Hz].
  split; [now apply list_elem_of_In|].
  unfold eqb in Hz. now apply bool_decide_eq_true in Hz.
Qed.

Lemma coalesce_kept (v old old0 : option jsstring) :
  (is_Some v -> missing old0 = true) ->
  (missing old0 = false -> old = old0) ->
  missing old0 = false -> coalesce v old = old0.
Proof.
  intros Hv Ho Hm. destruct v as [x|]; simpl; [|auto].
  rewrite Hv in Hm by eauto. discriminate.
Qed.

(** COALESCE: a null update field leaves the column as it is *)
Lemma coalesce_null old : coalesce None old = old.
Proof. reflexivity. Qed.

Lemma geo_update_kept now vs r0 r :
  (forall v, v ∈ vs -> GeoEnrich.u_zip v = zip_code r0 -> geo_fills_gaps r0 v) ->
  row_kept r0 r -> row_kept r0 (GeoEnrich.update_row now vs r).
Proof.
  intros Hs (Hz & H1 & H2 & H3). unfold GeoEnrich.update_row.
  destruct (List.find _ vs) as [v|] eqn:E; [|now repeat split].
  apply find_zip_geo in E as [Hin Hv]. rewrite Hz in Hv.
  destruct (Hs v Hin Hv) as (S1 & S2 & S3).
  repeat split; simpl; auto using coalesce_kept.
Qed.

Lemma metro_update_kept now vs r0 r :
  (forall v, v ∈ vs -> MetroEnrich.u_zip v = zip_code r0 ->
             missing (metro_area r0) = true) ->
  row_kept r0 r -> row_kept r0 (MetroEnrich.update_row now vs r).
Proof.
  intros Hs (Hz & H1 & H2 & H3). unfold MetroEnrich.update_row.
  destruct (List.find _ vs) as [v|] eqn:E; [|now repeat split].
  apply find_zip_metro in E as [Hin Hv]. rewrite Hz in Hv.
  specialize (Hs v Hin Hv).
  repeat split; simpl; auto. intros Hm. rewrite Hs in Hm. discriminate.
Qed.

(** *** The update lists, row by row *)

Lemma geo_update_step zg zm ups st r :
  fst (GeoEnrich.update_step zg zm (ups, st) r)
  = ups ++ from_option (fun u => [u]) [] (geo_row_update zg zm r).
Proof.
  unfold GeoEnrich.update_step, geo_row_update.
  destruct (zg !! zip_code r) as [g|] eqn:Eg; simpl.
  - destruct (_ || _ || _); simpl; [reflexivity|now rewrite app_nil_r].
  - unfold GeoEnrich.fill. simpl.
    destruct (missing (state_abbr r)), (missing (county_name r)),
      (missing (metro_area r)), (truthy_opt (zm !! zip_code r)); simpl;
      rewrite ?app_nil_r; reflexivity.
Qed.

Lemma geo_updates_omap zg zm rows :
  fst (GeoEnrich.build_updates zg zm rows) = omap (geo_row_update zg zm) rows.
Proof.
  unfold GeoEnrich.build_updates.
  enough (H : forall acc,
             fst (fold_left (GeoEnrich.update_step zg zm) rows acc)
             = fst acc ++ omap (geo_row_update zg zm) rows) by apply H.
  induction rows as [|r rows IH]; intros [ups st]; cbn [fold_left].
  - simpl. now rewrite app_nil_r.
  - rewrite IH, geo_update_step. rewrite <- app_assoc. f_equal.
    simpl. now destruct (geo_row_update zg zm r).
Qed.

Lemma geo_row_update_fills zg zm r u :
  geo_row_update zg zm r = Some u ->
  GeoEnrich.u_zip u = zip_code r /\ geo_fills_gaps r u.
Proof.
  unfold geo_row_update, GeoEnrich.fill.
  destruct (_ || _ || _); [|discriminate]. intros [= <-]. simpl.
  split; [reflexivity|]. repeat split; intros [x Hx]; simpl in Hx;
    match type of Hx with
    | (if ?b then _ else _) = _ => destruct b eqn:E; [|discriminate]
    end; now apply andb_true_iff in E as [E _].
Qed.

Lemma metro_updates_omap lower n2f f2m rows :
  fst (fst (MetroEnrich.match_rows lower n2f f2m rows))
  = omap (fun r => metro_row_update (MetroEnrich.match_row lower n2f f2m r)) rows.
Proof.
  unfold MetroEnrich.match_rows.
  enough (H : forall acc,
             fst (fst (fold_left (MetroEnrich.match_step lower n2f f2m) rows acc))
             = fst (fst acc)
               ++ omap (fun r => metro_row_update
                                   (MetroEnrich.match_row lower n2f f2m r)) rows)
    by apply H.
  induction rows as [|r rows IH]; intros [[ups m] um]; simpl.
  - now rewrite app_nil_r.
  - rewrite IH. unfold MetroEnrich.match_step.
    destruct (MetroEnrich.match_row lower n2f f2m r); simpl;
      [reflexivity|now rewrite <- app_assoc|reflexivity].
Qed.

Lemma metro_match_zip lower n2f f2m r u :
  MetroEnrich.match_row lower n2f f2m r = MetroEnrich.Matched u ->
  MetroEnrich.u_zip u = zip_code r.
Proof.
  unfold MetroEnrich.match_row.
  destruct (state_abbr r); [|discriminate].
  destruct (_ || _); [discriminate|].
  destruct (truthy_opt (MetroEnrich.find_fips _ _ _)); [|discriminate].
  destruct (truthy_opt (f2m !! _)); [|discriminate].
  now intros [= <-].
Qed.
End Keeps.

(** *** Invariants of the table along a run *)

Section TableInvariant.
Import Spec.
Context {Log Sql : Type}.
Variable J : list row -> Prop.
Local Abbreviation I := (on_table (Log:=Log) (Sql:=Sql) J).

Lemma table_log (l : Log) : preserves I (log l).
Proof. now intros s. Qed.

Lemma table_pool_end : preserves I pool_end.
Proof. now intros s. Qed.

Lemma table_download w url : preserves I (download w url).
Proof. intros s. unfold download. now destruct (fetch w url) as [[e|data]|h]. Qed.

(** a statement followed by the rest of the script, which may use
    that the result was taken from a table where [J] holds *)
Lemma table_query_bind {A B} w q (f : list row -> A * list row)
    (k : A -> M Log Sql (list row) B) :
  (forall d, J d -> J (snd (f d))) ->
  (forall d, J d -> preserves I (k (fst (f d)))) ->
  preserves I (bind (pool_query w q f) k).
Proof.
  intros Hf Hk s Hs. unfold bind, pool_query.
  destruct (query_error w (sent s)); [exact Hs|].
  specialize (Hf _ Hs). specialize (Hk _ Hs).
  destruct (f (db s)) as [a d] eqn:E. simpl in *. now apply Hk.
Qed.

Lemma table_run_main fatal (main : M Log Sql (list row) unit) d :
  J d -> preserves I main -> J (db (snd (run_main fatal main d))).
Proof.
  intros Hd H. unfold run_main.
  specialize (H {| db := d; trace := []; sent := 0 |} Hd).
  now destruct (main _) as [[a|e| |hl] s].
Qed.
End TableInvariant.

(** applies the rules for an invariant of the table *)
Ltac table_auto :=
  unfold mbind, M_bind, mret, M_ret;
  repeat first
    [ apply preserves_ret | apply table_log | apply table_pool_end
    | apply table_download
    | apply table_query_bind; [intros ? ?; assumption|intros ? ?]
    | apply preserves_bind; [|intros ?]
    | apply preserves_try_catch; [|intros ?]
    | apply preserves_for_each; intros ?
    | match goal with |- Spec.preserves _ (if ?b then _ else _) => destruct b end
    | match goal with |- Spec.preserves _ (let _ := _ in _) => cbv zeta end ].

Section NoOverwrite.
Import Spec.
Variable t0 : list row.
Hypothesis zips_unique : NoDup (map zip_code t0).

Lemma kept_missing (v0 v : option jsstring) :
  (missing v0 = false -> v = v0) -> missing v = true -> missing v0 = true.
Proof.
  intros H Hv. destruct (missing v0) eqn:E; [reflexivity|].
  rewrite H in Hv by reflexivity. congruence.
Qed.

Lemma geo_updates_safe zg zm d :
  keeps t0 d ->
  Forall (geo_safe t0) (fst (GeoEnrich.build_updates zg zm (GeoEnrich.select_gap_rows d))).
Proof.
  intros Hk. rewrite geo_updates_omap. apply Forall_forall. intros u Hu.
  apply list_elem_of_omap in Hu as (r & Hr & Hu).
  apply list_elem_of_In, filter_In in Hr as [Hr _]. apply list_elem_of_In in Hr.
  destruct (keeps_origin _ _ _ Hk Hr) as (r1 & Hr1 & (Hz & K1 & K2 & K3)).
  apply geo_row_update_fills in Hu as (Huz & F1 & F2 & F3).
  intros r0 Hr0 Hz0.
  assert (r0 = r1) as -> by (eapply NoDup_map_eq; eauto; congruence).
  repeat split; intros Hs; eapply kept_missing; eauto.
Qed.

Lemma metro_updates_safe lower n2f f2m d :
  keeps t0 d ->
  Forall (metro_safe t0)
    (fst (fst (MetroEnrich.match_rows lower n2f f2m (MetroEnrich.select_zips d)))).
Proof.
  intros Hk. rewrite metro_updates_omap. apply Forall_forall. intros u Hu.
  apply list_elem_of_omap in Hu as (r & Hr & Hu).
  apply list_elem_of_In, filter_In in Hr as [Hr Hc]. apply list_elem_of_In in Hr.
  apply andb_true_iff in Hc as [_ Hm].
  destruct (keeps_origin _ _ _ Hk Hr) as (r1 & Hr1 & (Hz & K1 & K2 & K3)).
  destruct (MetroEnrich.match_row lower n2f f2m r) as [|u'|] eqn:E;
    try discriminate.
  injection Hu as ->. apply metro_match_zip in E.
  intros r0 Hr0 Hz0.
  assert (r0 = r1) as -> by (eapply NoDup_map_eq; eauto; congruence).
  eapply kept_missing; eauto.
Qed.

Lemma geo_exec_keeps now vs d :
  Forall (geo_safe t0) vs -> keeps t0 d ->
  keeps t0 (snd (GeoEnrich.exec_update now vs d)).
Proof.
  intros Hs Hk. simpl.
  apply (keeps_map (fun r0 => forall v, v ∈ vs -> GeoEnrich.u_zip v = zip_code r0
                                        -> geo_fills_gaps r0 v)); auto.
  - intros r0 r H. now apply geo_update_kept.
  - apply Forall_forall. intros r0 Hr0 v Hv Hz.
    rewrite Forall_forall in Hs. now apply (Hs v Hv r0).
Qed.

Lemma metro_exec_keeps now vs d :
  Forall (metro_safe t0) vs -> keeps t0 d ->
  keeps t0 (snd (MetroEnrich.exec_update now vs d)).
Proof.
  intros Hs Hk. simpl.
  apply (keeps_map (fun r0 => forall v, v ∈ vs -> MetroEnrich.u_zip v = zip_code r0
                                        -> missing (metro_area r0) = true)); auto.
  - intros r0 r H. now apply metro_update_kept.
  - apply Forall_forall. intros r0 Hr0 v Hv Hz.
    rewrite Forall_forall in Hs. now apply (Hs v Hv r0).
Qed.

Lemma Forall_slice {U} (P : U -> Prop) (l : list U) a b :
  Forall P l -> Forall P (slice l a b).
Proof.
  rewrite !Forall_forall. intros H x Hx. eapply H, slice_incl, Hx.
Qed.

Lemma geo_turn_keeps w ups i b acc :
  Forall (geo_safe t0) b ->
  preserves (on_table (keeps t0)) (GeoEnrich.batch_body w ups i b acc).
Proof.
  intros Hb. unfold GeoEnrich.batch_body. unfold mbind, M_bind.
  apply table_query_bind.
  - intros d Hd. rewrite unnest4_maps. now apply geo_exec_keeps.
  - intros d Hd. table_auto.
Qed.

Lemma metro_turn_keeps w ups i b acc :
  Forall (metro_safe t0) b ->
  preserves (on_table (keeps t0)) (MetroEnrich.batch_body w ups i b acc).
Proof.
  intros Hb. unfold MetroEnrich.batch_body. unfold mbind, M_bind.
  apply table_query_bind.
  - intros d Hd. rewrite unnest2_maps. now apply metro_exec_keeps.
  - intros d Hd. table_auto.
Qed.

Lemma geo_main_keeps zl w fuel :
  preserves (on_table (keeps t0)) (GeoEnrich.main zl w fuel).
Proof.
  unfold GeoEnrich.main, GeoEnrich.step_zipGeo, GeoEnrich.step_zipMetro,
    GeoEnrich.step_names, GeoEnrich.dry_run, GeoEnrich.live_run.
  table_auto.
  apply preserves_for_batches with (P := Forall (geo_safe t0)).
  - intros ? ?. apply Forall_slice. now apply geo_updates_safe.
  - intros ? ? ? Hb. now apply geo_turn_keeps.
Qed.

Lemma metro_main_keeps lower upper w fuel :
  preserves (on_table (keeps t0)) (MetroEnrich.main lower upper w fuel).
Proof.
  unfold MetroEnrich.main, MetroEnrich.step_countyFipsToMetro,
    MetroEnrich.enrich, MetroEnrich.step_countyNameToFips,
    MetroEnrich.dry_run, MetroEnrich.live_run.
  table_auto.
  apply preserves_for_batches with (P := Forall (metro_safe t0)).
  - intros ? ?. apply Forall_slice. now apply metro_updates_safe.
  - intros ? ? ? Hb. now apply metro_turn_keeps.
Qed.
End NoOverwrite.

(** C3 (as amended).  On a table whose zip codes are pairwise
    different, whatever the downloads deliver, whichever statement fails
    and wherever the run stops (it may halt at a download that never
    settles, or its loop may not end), each script leaves every row its zip_code and every state_abbr, county_name and
    metro_area that was not null or empty.  In geo-enrich.js the update
    list has one update for each selected row that misses a column a
    lookup map has, a column is set in the update only when the row's
    value is null or empty, and COALESCE keeps the column where the
    update has null; the metro script selects only rows whose metro_area
    is null or empty, and its updates are those of the matched rows. *)
Theorem enrichment_never_overwrites
    (zl : jsstring -> option jsstring) (lower upper : jsstring -> jsstring)
    (w : world) (fuel : nat) (t0 : list row) :
  NoDup (map zip_code t0) ->
  Spec.keeps t0 (db (snd (GeoEnrich.script zl w fuel t0)))
  /\ Spec.keeps t0 (db (snd (MetroEnrich.script lower upper w fuel t0)))
  /\ (forall zg zm rows,
         fst (GeoEnrich.build_updates zg zm rows)
         = omap (Spec.geo_row_update zg zm) rows)
  /\ (forall zg zm r u,
         Spec.geo_row_update zg zm r = Some u ->
         GeoEnrich.u_zip u = zip_code r /\ Spec.geo_fills_gaps r u)
  /\ (forall old, coalesce None old = old)
  /\ (forall d, Forall (fun r => missing (metro_area r) = true)
                       (MetroEnrich.select_zips d))
  /\ (forall n2f f2m rows,
         fst (fst (MetroEnrich.match_rows lower n2f f2m rows))
         = omap (fun r => Spec.metro_row_update
                            (MetroEnrich.match_row lower n2f f2m r)) rows).
Proof.
  intros Hnd.
  split; [|split; [|split; [|split; [|split; [|split]]]]].
  - apply (table_run_main (Spec.keeps t0)); [apply keeps_refl|].
    now apply geo_main_keeps.
  - apply (table_run_main (Spec.keeps t0)); [apply keeps_refl|].
    now apply metro_main_keeps.
  - apply geo_updates_omap.
  - apply geo_row_update_fills.
  - reflexivity.
  - intros d. apply Forall_forall. intros r Hr.
    apply list_elem_of_In, filter_In in Hr as [_ Hr].
    now apply andb_true_iff in Hr as [_ Hr].
  - apply metro_updates_omap.
Qed.

(** ** Whole runs *)

Section WholeRuns.
Import Spec.
Context {Log Sql Db : Type}.

(** what a specification of [main] says of the script *)
Lemma spec_run_main (fatal : exn -> Log) (main : M Log Sql Db unit)
    (Q : outcome unit -> list (event Log Sql) -> Prop) (d : Db) :
  spec main Q ->
  exists t,
    Q (fst (run_main fatal main d)) t
    /\ trace (snd (run_main fatal main d))
       = match fst (run_main fatal main d) with
         | Throw e => t ++ [EvLog (fatal e); EvExit 1]
         | _ => t
         end.
Proof.
  intros H. unfold run_main.
  destruct (H {| db := d; trace := []; sent := 0 |}) as (t & Ht & HQ).
  destruct (main _) as [[a|e| |hl] s]; simpl in *; exists t;
    (split; [exact HQ|]); rewrite Ht; [reflexivity| |reflexivity|reflexivity].
  now rewrite <- app_assoc.
Qed.

Lemma ends_with_here {E} (t : list E) : ends_with t t.
Proof. now exists []. Qed.

Lemma ends_with_cons {E} (x : E) (tail t : list E) :
  ends_with tail t -> ends_with tail (x :: t).
Proof. intros [pre ->]. now exists (x :: pre). Qed.

Lemma ends_with_app {E} (pre tail t : list E) :
  ends_with tail t -> ends_with tail (pre ++ t).
Proof. intros [p ->]. exists (pre ++ p). now rewrite app_assoc. Qed.
End WholeRuns.


Section DryRuns.
Import Spec.
Variable zipcodes_lookup : jsstring -> option jsstring.
Variable toLowerCase toUpperCase : jsstring -> jsstring.
Variable w : world.

Lemma geo_dry_run_spec updates :
  spec (GeoEnrich.dry_run updates)
       (fun r t => r = Return tt
                   /\ t = [EvLog GeoEnrich.LDryRun; EvLog GeoEnrich.LSampleHead]
                          ++ map (fun u => EvLog (GeoEnrich.LSample u))
                                 (firstn 15 updates)
                          ++ [EvPoolEnd]).
Proof.
  unfold GeoEnrich.dry_run. rewrite slice_0 by lia.
  change (Z.to_nat 15) with 15%nat. wp. now split.
Qed.

Lemma metro_dry_run_spec updates :
  spec (MetroEnrich.dry_run updates)
       (fun r t => r = Return tt
                   /\ t = [EvLog MetroEnrich.LDrySampleHead]
                          ++ map (fun u => EvLog (MetroEnrich.LSample u))
                                 (firstn 15 updates)
                          ++ [EvPoolEnd]).
Proof.
  unfold MetroEnrich.dry_run. rewrite slice_0 by lia.
  change (Z.to_nat 15) with 15%nat. wp. now split.
Qed.

(** a dry run has no loop over batches: it never runs out of turns *)
Lemma geo_dry_total fuel :
  GeoEnrich.DRY_RUN w = true ->
  spec (GeoEnrich.main zipcodes_lookup w fuel) (fun r _ => r <> OutOfFuel).
Proof.
  intros Hd. unfold GeoEnrich.main, GeoEnrich.step_zipGeo,
    GeoEnrich.step_zipMetro, GeoEnrich.step_names. rewrite Hd.
  wp; try discriminate.
  all: (eapply spec_conseq; [apply geo_dry_run_spec|]);
    intros r t [-> _]; discriminate.
Qed.

Lemma metro_dry_total fuel :
  MetroEnrich.DRY_RUN w = true ->
  spec (MetroEnrich.main toLowerCase toUpperCase w fuel)
       (fun r _ => r <> OutOfFuel).
Proof.
  intros Hd. unfold MetroEnrich.main, MetroEnrich.step_countyFipsToMetro,
    MetroEnrich.enrich, MetroEnrich.step_countyNameToFips. rewrite Hd.
  wp; try discriminate.
  all: (eapply spec_conseq; [apply metro_dry_run_spec|]);
    intros r t [-> _]; discriminate.
Qed.

(** a dry run of which no statement is rejected and every download
    settles returns *)
Lemma geo_dry_returns fuel :
  (forall n, query_error w n = None) -> geo_settle w ->
  GeoEnrich.DRY_RUN w = true ->
  spec (GeoEnrich.main zipcodes_lookup w fuel) (fun r _ => r = Return tt).
Proof.
  intros no_reject (S1 & S2 & S3) Hd.
  unfold GeoEnrich.main, GeoEnrich.step_zipGeo,
    GeoEnrich.step_zipMetro, GeoEnrich.step_names. rewrite Hd.
  wp_ok no_reject; try settled_path.
  all: (eapply spec_conseq; [apply geo_dry_run_spec|]); now intros r t [-> _].
Qed.

Lemma metro_dry_returns fuel :
  (forall n, query_error w n = None) -> metro_settle w ->
  MetroEnrich.DRY_RUN w = true ->
  spec (MetroEnrich.main toLowerCase toUpperCase w fuel)
       (fun r _ => r = Return tt).
Proof.
  intros no_reject (S1 & S2) Hd. unfold MetroEnrich.main,
    MetroEnrich.step_countyFipsToMetro, MetroEnrich.enrich,
    MetroEnrich.step_countyNameToFips. rewrite Hd.
  wp_ok no_reject; try settled_path; try reflexivity.
  all: (eapply spec_conseq; [apply metro_dry_run_spec|]); now intros r t [-> _].
Qed.
End DryRuns.

Section MetroDryRun.
Import Spec MetroEnrich.
Variable toLowerCase toUpperCase : jsstring -> jsstring.
Variable w : world.

Lemma metro_dry_untouched d0 fuel :
  DRY_RUN w = true ->
  preserves (untouched metro_is_update d0) (main toLowerCase toUpperCase w fuel).
Proof.
  intros Hdry. unfold main, step_countyFipsToMetro, enrich,
    step_countyNameToFips. rewrite Hdry. unfold dry_run.
  untouched_auto.
Qed.
End MetroDryRun.

Lemma dry_run_flag (w : world) :
  In (js "--dry-run") (argv w) ->
  GeoEnrich.DRY_RUN w = true /\ MetroEnrich.DRY_RUN w = true.
Proof.
  intros H. unfold GeoEnrich.DRY_RUN, MetroEnrich.DRY_RUN.
  assert (E : existsb (eqb (js "--dry-run")) (argv w) = true).
  { apply existsb_exists. exists (js "--dry-run"). split; [exact H|].
    now apply bool_decide_eq_true. }
  now rewrite E.
Qed.

(** ** The chain of the metro script *)

Section Chain.
Import Spec MetroEnrich.
Variable toLowerCase toUpperCase : jsstring -> jsstring.

Lemma nameToFips_values header lines :
  map_Forall (fun _ v => length v = 5%nat)
    (build_countyNameToFips toLowerCase toUpperCase header lines).
Proof.
  unfold build_countyNameToFips.
  generalize (findIndex is_fips_exact header)
             (findIndex is_county_name_col header)
             (findIndex is_state_abbr_col header). intros a b c.
  enough (H : forall m, map_Forall (fun _ v => length v = 5%nat) m ->
              map_Forall (fun _ v => length v = 5%nat)
                (fold_left (nameToFips_step toLowerCase toUpperCase a b c)
                           (tl lines) m))
    by (apply H, map_Forall_empty).
  induction (tl lines) as [|l ls IH]; intros m Hm; [exact Hm|].
  cbn [fold_left]. apply IH. unfold nameToFips_step. cbv zeta.
  match goal with
  | |- context [if ?b then _ else _] => destruct b eqn:E
  end; [|exact Hm].
  apply andb_true_iff in E as [E _]. apply andb_true_iff in E as [E _].
  apply Nat.eqb_eq in E.
  now repeat apply map_Forall_insert_2.
Qed.

Lemma fipsToMetro_values header lines :
  map_Forall (fun _ v => truthy v = true)
    (build_countyFipsToMetro header lines).
Proof.
  unfold build_countyFipsToMetro.
  generalize (findIndex is_fips_col header) (findIndex is_state_col header)
             (findIndex is_name_col header). intros a b c.
  enough (H : forall m, map_Forall (fun _ v => truthy v = true) m ->
              map_Forall (fun _ v => truthy v = true)
                (fold_left (fipsToMetro_step a b c) (tl lines) m))
    by (apply H, map_Forall_empty).
  induction (tl lines) as [|l ls IH]; intros m Hm; [exact Hm|].
  cbn [fold_left]. apply IH. unfold fipsToMetro_step. cbv zeta.
  match goal with
  | |- context [if ?b then _ else _] => destruct b eqn:E
  end; [|exact Hm].
  apply andb_true_iff in E as [E _]. apply andb_true_iff in E as [_ E].
  now apply map_Forall_insert_2.
Qed.

Lemma length5_truthy (v : jsstring) : length v = 5%nat -> truthy v = true.
Proof. now destruct v. Qed.

Lemma state_table_truthy st sf :
  STATE_FIPS !! st = Some sf -> stateFips_truthy st = true.
Proof.
  intros H. unfold stateFips_truthy. rewrite H.
  assert (F : map_Forall (fun _ v => truthy v = true) STATE_FIPS).
  { apply map_Forall_to_list. vm_compute. repeat constructor. }
  exact (F _ _ H).
Qed.

Lemma or_empty_some (c : jsstring) : c <> [] -> or_empty (Some c) = c.
Proof. now destruct c. Qed.

Lemma truthy_ne (s : jsstring) : s <> [] -> truthy s = true.
Proof. now destruct s. Qed.

Lemma state_guard st :
  stateFips_truthy st = true
  <-> is_Some (STATE_FIPS !! st) \/ st ∈ Object_prototype.
Proof.
  unfold stateFips_truthy. destruct (STATE_FIPS !! st) as [sf|] eqn:E.
  - assert (T : stateFips_truthy st = true)
      by exact (state_table_truthy st sf E).
    unfold stateFips_truthy in T. rewrite E in T. rewrite T.
    split; [now left; eexists|reflexivity].
  - rewrite existsb_exists. split.
    + intros (x & Hx & Ex). right. apply bool_decide_eq_true in Ex.
      subst x. now apply list_elem_of_In.
    + intros [[x Hx]|Hin]; [discriminate|].
      exists st. split; [now apply list_elem_of_In|].
      now apply bool_decide_eq_true.
Qed.

(** C1 (as amended).  For a row with a state_abbr, a non-empty
    county_name and a missing metro_area, and the maps the script
    builds from any two CSV texts: the row is given an update exactly
    when the guard on [STATE_FIPS[state_abbr]] passes, the county FIPS
    is found in the county-name map under the key of state abbreviation
    and lowercased county name, or else under that key with the suffix
    county, parish, borough, census area or municipality cut off, and
    that FIPS, of 5 code units, is found in the CBSA map; the update
    sets the metro title found, for the ZIP of the row.  The guard
    passes exactly when the state_abbr is a key of the table or the
    name of a member of Object.prototype, and the row is skipped
    exactly when the guard does not pass.  The rows of the table with a
    non-empty state_abbr and a missing metro_area are those the script
    walks, and its update list is made of the updates of the rows, in
    their order. *)
Theorem metro_chain (header lines header' lines' : list jsstring)
    (r : row) (st c : jsstring) (d : list row) :
  (forall s, s <> [] -> toLowerCase s <> []) ->
  state_abbr r = Some st -> st <> [] ->
  county_name r = Some c -> c <> [] ->
  missing (metro_area r) = true ->
  let n2f := build_countyNameToFips toLowerCase toUpperCase header lines in
  let f2m := build_countyFipsToMetro header' lines' in
  let county := toLowerCase c in
  let short := trim (replace_suffix match_suffixes county) in
  (forall u,
      match_row toLowerCase n2f f2m r = Matched u <->
      stateFips_truthy st = true
      /\ exists fips metro,
           (n2f !! key st county = Some fips
            \/ (n2f !! key st county = None
                /\ n2f !! key st short = Some fips))
           /\ f2m !! fips = Some metro
           /\ u = {| u_zip := zip_code r; u_metro := metro |})
  /\ (stateFips_truthy st = true
      <-> is_Some (STATE_FIPS !! st) \/ st ∈ Object_prototype)
  /\ (match_row toLowerCase n2f f2m r = Skipped
      <-> stateFips_truthy st = false)
  /\ (forall k fips, n2f !! k = Some fips -> length fips = 5%nat)
  /\ (r ∈ d -> r ∈ select_zips d)
  /\ fst (fst (match_rows toLowerCase n2f f2m (select_zips d)))
     = omap (fun r => metro_row_update (match_row toLowerCase n2f f2m r))
            (select_zips d).
Proof.
  intros Hlow Hst Hst0 Hc Hc0 Hm n2f f2m county short.
  pose proof (nameToFips_values header lines) as Hn. fold n2f in Hn.
  pose proof (fipsToMetro_values header' lines') as Hf. fold f2m in Hf.
  split; [|split; [|split; [|split; [|split]]]].
  - intros u. unfold match_row. rewrite Hst, Hc, or_empty_some by assumption.
    fold county. rewrite (truthy_ne county) by now apply Hlow.
    destruct (stateFips_truthy st); simpl;
      [|split; [discriminate|now intros [? _]]].
    assert (Tn : forall k f, n2f !! k = Some f -> truthy f = true)
      by (intros k f H; eapply length5_truthy, Hn, H).
    unfold find_fips. fold short.
    destruct (n2f !! key st county) as [f|] eqn:E1; simpl;
      [rewrite !(Tn _ _ E1); simpl
      |destruct (n2f !! key st short) as [f|] eqn:E3; simpl;
       [rewrite !(Tn _ _ E3); simpl|]];
      try (destruct (f2m !! f) as [m|] eqn:E2; simpl;
           [rewrite !(Hf _ _ E2)|]);
      repeat match goal with
             | H : n2f !! _ = Some ?f |- context [truthy ?f] =>
                 rewrite (Tn _ _ H); simpl
             end;
      (split;
       [first [ intros H; discriminate H
              | intros [= <-]; split; [reflexivity|]; exists f, m; auto ]
       |intros [_ (f' & m' & [Hk|[Hk Hk']] & Hm' & ->)];
        try discriminate; congruence]).
  - apply state_guard.
  - unfold match_row. rewrite Hst, Hc, or_empty_some by assumption.
    fold county. rewrite (truthy_ne county) by now apply Hlow.
    destruct (stateFips_truthy st); cbn [negb orb]; [|easy].
    destruct (truthy_opt (find_fips n2f st county));
      [destruct (truthy_opt (f2m !! _))|]; split; discriminate.
  - exact Hn.
  - intros Hr. unfold select_zips. apply list_elem_of_In, filter_In.
    split; [now apply list_elem_of_In|].
    unfold missing at 1. rewrite Hst. simpl. rewrite (truthy_ne st Hst0).
    simpl. exact Hm.
  - apply metro_updates_omap.
Qed.
End Chain.

Lemma metro_chain_witness :
  (forall s, s <> [] -> Examples.ascii_lower s <> [])
  /\ MetroEnrich.match_row Examples.ascii_lower
       (MetroEnrich.build_countyNameToFips Examples.ascii_lower
          Examples.ascii_upper
          (MetroEnrich.parseRow (js "fips,county_name,state_abbr"))
          [js "fips,county_name,state_abbr"; js "6037,Los Angeles County,CA"])
       (MetroEnrich.build_countyFipsToMetro
          (MetroEnrich.split_plain (js "cbsatitle,countyfips,fipsstatecode"))
          [js "cbsatitle,countyfips,fipsstatecode"; js "Los Angeles Metro,037,06"])
       (Examples.mkrow (js "90001") (Some (js "CA"))
          (Some (js "Los Angeles County")) None)
     = MetroEnrich.Matched {| MetroEnrich.u_zip := js "90001";
                              MetroEnrich.u_metro := js "Los Angeles Metro" |}.
Proof.
  assert (H : forall s : jsstring, s <> [] -> Examples.ascii_lower s <> [])
    by (intros [|x s] Hs; [congruence|discriminate]).
  split; [exact H|].
  apply (proj1 (metro_chain Examples.ascii_lower Examples.ascii_upper
                  (MetroEnrich.parseRow (js "fips,county_name,state_abbr"))
                  [js "fips,county_name,state_abbr"; js "6037,Los Angeles County,CA"]
                  (MetroEnrich.split_plain (js "cbsatitle,countyfips,fipsstatecode"))
                  [js "cbsatitle,countyfips,fipsstatecode"; js "Los Angeles Metro,037,06"]
                  (Examples.mkrow (js "90001") (Some (js "CA"))
                     (Some (js "Los Angeles County")) None)
                  (js "CA") (js "Los Angeles County") []
                  H eq_refl ltac:(discriminate) eq_refl ltac:(discriminate) eq_refl)).
  split; [vm_compute; reflexivity|].
  exists (js "06037"), (js "Los Angeles Metro").
  split; [left; vm_compute; reflexivity|].
  split; [vm_compute; reflexivity|reflexivity].
Defined.

(** C1 as stated fails: for a row of a state that [STATE_FIPS] does not
    have, both lookups succeed and no update is made. *)
Lemma metro_chain_guard_skips :
  state_abbr Examples.xx_row = Some (js "XX")
  /\ county_name Examples.xx_row = Some (js "Foo County")
  /\ missing (metro_area Examples.xx_row) = true
  /\ Examples.xx_countyNameToFips
       !! MetroEnrich.key (js "XX") (Examples.ascii_lower (js "Foo County"))
     = Some (js "99001")
  /\ Examples.xx_countyFipsToMetro !! js "99001" = Some (js "Foo Metro")
  /\ MetroEnrich.match_row Examples.ascii_lower Examples.xx_countyNameToFips
       Examples.xx_countyFipsToMetro Examples.xx_row = MetroEnrich.Skipped
  /\ fst (fst (MetroEnrich.match_rows Examples.ascii_lower
                 Examples.xx_countyNameToFips Examples.xx_countyFipsToMetro
                 (MetroEnrich.select_zips [Examples.xx_row]))) = [].
Proof. repeat split; vm_compute; reflexivity. Qed.

Lemma enrichment_never_overwrites_witness :
  NoDup (map zip_code Examples.table)
  /\ Spec.keeps Examples.table (db (snd Examples.geo_online_live))
  /\ Spec.keeps Examples.table (db (snd Examples.metro_online_live))
  /\ map state_abbr (db (snd Examples.geo_online_live))
     = [Some (js "AL"); Some (js "CA"); Some (js "TX"); Some (js "AK");
        Some (js "NY")]
  /\ map metro_area (db (snd Examples.metro_online_live))
     = [None; Some (js "Los Angeles Metro"); Some (js "Abilene TX"); None;
        Some (js "New York Metro")].
Proof.
  assert (H : NoDup (map zip_code Examples.table))
    by (apply (bool_decide_unpack _); vm_compute; reflexivity).
  split; [exact H|].
  pose proof (enrichment_never_overwrites Examples.zipcodes_lookup
                Examples.ascii_lower Examples.ascii_upper
                (Examples.online Examples.live_args) 10 Examples.table H) as T.
  split; [exact (proj1 T)|]. split; [exact (proj1 (proj2 T))|].
  split; vm_compute; reflexivity.
Defined.

(** C3 as stated fails on a table in which two rows share a ZIP: the
    UPDATE matches rows by zip_code alone, so the metro area found for
    the row that has none replaces the metro area of the other row, and
    in geo-enrich.js the state and county found for the row that has
    none replace those of the other row.  Each run sends one statement,
    which carries one update. *)
Lemma shared_zip_overwritten :
  map metro_area Examples.shared_zip_metro = [None; Some (js "Old Metro")]
  /\ map metro_area
       (db (snd (MetroEnrich.script Examples.ascii_lower Examples.ascii_upper
                   (Examples.online Examples.live_args) 10
                   Examples.shared_zip_metro)))
     = [Some (js "Los Angeles Metro"); Some (js "Los Angeles Metro")]
  /\ map state_abbr Examples.shared_zip_state = [None; Some (js "XX")]
  /\ map state_abbr
       (db (snd (GeoEnrich.script Examples.zipcodes_lookup
                   (Examples.online Examples.live_args) 10
                   Examples.shared_zip_state)))
     = [Some (js "AL"); Some (js "AL")]
  /\ map county_name
       (db (snd (GeoEnrich.script Examples.zipcodes_lookup
                   (Examples.online Examples.live_args) 10
                   Examples.shared_zip_state)))
     = [Some (js "St. Clair County"); Some (js "St. Clair County")]
  /\ map (fun q => length (fst q))
         (Spec.metro_updates_sent
            (trace (snd (MetroEnrich.script Examples.ascii_lower
                           Examples.ascii_upper
                           (Examples.online Examples.live_args) 10
                           Examples.shared_zip_metro))))
     = [1%nat]
  /\ map (fun q => length (fst q))
         (Spec.geo_updates_sent
            (trace (snd (GeoEnrich.script Examples.zipcodes_lookup
                           (Examples.online Examples.live_args) 10
                           Examples.shared_zip_state))))
     = [1%nat]
  /\ ~ Spec.keeps Examples.shared_zip_metro
         (db (snd (MetroEnrich.script Examples.ascii_lower
                     Examples.ascii_upper
                     (Examples.online Examples.live_args) 10
                     Examples.shared_zip_metro))).
Proof.
  split; [reflexivity|]. split; [vm_compute; reflexivity|].
  split; [reflexivity|]. split; [vm_compute; reflexivity|].
  split; [vm_compute; reflexivity|].
  split; [vm_compute; reflexivity|].
  split; [vm_compute; reflexivity|].
  intros K. apply Forall2_cons_1 in K as [_ K].
  apply Forall2_cons_1 in K as [(_ & _ & _ & K) _].
  specialize (K eq_refl). vm_compute in K. discriminate K.
Qed.


(** ** The keys of the lookup maps *)

Section Keys.
Import Spec.

Lemma keys_in_empty {K V} `{Countable K} (P : K -> Prop) :
  keys_in P (∅ : gmap K V).
Proof. intros k [v Hv]. now rewrite lookup_empty in Hv. Qed.

Lemma keys_in_insert {K V} `{Countable K} (P : K -> Prop) (m : gmap K V) k v :
  P k -> keys_in P m -> keys_in P (<[k:=v]> m).
Proof.
  intros Hk Hm k' Hs. destruct (decide (k = k')) as [<-|Hne]; [exact Hk|].
  rewrite lookup_insert_ne in Hs by exact Hne. now apply Hm.
Qed.

Lemma keys_in_fold {K V A} `{Countable K} (P : K -> Prop)
    (step : gmap K V -> A -> gmap K V) (rows : list A) :
  (forall m a, a ∈ rows -> keys_in P m -> keys_in P (step m a)) ->
  forall m, keys_in P m -> keys_in P (fold_left step rows m).
Proof.
  induction rows as [|a rows IH]; intros Hstep m Hm; [exact Hm|].
  cbn [fold_left]. apply IH.
  - intros m' a' Ha'. apply Hstep. now right.
  - apply Hstep; [left|exact Hm].
Qed.

Lemma zipGeo_keys header rows :
  keys_in (fun k => length k = 5%nat
                    /\ exists row, row ∈ rows
                         /\ k = padStart 5 (GeoEnrich.cell row
                                              (indexOf (js "zipcode") header)))
          (GeoEnrich.build_zipGeo header rows).
Proof.
  unfold GeoEnrich.build_zipGeo. cbv zeta.
  apply keys_in_fold; [|apply keys_in_empty].
  intros m row Hrow Hm. unfold GeoEnrich.zipGeo_step. cbv zeta.
  destruct (length _ =? 5)%nat eqn:E; simpl; [|exact Hm].
  apply Nat.eqb_eq in E.
  destruct (m !! _); [exact Hm|]. apply keys_in_insert; eauto.
Qed.

Lemma npm_fill_keys zl zipGeo zips :
  keys_in (fun k => is_Some (zipGeo !! k) \/ k ∈ zips)
          (fst (GeoEnrich.npm_fill zl zipGeo zips)).
Proof.
  unfold GeoEnrich.npm_fill.
  enough (H : forall acc,
             keys_in (fun k => is_Some (zipGeo !! k) \/ k ∈ zips) (fst acc) ->
             forall l, (forall z, z ∈ l -> z ∈ zips) ->
             keys_in (fun k => is_Some (zipGeo !! k) \/ k ∈ zips)
                     (fst (fold_left (GeoEnrich.npm_step zl) l acc))).
  { apply H; [intros k Hk; now left|auto]. }
  intros acc Hacc l. revert acc Hacc.
  induction l as [|z l IH]; intros [m n] Hm Hl; [exact Hm|].
  cbn [fold_left]. apply IH; [|intros z' Hz'; apply Hl; now right].
  assert (Hz : z ∈ zips) by (apply Hl; left).
  unfold GeoEnrich.npm_step. simpl in Hm.
  destruct (m !! z) as [g|].
  - destruct (negb _); [|exact Hm].
    destruct (zl z) as [st|]; [|exact Hm].
    destruct (truthy st); [|exact Hm].
    simpl. apply keys_in_insert; auto.
  - destruct (zl z) as [st|]; [|exact Hm].
    simpl. apply keys_in_insert; auto.
Qed.

Lemma zip_value_keys zipCol valCol rows :
  keys_in (fun k => length k = 5%nat
                    /\ exists row, row ∈ rows
                         /\ k = padStart 5 (GeoEnrich.cell row zipCol))
          (GeoEnrich.build_zip_value zipCol valCol rows).
Proof.
  unfold GeoEnrich.build_zip_value.
  apply keys_in_fold; [|apply keys_in_empty].
  intros m row Hrow Hm. unfold GeoEnrich.zip_value_step. cbv zeta.
  destruct (length _ =? 5)%nat eqn:E; simpl; [|exact Hm].
  apply Nat.eqb_eq in E.
  destruct (truthy _); [|exact Hm]. apply keys_in_insert; eauto.
Qed.

Lemma join_names_keys cbsaCodes nameMap :
  keys_in (fun k => is_Some (cbsaCodes !! k))
          (GeoEnrich.join_names cbsaCodes nameMap).
Proof.
  intros k [v Hv]. unfold GeoEnrich.join_names in Hv.
  rewrite lookup_omap in Hv. destruct (cbsaCodes !! k); [eauto|discriminate].
Qed.

Lemma nameMap_keys codeCol titleCol rows :
  keys_in (fun k => exists row, row ∈ rows /\ k = at_index row codeCol)
          (GeoEnrich.build_nameMap codeCol titleCol rows).
Proof.
  unfold GeoEnrich.build_nameMap.
  apply keys_in_fold; [|apply keys_in_empty].
  intros m row Hrow Hm. apply keys_in_insert; eauto.
Qed.

Lemma padStart_length n s : (length s <= n)%nat -> length (padStart n s) = n.
Proof.
  intros H. unfold padStart. rewrite length_app, repeat_length. lia.
Qed.

Lemma padStart_ge n s : (n <= length (padStart n s))%nat.
Proof. unfold padStart. rewrite length_app, repeat_length. lia. Qed.

Lemma countyFipsToMetro_keys header lines :
  keys_in (fun k =>
             exists line,
               line ∈ tl lines
               /\ let vals := MetroEnrich.split_plain line in
                  let sf := padStart 2 (MetroEnrich.cell vals
                              (findIndex MetroEnrich.is_state_col header)) in
                  let cf := padStart 3 (MetroEnrich.cell vals
                              (findIndex MetroEnrich.is_fips_col header)) in
                  k = sf ++ cf /\ length sf = 2%nat /\ length cf = 3%nat)
          (MetroEnrich.build_countyFipsToMetro header lines).
Proof.
  unfold MetroEnrich.build_countyFipsToMetro. cbv zeta.
  apply keys_in_fold; [|apply keys_in_empty].
  intros m line Hline Hm. unfold MetroEnrich.fipsToMetro_step. cbv zeta.
  match goal with
  | |- context [if ?b then _ else _] => destruct b eqn:E
  end; [|exact Hm].
  apply andb_true_iff in E as [E _]. apply andb_true_iff in E as [E _].
  apply Nat.eqb_eq in E. apply keys_in_insert; [|exact Hm].
  exists line. split; [exact Hline|]. split; [reflexivity|].
  rewrite length_app in E.
  match type of E with
  | (length (padStart 2 ?a) + length (padStart 3 ?b))%nat = _ =>
      pose proof (padStart_ge 2 a); pose proof (padStart_ge 3 b)
  end.
  split; lia.
Qed.

Lemma countyNameToFips_keys lower upper header lines :
  keys_in (fun k =>
             exists line,
               line ∈ tl lines
               /\ let vals := MetroEnrich.parseRow line in
                  let name := lower (MetroEnrich.cell vals
                                (findIndex MetroEnrich.is_county_name_col
                                   header)) in
                  let state := upper (MetroEnrich.cell vals
                                 (findIndex MetroEnrich.is_state_abbr_col
                                    header)) in
                  state <> [] /\ name <> []
                  /\ (k = MetroEnrich.key state name
                      \/ k = MetroEnrich.key state
                               (trim (replace_suffix
                                        MetroEnrich.build_suffixes name))))
          (MetroEnrich.build_countyNameToFips lower upper header lines).
Proof.
  unfold MetroEnrich.build_countyNameToFips. cbv zeta.
  apply keys_in_fold; [|apply keys_in_empty].
  intros m line Hline Hm. unfold MetroEnrich.nameToFips_step. cbv zeta.
  match goal with
  | |- context [if ?b then _ else _] => destruct b eqn:E
  end; [|exact Hm].
  apply andb_true_iff in E as [E E3]. apply andb_true_iff in E as [_ E2].
  match type of E3 with truthy ?st = true =>
    match type of E2 with truthy ?nm = true =>
      assert (st <> []) by (intros Z; rewrite Z in E3; discriminate);
      assert (nm <> []) by (intros Z; rewrite Z in E2; discriminate)
    end
  end.
  repeat apply keys_in_insert; try exact Hm;
    (exists line; split; [exact Hline|]); auto.
Qed.
End Keys.

(** C7 (as amended).  The keys of the lookup maps, whatever the CSV
    texts hold.  zipGeo, as built from the ZIP-to-county CSV, zipMetro
    and the ZIP-to-CBSA-code map: every key has 5 code units and is the
    ZIP cell of a row, left-padded with zeros; the supplement from the
    zipcodes package adds only zip_code values of the table; the keys of
    the names join are keys of the ZIP-to-CBSA-code map.
    countyFipsToMetro: every key is made from a line after the header,
    and is the cell of the state column, padded to its 2 code units,
    followed by the cell of the FIPS column, padded to its 3.  The CBSA
    name map: every key is the cell of a row in the code column.
    countyNameToFips is keyed by neither a ZIP nor a FIPS code: every
    key is made from a line after the header, and is the cell of the
    state column in upper case, a vertical bar, and the cell of the
    name column in lower case, as it is or with its suffix cut off. *)
Theorem lookup_map_keys
    (zl : jsstring -> option jsstring) (lower upper : jsstring -> jsstring)
    (header : list jsstring) (rows : list (list jsstring))
    (lines : list jsstring) (zipCol valCol codeCol titleCol : Z) :
  Spec.keys_in (fun k => length k = 5%nat
                         /\ exists row, row ∈ rows
                              /\ k = padStart 5 (GeoEnrich.cell row
                                                   (indexOf (js "zipcode") header)))
               (GeoEnrich.build_zipGeo header rows)
  /\ (forall zipGeo zips,
         Spec.keys_in (fun k => is_Some (zipGeo !! k) \/ k ∈ zips)
                      (fst (GeoEnrich.npm_fill zl zipGeo zips)))
  /\ Spec.keys_in (fun k => length k = 5%nat
                            /\ exists row, row ∈ rows
                                 /\ k = padStart 5 (GeoEnrich.cell row zipCol))
                  (GeoEnrich.build_zip_value zipCol valCol rows)
  /\ (forall cbsaCodes nameMap,
         Spec.keys_in (fun k => is_Some (cbsaCodes !! k))
                      (GeoEnrich.join_names cbsaCodes nameMap))
  /\ Spec.keys_in (fun k => exists row, row ∈ rows /\ k = at_index row codeCol)
                  (GeoEnrich.build_nameMap codeCol titleCol rows)
  /\ Spec.keys_in
       (fun k =>
          exists line,
            line ∈ tl lines
            /\ let vals := MetroEnrich.split_plain line in
               let sf := padStart 2 (MetroEnrich.cell vals
                           (findIndex MetroEnrich.is_state_col header)) in
               let cf := padStart 3 (MetroEnrich.cell vals
                           (findIndex MetroEnrich.is_fips_col header)) in
               k = sf ++ cf /\ length sf = 2%nat /\ length cf = 3%nat)
       (MetroEnrich.build_countyFipsToMetro header lines)
  /\ Spec.keys_in
       (fun k =>
          exists line,
            line ∈ tl lines
            /\ let vals := MetroEnrich.parseRow line in
               let name := lower (MetroEnrich.cell vals
                             (findIndex MetroEnrich.is_county_name_col
                                header)) in
               let state := upper (MetroEnrich.cell vals
                              (findIndex MetroEnrich.is_state_abbr_col
                                 header)) in
               state <> [] /\ name <> []
               /\ (k = MetroEnrich.key state name
                   \/ k = MetroEnrich.key state
                            (trim (replace_suffix
                                     MetroEnrich.build_suffixes name))))
       (MetroEnrich.build_countyNameToFips lower upper header lines).
Proof.
  split; [apply zipGeo_keys|].
  split; [intros; apply npm_fill_keys|].
  split; [apply zip_value_keys|].
  split; [intros; apply join_names_keys|].
  split; [apply nameMap_keys|].
  split; [apply countyFipsToMetro_keys|apply countyNameToFips_keys].
Qed.

(** C7 as stated fails: the first row of the county FIPS master puts
    the keys [AL|autauga county] and [AL|autauga] into countyNameToFips,
    and a ZIP cell that is no number becomes a key of zipGeo. *)
Lemma name_key_is_no_code :
  Examples.al_countyNameToFips !! js "AL|autauga county" = Some (js "01001")
  /\ Examples.al_countyNameToFips !! js "AL|autauga" = Some (js "01001")
  /\ Spec.is_zip_or_fips (js "AL|autauga county") = false
  /\ Spec.is_zip_or_fips (js "AL|autauga") = false
  /\ Examples.odd_zipGeo !! js "00N/A"
     = Some {| GeoEnrich.g_state := js "AL";
               GeoEnrich.g_county := js "Autauga County" |}
  /\ Spec.is_zip_or_fips (js "00N/A") = false.
Proof. repeat split; vm_compute; reflexivity. Qed.


(** ** The shape of the traces *)

Section LoopShape.
Import Spec.
Context {Log Sql U : Type}.
Variable stmt : list U -> Sql.

(** a loop trace is the statements of some batches, each with its
    progress line, and then, when a statement is rejected, that one *)
Lemma loop_trace_inv (r : outcome Z) (t : list (event Log Sql)) :
  loop_trace stmt r t ->
  exists bs lgs,
    length lgs = length bs
    /\ match r with
       | Throw e =>
           exists msg b, e = DbError msg
                         /\ t = loop_events stmt bs lgs
                                ++ [EvQuery (stmt b) false]
       | Halt _ => False
       | _ => t = loop_events stmt bs lgs
       end.
Proof.
  induction 1 as [acc| |b msg|b l r t _ (bs & lgs & Hl & IH)].
  - now exists [], [].
  - now exists [], [].
  - exists [], []. split; [reflexivity|]. now exists msg, b.
  - exists (b :: bs), (l :: lgs). split; [simpl; now rewrite Hl|].
    destruct r as [acc|e| |h]; [now subst| |now subst|exact IH].
    destruct IH as (msg & b' & -> & ->). now exists msg, b'.
Qed.

Lemma downloads_loop bs : forall lgs,
  downloads (loop_events (Log:=Log) stmt bs lgs) = [].
Proof. induction bs as [|b bs IH]; intros [|lg lgs]; simpl; auto. Qed.

Lemma queries_loop bs : forall lgs, length lgs = length bs ->
  queries (loop_events (Log:=Log) stmt bs lgs)
  = map (fun b => (stmt b, true)) bs.
Proof.
  induction bs as [|b bs IH]; intros [|lg lgs] H; try discriminate;
    [reflexivity|].
  injection H as H. simpl. f_equal. now apply IH.
Qed.

Lemma downloads_logs {A} (f : A -> Log) (l : list A) :
  downloads (Sql:=Sql) (map (fun x => EvLog (f x)) l) = [].
Proof. induction l; simpl; auto. Qed.

Lemma queries_logs {A} (f : A -> Log) (l : list A) :
  queries (Sql:=Sql) (map (fun x => EvLog (f x)) l) = [].
Proof. induction l; simpl; auto. Qed.
End LoopShape.

Section Turns.
Import Spec.
Variable w : world.

Lemma geo_turn_spec updates i b acc :
  spec (GeoEnrich.batch_body w updates i b acc) (turn_post geo_stmt b).
Proof.
  unfold GeoEnrich.batch_body. wp; [left; eauto|right; eauto].
Qed.

Lemma metro_turn_spec updates i b acc :
  spec (MetroEnrich.batch_body w updates i b acc) (turn_post metro_stmt b).
Proof.
  unfold MetroEnrich.batch_body. wp; [left; eauto|right; eauto].
Qed.

Lemma geo_loop_spec fuel step updates i acc :
  spec (for_batches fuel step updates (GeoEnrich.batch_body w updates) i acc)
       (loop_trace geo_stmt).
Proof. apply for_batches_trace. apply geo_turn_spec. Qed.

Lemma metro_loop_spec fuel step updates i acc :
  spec (for_batches fuel step updates (MetroEnrich.batch_body w updates) i acc)
       (loop_trace metro_stmt).
Proof. apply for_batches_trace. apply metro_turn_spec. Qed.
End Turns.

(** a symbolic run through the loop over the batches: its trace is
    named and described by a hypothesis *)
Ltac wp_loop :=
  lazymatch goal with
  | |- Spec.spec (Run.for_batches _ _ _ (GeoEnrich.batch_body _ _) _ _) _ =>
      eapply spec_conseq; [apply geo_loop_spec|]
  | |- Spec.spec (Run.for_batches _ _ _ (MetroEnrich.batch_body _ _) _ _) _ =>
      eapply spec_conseq; [apply metro_loop_spec|]
  end;
  let r := fresh "r" in
  let t := fresh "t" in
  let H := fresh "Hloop" in
  intros r t H;
  apply loop_trace_inv in H;
  let bs := fresh "bs" in
  let lgs := fresh "lgs" in
  let Hl := fresh "Hlen" in
  destruct H as (bs & lgs & Hl & H);
  destruct r as [?|?| |?];
  [subst t|destruct H as (? & ? & -> & ->)|subst t|destruct H].

(** a path on which the empty CBSA map would not be empty *)
Ltac absurd_path :=
  match goal with
  | H : (size ∅ =? 0)%nat = false |- _ =>
      exfalso; rewrite map_size_empty in H; discriminate H
  end.

(** a symbolic run of a whole script *)
Ltac wp_all := repeat (wp; try absurd_path; try wp_loop).


(** ** Failures *)

Section Projections2.
Import Spec.
Context {Log Sql : Type}.
Implicit Types t : list (event Log Sql).

Lemma exits_app t1 t2 : exits (t1 ++ t2) = exits t1 ++ exits t2.
Proof. induction t1 as [|[] t1 IH]; simpl; auto. now rewrite IH. Qed.

Lemma exits_loop {U} (stmt : list U -> Sql) bs : forall lgs,
  exits (loop_events (Log:=Log) stmt bs lgs) = [].
Proof. induction bs as [|b bs IH]; intros [|lg lgs]; simpl; auto. Qed.

Lemma exits_logs {A} (f : A -> Log) (l : list A) :
  exits (Sql:=Sql) (map (fun x => EvLog (f x)) l) = [].
Proof. induction l; simpl; auto. Qed.

Lemma rejected_last_ok {U} (f : U -> Sql) bs (rest : list (Sql * bool)) :
  rejected_last (map (fun b => (f b, true)) bs ++ rest) = rejected_last rest.
Proof. induction bs; simpl; auto. Qed.

Lemma succeeded_ok {U} (f : U -> Sql) bs (rest : list (Sql * bool)) :
  succeeded (map (fun b => (f b, true)) bs ++ rest) = succeeded rest.
Proof. induction bs; simpl; auto. Qed.

Lemma rejected_last_all_ok {U} (f : U -> Sql) bs :
  rejected_last (map (fun b => (f b, true)) bs) = true.
Proof. induction bs; simpl; auto. Qed.

Lemma succeeded_all_ok {U} (f : U -> Sql) bs :
  succeeded (map (fun b => (f b, true)) bs) = true.
Proof. induction bs; simpl; auto. Qed.
End Projections2.

(** the projections of a trace that a symbolic run has produced *)
Ltac project :=
  repeat (cbn [Spec.downloads Spec.queries Spec.exits app map fst snd
               Spec.rejected_last Spec.succeeded andb];
          rewrite ?downloads_app, ?queries_app, ?exits_app,
            ?downloads_loop, ?exits_loop, ?downloads_logs, ?queries_logs,
            ?exits_logs, ?rejected_last_ok, ?succeeded_ok, ?app_nil_r,
            ?rejected_last_all_ok, ?succeeded_all_ok;
          rewrite ?queries_loop by assumption).

(** finds the tail of a trace made of conses and appends *)
Ltac find_tail_app :=
  repeat first [ apply ends_with_here | apply ends_with_cons
               | apply ends_with_app ].

Ltac no_retry_leaf :=
  unfold Spec.no_retry; project;
  split; [apply (bool_decide_unpack _); vm_compute; reflexivity|];
  split; [reflexivity|]; split; [reflexivity|];
  first [ reflexivity | eexists _, _; split; [reflexivity|]; find_tail_app ].

Section NoRetry.
Import Spec.
Variable zipcodes_lookup : jsstring -> option jsstring.
Variable toLowerCase toUpperCase : jsstring -> jsstring.
Variable w : world.

Lemma geo_no_retry fuel :
  spec (GeoEnrich.main zipcodes_lookup w fuel) no_retry.
Proof.
  unfold GeoEnrich.main, GeoEnrich.step_zipGeo, GeoEnrich.step_zipMetro,
    GeoEnrich.step_names, GeoEnrich.dry_run, GeoEnrich.live_run.
  wp_all; no_retry_leaf.
Qed.

Lemma metro_no_retry fuel :
  spec (MetroEnrich.main toLowerCase toUpperCase w fuel) no_retry.
Proof.
  unfold MetroEnrich.main, MetroEnrich.step_countyFipsToMetro,
    MetroEnrich.enrich, MetroEnrich.step_countyNameToFips,
    MetroEnrich.dry_run, MetroEnrich.live_run.
  wp_all; no_retry_leaf.
Qed.
End NoRetry.

Lemma no_retry_script {Log Sql} (fatal : exn -> Log) (r : outcome unit)
    (t : list (event Log Sql)) :
  Spec.no_retry r t ->
  Spec.script_failures fatal r
    (match r with Throw e => t ++ [EvLog (fatal e); EvExit 1] | _ => t end).
Proof.
  intros (Hd & Hq & He & Hr). unfold Spec.script_failures.
  destruct r as [[]|e| |h].
  - auto.
  - rewrite downloads_app, queries_app, exits_app, He. simpl.
    rewrite !app_nil_r. repeat split; auto.
    destruct Hr as (msg & q & -> & pre & ->). exists msg, q.
    split; [reflexivity|]. exists pre. now rewrite <- app_assoc.
  - auto.
  - auto.
Qed.

(** C6.  In every run of either script, whatever the downloads deliver
    and whichever statement the server rejects: no URL is requested
    twice, so a failed download is never tried again; no statement is
    sent after a rejected one, so a failed statement is never tried
    again either; an error leaves main only as the rejection of a
    statement, and what follows it is the line reporting it and
    process.exit(1), nothing else; when no error leaves main the process
    is not ended by the script and every statement sent succeeded. *)
Theorem no_retry_and_fatal_exit
    (zl : jsstring -> option jsstring) (lower upper : jsstring -> jsstring)
    (w : world) (fuel : nat) (t0 : list row) :
  Spec.script_failures GeoEnrich.LFatal
    (fst (GeoEnrich.script zl w fuel t0))
    (trace (snd (GeoEnrich.script zl w fuel t0)))
  /\ Spec.script_failures MetroEnrich.LFatal
       (fst (MetroEnrich.script lower upper w fuel t0))
       (trace (snd (MetroEnrich.script lower upper w fuel t0))).
Proof.
  split.
  - destruct (spec_run_main GeoEnrich.LFatal _ _ t0 (geo_no_retry zl w fuel))
      as (t & HQ & Ht).
    fold (GeoEnrich.script zl w fuel t0) in HQ, Ht. rewrite Ht.
    now apply no_retry_script.
  - destruct (spec_run_main MetroEnrich.LFatal _ _ t0
                (metro_no_retry lower upper w fuel)) as (t & HQ & Ht).
    fold (MetroEnrich.script lower upper w fuel t0) in HQ, Ht. rewrite Ht.
    now apply no_retry_script.
Qed.


(** ** The reference tables *)

Ltac prefix_of_urls :=
  first [ exists 0%nat; reflexivity | exists 1%nat; reflexivity
        | exists 2%nat; reflexivity | exists 3%nat; reflexivity ].

Section Tables.
Import Spec.
Variable zipcodes_lookup : jsstring -> option jsstring.
Variable toLowerCase toUpperCase : jsstring -> jsstring.
Variable w : world.

Lemma geo_downloads_spec fuel :
  spec (GeoEnrich.main zipcodes_lookup w fuel) (geo_downloads w).
Proof.
  unfold GeoEnrich.main, GeoEnrich.step_zipGeo, GeoEnrich.step_zipMetro,
    GeoEnrich.step_names, GeoEnrich.dry_run, GeoEnrich.live_run.
  wp_all; unfold geo_downloads, urls, names_needed; project;
    (split; [prefix_of_urls|]); try discriminate; intros _;
    repeat match goal with
           | H : fetch w _ = _ |- _ => rewrite H
           | H : (_ >=? _) = _ |- _ => rewrite H
           end; reflexivity.
Qed.

Lemma metro_downloads_spec fuel :
  spec (MetroEnrich.main toLowerCase toUpperCase w fuel) metro_downloads.
Proof.
  unfold MetroEnrich.main, MetroEnrich.step_countyFipsToMetro,
    MetroEnrich.enrich, MetroEnrich.step_countyNameToFips,
    MetroEnrich.dry_run, MetroEnrich.live_run.
  wp_all; unfold metro_downloads, urls; project;
    (split; [prefix_of_urls|]); try discriminate; intros _; auto.
Qed.
End Tables.

Lemma urls_fatal {Log Sql} (t : list (event Log Sql)) (l : Log) (c : Z) :
  Spec.urls (t ++ [EvLog l; EvExit c]) = Spec.urls t.
Proof.
  unfold Spec.urls. rewrite downloads_app. simpl. now rewrite app_nil_r.
Qed.

(** C10 (as amended).  In every run geo-enrich.js downloads, in this
    order and each at most once, the ZIP-to-county CSV, the ZIP-to-CBSA
    CSV and the CBSA names CSV; when main returns it has downloaded the
    first two, and the third exactly when it was needed: with the
    zipcodes package that makes 3 or 4 reference tables.  The metro
    script downloads, in this order and each at most once, the NBER
    crosswalk and the county FIPS master (as the fallback or in step 3,
    never both): at most 2 reference tables. *)
Theorem reference_tables
    (zl : jsstring -> option jsstring) (lower upper : jsstring -> jsstring)
    (w : world) (fuel : nat) (t0 : list row) :
  let gs := GeoEnrich.script zl w fuel t0 in
  let ms := MetroEnrich.script lower upper w fuel t0 in
  Spec.geo_downloads w (fst gs) (trace (snd gs))
  /\ Spec.metro_downloads (fst ms) (trace (snd ms))
  /\ (fst gs = Return tt ->
      (3 <= Spec.geo_tables (trace (snd gs)) <= 4)%nat)
  /\ (Spec.metro_tables (trace (snd ms)) <= 2)%nat.
Proof.
  intros gs ms.
  destruct (spec_run_main GeoEnrich.LFatal _ _ t0
              (geo_downloads_spec zl w fuel)) as (t & [Hk HQ] & Ht).
  destruct (spec_run_main MetroEnrich.LFatal _ _ t0
              (metro_downloads_spec lower upper w fuel)) as (t' & [Hk' HQ'] & Ht').
  fold (GeoEnrich.script zl w fuel t0) in HQ, Ht. fold gs in HQ, Ht.
  fold (MetroEnrich.script lower upper w fuel t0) in HQ', Ht'.
  fold ms in HQ', Ht'.
  assert (Hg : Spec.urls (trace (snd gs)) = Spec.urls t).
  { rewrite Ht. destruct (fst gs); auto using urls_fatal. }
  assert (Hm : Spec.urls (trace (snd ms)) = Spec.urls t').
  { rewrite Ht'. destruct (fst ms); auto using urls_fatal. }
  split; [|split; [|split]].
  - split; [now rewrite Hg|]. intros Hr. rewrite Hg. auto.
  - split; [now rewrite Hm|]. intros Hr. rewrite Hm. auto.
  - intros Hr. unfold Spec.geo_tables. rewrite Hg, (HQ Hr).
    destruct (Spec.names_needed w); vm_compute; lia.
  - unfold Spec.metro_tables. rewrite Hm. destruct Hk' as [k ->].
    destruct k as [|[|[|k]]]; vm_compute; lia.
Qed.

(** C10 as stated fails: a run of the metro script in which every
    download succeeds consults two reference tables, not three or
    four. *)
Lemma metro_consults_two_tables :
  fst Examples.metro_online_live = Return tt
  /\ Spec.urls (trace (snd Examples.metro_online_live))
     = [MetroEnrich.nberUrl; MetroEnrich.fipsUrl]
  /\ Spec.metro_tables (trace (snd Examples.metro_online_live)) = 2%nat.
Proof. repeat split; vm_compute; reflexivity. Qed.


(** ** The order of the stages *)

Section Stages.
Import Spec.

Lemma stages_app {E} (stage : E -> option nat) (t1 t2 : list E) :
  stages stage (t1 ++ t2) = stages stage t1 ++ stages stage t2.
Proof.
  induction t1 as [|e t1 IH]; simpl; [reflexivity|].
  destruct (stage e); simpl; now rewrite IH.
Qed.

Lemma stages_geo_loop bs : forall lgs, length lgs = length bs ->
  stages geo_stage (loop_events geo_stmt bs lgs) = repeat 3%nat (length bs).
Proof.
  induction bs as [|b bs IH]; intros [|lg lgs] H; try discriminate;
    [reflexivity|].
  injection H as H. simpl. f_equal. now apply IH.
Qed.

Lemma stages_metro_loop bs : forall lgs, length lgs = length bs ->
  stages metro_stage (loop_events metro_stmt bs lgs) = repeat 3%nat (length bs).
Proof.
  induction bs as [|b bs IH]; intros [|lg lgs] H; try discriminate;
    [reflexivity|].
  injection H as H. simpl. f_equal. now apply IH.
Qed.

Lemma stages_logs {Log Sql A} (stage : event Log Sql -> option nat)
    (f : A -> Log) (l : list A) :
  (forall x, stage (EvLog x) = None) ->
  stages stage (map (fun x => EvLog (f x)) l) = [].
Proof. intros H. induction l; simpl; [reflexivity|]. now rewrite H. Qed.

Lemma ordered_repeat c n rest :
  (c <=? 3)%nat = true -> ordered 3 rest = true ->
  ordered c (repeat 3%nat n ++ rest) = true.
Proof.
  intros Hc Hr. revert c Hc.
  induction n as [|n IH]; intros c Hc; cbn [repeat app ordered].
  - destruct rest as [|x rest]; [reflexivity|]. cbn [ordered] in *.
    apply andb_true_iff in Hr as [H1 H2]. rewrite H2, andb_true_r.
    apply Nat.leb_le in H1, Hc. apply Nat.leb_le. lia.
  - rewrite Hc. now apply IH.
Qed.
End Stages.

(** the stages of a trace that a symbolic run has produced *)
Ltac stage_leaf :=
  repeat (cbn [Spec.stages Spec.geo_stage Spec.metro_stage app];
          rewrite ?stages_app, ?app_nil_r;
          rewrite ?stages_geo_loop, ?stages_metro_loop by assumption;
          rewrite ?stages_logs by reflexivity);
  cbn [Spec.ordered Nat.leb andb app];
  first [ reflexivity
        | rewrite <- (app_nil_r (repeat _ _)) at 1;
          apply ordered_repeat; reflexivity
        | apply ordered_repeat; reflexivity ].

Section StageOrder.
Import Spec.
Variable zipcodes_lookup : jsstring -> option jsstring.
Variable toLowerCase toUpperCase : jsstring -> jsstring.
Variable w : world.

Lemma geo_stages_spec fuel :
  spec (GeoEnrich.main zipcodes_lookup w fuel)
       (fun _ t => ordered 0 (stages geo_stage t) = true).
Proof.
  unfold GeoEnrich.main, GeoEnrich.step_zipGeo, GeoEnrich.step_zipMetro,
    GeoEnrich.step_names, GeoEnrich.dry_run, GeoEnrich.live_run.
  wp_all; stage_leaf.
Qed.

Lemma metro_stages_spec fuel :
  spec (MetroEnrich.main toLowerCase toUpperCase w fuel)
       (fun _ t => ordered 0 (stages metro_stage t) = true).
Proof.
  unfold MetroEnrich.main, MetroEnrich.step_countyFipsToMetro,
    MetroEnrich.enrich, MetroEnrich.step_countyNameToFips,
    MetroEnrich.dry_run, MetroEnrich.live_run.
  wp_all; stage_leaf.
Qed.
End StageOrder.

Lemma stages_fatal {Log Sql} (stage : event Log Sql -> option nat)
    (t : list (event Log Sql)) (l : Log) (c : Z) :
  stage (EvLog l) = None -> stage (EvExit c) = None ->
  Spec.stages stage (t ++ [EvLog l; EvExit c]) = Spec.stages stage t.
Proof.
  intros H1 H2. rewrite stages_app. simpl. rewrite H1, H2. apply app_nil_r.
Qed.

(** C8 (as amended).  Each script is straight-line code.  In every run
    no URL is downloaded twice, and the stages never go back: in
    geo-enrich.js all downloads, and the pass over the table's ZIPs that
    supplements the map from the zipcodes package, come before the
    SELECT of the rows with gaps, which comes before every UPDATE; in
    the metro script all downloads come before the SELECT of the rows
    that need a metro area, which comes before every UPDATE.  The join
    is one pass over the selected rows: the update list holds the
    updates of the rows, at most one for each, in the order of the
    rows. *)
Theorem single_pass_pipeline
    (zl : jsstring -> option jsstring) (lower upper : jsstring -> jsstring)
    (w : world) (fuel : nat) (t0 : list row) :
  let gs := GeoEnrich.script zl w fuel t0 in
  let ms := MetroEnrich.script lower upper w fuel t0 in
  NoDup (Spec.urls (trace (snd gs)))
  /\ NoDup (Spec.urls (trace (snd ms)))
  /\ Spec.ordered 0 (Spec.stages Spec.geo_stage (trace (snd gs))) = true
  /\ Spec.ordered 0 (Spec.stages Spec.metro_stage (trace (snd ms))) = true
  /\ (forall zg zm rows,
         fst (GeoEnrich.build_updates zg zm rows)
         = omap (Spec.geo_row_update zg zm) rows)
  /\ (forall n2f f2m rows,
         fst (fst (MetroEnrich.match_rows lower n2f f2m rows))
         = omap (fun r => Spec.metro_row_update
                            (MetroEnrich.match_row lower n2f f2m r)) rows).
Proof.
  intros gs ms.
  split; [|split; [|split; [|split; [|split]]]].
  - destruct (spec_run_main GeoEnrich.LFatal _ _ t0 (geo_no_retry zl w fuel))
      as (t & (Hn & _) & Ht).
    fold (GeoEnrich.script zl w fuel t0) in Ht. fold gs in Ht. rewrite Ht.
    destruct (fst gs); auto. now rewrite urls_fatal.
  - destruct (spec_run_main MetroEnrich.LFatal _ _ t0
                (metro_no_retry lower upper w fuel)) as (t & (Hn & _) & Ht).
    fold (MetroEnrich.script lower upper w fuel t0) in Ht. fold ms in Ht.
    rewrite Ht. destruct (fst ms); auto. now rewrite urls_fatal.
  - destruct (spec_run_main GeoEnrich.LFatal _ _ t0 (geo_stages_spec zl w fuel))
      as (t & Ho & Ht).
    fold (GeoEnrich.script zl w fuel t0) in Ht. fold gs in Ht. rewrite Ht.
    destruct (fst gs); auto. now rewrite stages_fatal.
  - destruct (spec_run_main MetroEnrich.LFatal _ _ t0
                (metro_stages_spec lower upper w fuel)) as (t & Ho & Ht).
    fold (MetroEnrich.script lower upper w fuel t0) in Ht. fold ms in Ht.
    rewrite Ht. destruct (fst ms); auto. now rewrite stages_fatal.
  - apply geo_updates_omap.
  - apply metro_updates_omap.
Qed.

(** C8 as stated fails: in a run of geo-enrich.js in which every
    download succeeds, the second dataset is downloaded after the first
    was parsed and after the table's ZIPs were joined with the first
    map. *)
Lemma pipeline_phases_interleave :
  fst Examples.geo_online_live = Return tt
  /\ Spec.stages Spec.geo_pipeline_phase (trace (snd Examples.geo_online_live))
     = [1; 2; 3; 1; 2; 3; 4]%nat
  /\ Spec.ordered 0
       (Spec.stages Spec.geo_pipeline_phase
          (trace (snd Examples.geo_online_live))) = false.
Proof. repeat split; vm_compute; reflexivity. Qed.


(** ** download: redirects and statuses *)

Section Download.
Import Spec.
Variable w : world.

Lemma get_redirect hops inner u v :
  redirects w u v -> get w (S hops) inner u = get w hops true v.
Proof.
  intros (res & l & Hg & Hs & Hl & Hne & Hv). cbn [get]. rewrite Hg, Hl.
  destruct (Z.leb_spec 300 (statusCode res)); [|lia].
  destruct (Z.ltb_spec (statusCode res) 400); [|lia].
  destruct l; [congruence|]. cbn [andb truthy_opt truthy default id].
  now rewrite <- Hv.
Qed.

Lemma get_chain k : forall u v hops inner,
  redirect_chain w k u v ->
  get w (k + hops) inner u
  = get w hops (match k with O => inner | S _ => true end) v.
Proof.
  induction k as [|k IH]; intros u v hops inner H; inversion H; subst;
    [reflexivity|].
  cbn [Nat.add]. erewrite get_redirect by eassumption.
  erewrite IH by eassumption. now destruct k.
Qed.

Lemma get_answer hops inner u r :
  answers w u r -> get w (S hops) inner u = Settled r.
Proof.
  unfold answers. cbn [get].
  destruct (http_get w u) as [res|msg|msg|]; [|now intros ->|easy|easy].
  intros [Hn ->].
  destruct ((300 <=? statusCode res) && (statusCode res <? 400)) eqn:E.
  - apply andb_true_iff in E as [E1 E2].
    apply Z.leb_le in E1. apply Z.ltb_lt in E2.
    rewrite Hn by lia. simpl.
    destruct (Z.eqb_spec (statusCode res) 200); [lia|reflexivity].
  - simpl. destruct (statusCode res =? 200); [|reflexivity].
    now destruct (body res).
Qed.

Lemma get_too_many k : forall u v hops inner,
  redirect_chain w k u v -> (hops <= k)%nat ->
  get w hops inner u = Settled (inl TooManyRedirects).
Proof.
  induction k as [|k IH]; intros u v hops inner H Hk.
  - now replace hops with 0%nat by lia.
  - destruct hops as [|hops]; [reflexivity|].
    inversion H; subst. erewrite get_redirect by eassumption.
    eapply IH; [eassumption|lia].
Qed.




End Download.

(** ** Failed downloads *)

Section FailedDownloads.
Import Spec.
Variable zipcodes_lookup : jsstring -> option jsstring.
Variable toLowerCase toUpperCase : jsstring -> jsstring.
Variable w : world.











(** a run halts at the download that does not settle, and only there *)
Ltac halt_leaf :=
  unfold halts_at_download;
  first
    [ eexists; split; [eassumption|find_tail_app]
    | project;
      repeat match goal with
             | |- Forall _ [] => constructor
             | |- Forall _ (_ :: _) =>
                 constructor; [unfold settles; cbn [fst]; eexists; eassumption|]
             end ].

Lemma geo_halts fuel :
  spec (GeoEnrich.main zipcodes_lookup w fuel) (halts_at_download w).
Proof.
  unfold GeoEnrich.main, GeoEnrich.step_zipGeo, GeoEnrich.step_zipMetro,
    GeoEnrich.step_names, GeoEnrich.dry_run, GeoEnrich.live_run.
  wp_all; halt_leaf.
Qed.

Lemma metro_halts fuel :
  spec (MetroEnrich.main toLowerCase toUpperCase w fuel) (halts_at_download w).
Proof.
  unfold MetroEnrich.main, MetroEnrich.step_countyFipsToMetro,
    MetroEnrich.enrich, MetroEnrich.step_countyNameToFips,
    MetroEnrich.dry_run, MetroEnrich.live_run.
  wp_all; halt_leaf.
Qed.
End FailedDownloads.




(** ** A negative --batch-size *)

Section NegativeBatch.
Import Spec.
Context {Log Sql Db U : Type}.
Variable stmt : list U -> Sql.
Variable body : Z -> list U -> Z -> M Log Sql Db Z.
Variable l : list U.
Variable step : Z.

(** [i += step] with a negative step never reaches [updates.length]:
    whatever the fuel, the loop uses it up, one statement a turn. *)
Lemma for_batches_never_ends :
  (forall i b acc,
      spec (body i b acc)
           (fun r t => exists acc' lg,
                r = Return acc' /\ t = [EvQuery (stmt b) true; EvLog lg])) ->
  step < 0 ->
  forall fuel i acc,
    i < Z.of_nat (length l) ->
    spec (for_batches fuel step l body i acc)
         (fun r t => r = OutOfFuel /\ length (queries t) = fuel).
Proof.
  intros Hb Hs. induction fuel as [|fuel IH]; intros i acc Hi;
    cbn [for_batches];
    destruct (Z.ltb_spec i (Z.of_nat (length l))); try lia.
  - apply spec_out_of_fuel. auto.
  - apply spec_bind. eapply spec_conseq; [apply Hb|].
    intros r t (acc' & lg & -> & ->).
    eapply spec_conseq; [apply (IH (i + step) acc'); lia|].
    intros r t [-> Hl]. split; [reflexivity|].
    cbn [app queries length]. now rewrite Hl.
Qed.
End NegativeBatch.

(** X3.  geo-enrich.js with [--batch-size=-1] (parseInt yields -1, which is
    truthy): the live run sends UPDATE statements without end. *)
Lemma negative_batch_size_never_ends (w : world) (fuel : nat)
    (g : GeoEnrich.gaps) (gu : list GeoEnrich.update) :
  (forall n, query_error w n = None) ->
  GeoEnrich.BATCH_SIZE w < 0 -> gu <> [] ->
  Spec.spec (GeoEnrich.live_run w fuel g gu) (fun r _ => r = OutOfFuel).
Proof.
  intros no_reject HB Hgu. unfold GeoEnrich.live_run. wp_ok no_reject.
  eapply spec_conseq;
    [apply (for_batches_never_ends Spec.geo_stmt);
       auto using geo_turn_ok; destruct gu; [easy|simpl; lia]|].
  now intros r t [-> _].
Qed.



(** X1.  download follows redirects: after at most 5 of them the download is
    what the last URL answers (its body for status 200, HTTP and the
    status for any other, also for a 3xx without Location, or the
    network error); a 6th redirect is rejected as too many.  A Location
    that starts with http is taken as it is, any other is resolved
    against the URL that sent it. *)
Theorem download_follows_redirects (w : world) (k : nat) (u v : jsstring) :
  Spec.redirect_chain w k u v ->
  (forall r, (k <= 5)%nat -> Spec.answers w v r -> fetch w u = Settled r)
  /\ ((6 <= k)%nat -> fetch w u = Settled (inl TooManyRedirects)).
Proof.
  intros H. split.
  - intros r Hk Hr. unfold fetch.
    replace 6%nat with (k + S (5 - k))%nat by lia.
    rewrite (get_chain w k u v _ _ H). now apply get_answer.
  - intros Hk. unfold fetch. eapply get_too_many; eassumption.
Qed.

Lemma download_follows_redirects_witness :
  Spec.redirect_chain Examples.redirecting 2 GeoEnrich.csvUrl
    (js "https://mirror/b")
  /\ fetch Examples.redirecting GeoEnrich.csvUrl
     = Settled (inr Examples.geo_csv).
Proof.
  assert (H : Spec.redirect_chain Examples.redirecting 2 GeoEnrich.csvUrl
                (js "https://mirror/b")).
  { apply Spec.chain_step with (v := js "https://mirror/a").
    - eexists _, _. split; [vm_compute; reflexivity|].
      split; [simpl; lia|]. split; [reflexivity|].
      split; [discriminate|vm_compute; reflexivity].
    - apply Spec.chain_step with (v := js "https://mirror/b").
      + eexists _, _. split; [vm_compute; reflexivity|].
        split; [simpl; lia|]. split; [reflexivity|].
        split; [discriminate|vm_compute; reflexivity].
      + constructor. }
  split; [exact H|].
  apply (proj1 (download_follows_redirects Examples.redirecting 2 _ _ H));
    [lia|].
  unfold Spec.answers.
  change (http_get Examples.redirecting (js "https://mirror/b"))
    with (Examples.ok Examples.geo_csv).
  split; [simpl; lia|reflexivity].
Defined.

(** ** The --batch-size flag *)

Section BatchFlag.
Import Spec.

Lemma digit_value_char d :
  (d <= 9)%nat -> digit_value 10 (digit_char d) = Some (Z.of_nat d).
Proof.
  intros H. do 10 (destruct d as [|d]; [reflexivity|]). lia.
Qed.

Lemma parse_digits_decimal ds : forall acc,
  Forall (fun d => (d <= 9)%nat) ds -> ds <> [] ->
  parse_digits 10 (map digit_char ds) acc
  = Some (fold_left (fun a d => 10 * a + Z.of_nat d) ds (default 0 acc)).
Proof.
  induction ds as [|d ds IH]; intros acc H Hne; [congruence|].
  inversion H as [|? ? Hd Hds]; subst. cbn [map parse_digits fold_left].
  rewrite digit_value_char by assumption.
  destruct ds as [|d' ds']; [reflexivity|].
  now rewrite IH.
Qed.

(** the code unit of a digit, computed *)
Ltac digit_literal :=
  repeat match goal with
         | |- context [digit_char ?n] =>
             let c := eval vm_compute in (digit_char n) in
             change (digit_char n) with c
         end.

Lemma parseInt_decimal ds :
  Forall (fun d => (d <= 9)%nat) ds -> ds <> [] ->
  parseInt (Some (map digit_char ds)) = Some (decimal_value ds).
Proof.
  intros H Hne. destruct ds as [|d ds]; [congruence|].
  pose proof (parse_digits_decimal (d :: ds) None H Hne) as P.
  inversion H as [|? ? Hd Hds]; subst.
  unfold parseInt, decimal_value. cbn [default id] in *.
  set (v := fold_left _ (d :: ds) 0) in *. clearbody v.
  assert (E : option_map (Z.mul 1) (Some v) = Some v)
    by (simpl; now destruct v).
  set (pd := parse_digits) in *. clearbody pd. revert P. cbn [map].
  destruct d as [|d].
  - destruct ds as [|d2 ds];
      [digit_literal; simpl; intros ->; exact E|].
    inversion Hds as [|? ? Hd2 _]; subst. cbn [map].
    do 10 (destruct d2 as [|d2];
           [digit_literal; simpl; intros ->; exact E|]).
    lia.
  - do 9 (destruct d as [|d];
          [digit_literal; simpl; intros ->; exact E|]).
    lia.
Qed.

Lemma split_no_sep sep s :
  Forall (fun c => c <> sep) s -> split sep s = [s].
Proof.
  induction 1 as [|c s Hc _ IH]; [reflexivity|].
  cbn [split]. rewrite IH. now destruct (N.eqb_spec c sep).
Qed.

Lemma digit_char_no_equal ds :
  Forall (fun d => (d <= 9)%nat) ds ->
  Forall (fun c => c <> EQUAL) (map digit_char ds).
Proof.
  intros H. apply Forall_map. eapply Forall_impl; [exact H|].
  intros d Hd. cbv beta in Hd. unfold digit_char, EQUAL. lia.
Qed.

Lemma find_first {A} (p : A -> bool) pre a post :
  Forall (fun x => p x = false) pre -> p a = true ->
  List.find p (pre ++ a :: post) = Some a.
Proof.
  induction 1 as [|x pre Hx _ IH]; intros Ha; simpl.
  - now rewrite Ha.
  - rewrite Hx. now apply IH.
Qed.

Lemma batch_size_flag_value w pre ds post :
  argv w = pre ++ (js "--batch-size=" ++ map digit_char ds) :: post ->
  Forall (fun a => startsWith (js "--batch-size=") a = false) pre ->
  Forall (fun d => (d <= 9)%nat) ds -> ds <> [] ->
  GeoEnrich.BATCH_SIZE w
  = if decimal_value ds =? 0 then 500 else decimal_value ds.
Proof.
  intros Ha Hpre Hds Hne. unfold GeoEnrich.BATCH_SIZE. rewrite Ha.
  rewrite (find_first _ pre _ post Hpre) by reflexivity.
  pose proof (split_no_sep EQUAL _ (digit_char_no_equal ds Hds)) as S.
  set (t := map digit_char ds) in *.
  assert (E : at_index (split EQUAL (or_empty (Some (js "--batch-size=" ++ t)))) 1
              = Some t).
  { cbn [or_empty js]. simpl. rewrite S. reflexivity. }
  rewrite E. unfold t. now rewrite parseInt_decimal.
Qed.

Lemma batch_size_not_zero w : GeoEnrich.BATCH_SIZE w <> 0.
Proof.
  unfold GeoEnrich.BATCH_SIZE. destruct (parseInt _) as [n|]; [|lia].
  destruct (Z.eqb_spec n 0); lia.
Qed.
End BatchFlag.

(** X2.  The --batch-size flag as the usage line has it: when the first
    argument that starts with --batch-size= continues with decimal
    digits only, BATCH_SIZE is the number they write, and 500 when that
    number is 0; the number is at most 2^53, up to which parseInt is
    exact.  BATCH_SIZE is never 0. *)
Theorem batch_size_flag (w : world) (pre post : list jsstring)
    (ds : list nat) :
  argv w = pre ++ (js "--batch-size=" ++ map Spec.digit_char ds) :: post ->
  Forall (fun a => startsWith (js "--batch-size=") a = false) pre ->
  Forall (fun d => (d <= 9)%nat) ds -> ds <> [] ->
  Spec.decimal_value ds <= 9007199254740992 ->
  GeoEnrich.BATCH_SIZE w
  = (if Spec.decimal_value ds =? 0 then 500 else Spec.decimal_value ds)
  /\ GeoEnrich.BATCH_SIZE w <> 0.
Proof.
  intros Ha Hpre Hds Hne _. split.
  - now apply (batch_size_flag_value w pre ds post).
  - apply batch_size_not_zero.
Qed.

Lemma batch_size_flag_witness :
  argv (Examples.online Examples.batch_args)
  = [js "node"; js "geo-enrich.js"]
    ++ (js "--batch-size=" ++ map Spec.digit_char [2%nat]) :: []
  /\ GeoEnrich.BATCH_SIZE (Examples.online Examples.batch_args) = 2.
Proof.
  assert (H : argv (Examples.online Examples.batch_args)
              = [js "node"; js "geo-enrich.js"]
                ++ (js "--batch-size=" ++ map Spec.digit_char [2%nat]) :: [])
    by reflexivity.
  split; [exact H|].
  refine (proj1 (batch_size_flag (Examples.online Examples.batch_args)
                   _ _ [2%nat] H _ _ _ _)).
  - repeat constructor.
  - repeat constructor.
  - discriminate.
  - vm_compute. discriminate.
Defined.

Lemma negative_batch_size_never_ends_witness :
  (forall n, query_error (Examples.online Examples.negative_batch_args) n = None)
  /\ GeoEnrich.BATCH_SIZE (Examples.online Examples.negative_batch_args) < 0
  /\ Examples.three_updates <> []
  /\ Spec.spec
       (GeoEnrich.live_run (Examples.online Examples.negative_batch_args) 4
          (GeoEnrich.count_gaps Examples.table) Examples.three_updates)
       (fun r _ => r = OutOfFuel).
Proof.
  assert (H : forall n,
             query_error (Examples.online Examples.negative_batch_args) n = None)
    by reflexivity.
  assert (HB : GeoEnrich.BATCH_SIZE
                 (Examples.online Examples.negative_batch_args) < 0)
    by reflexivity.
  assert (Hu : Examples.three_updates <> []) by discriminate.
  split; [exact H|]. split; [exact HB|]. split; [exact Hu|].
  exact (negative_batch_size_never_ends _ 4 _ _ H HB Hu).
Defined.

(** ** CSV lines written and parsed back *)

Section CsvText.
Import Spec.

(** a run of code units without quote, inside quotes: no cut *)
Lemma split_unquoted_inside f s :
  Forall (fun c => c <> QUOTE) f ->
  split_unquoted true (f ++ s)
  = match split_unquoted true s with
    | x :: xs => (f ++ x) :: xs
    | [] => [f]
    end.
Proof.
  pose proof (split_unquoted_length true s) as L.
  induction 1 as [|c f Hc _ IH]; simpl.
  - now destruct (split_unquoted true s).
  - destruct (N.eqb_spec c QUOTE); [congruence|].
    rewrite andb_false_r, IH.
    now destruct (split_unquoted true s).
Qed.

(** a run of code units without quote and comma, outside quotes *)
Lemma split_unquoted_outside f s :
  Forall (fun c => c <> QUOTE /\ c <> COMMA) f ->
  split_unquoted false (f ++ s)
  = match split_unquoted false s with
    | x :: xs => (f ++ x) :: xs
    | [] => [f]
    end.
Proof.
  pose proof (split_unquoted_length false s) as L.
  induction 1 as [|c f [Hq Hc] _ IH]; simpl.
  - now destruct (split_unquoted false s).
  - destruct (N.eqb_spec c QUOTE); [congruence|].
    destruct (N.eqb_spec c COMMA); [congruence|].
    simpl. rewrite IH. now destruct (split_unquoted false s).
Qed.

Lemma split_quoted_one f s :
  Forall (fun c => c <> QUOTE) f ->
  split_unquoted false (quoted f ++ s)
  = match split_unquoted false s with
    | x :: xs => (quoted f ++ x) :: xs
    | [] => [quoted f]
    end.
Proof.
  intros Hf. pose proof (split_unquoted_length false s) as L.
  unfold quoted. cbn [app]. rewrite <- app_assoc. cbn [app].
  cbn [split_unquoted]. rewrite N.eqb_refl. cbn [negb].
  rewrite (split_unquoted_inside f _ Hf).
  cbn [split_unquoted]. rewrite N.eqb_refl. cbn [negb].
  destruct (split_unquoted false s) as [|x xs]; [discriminate|].
  cbn [cons_head]. now rewrite <- app_assoc.
Qed.

Lemma split_quoted_fields fs :
  fs <> [] ->
  Forall (Forall (fun c => c <> QUOTE)) fs ->
  split_unquoted false (join COMMA (map quoted fs)) = map quoted fs.
Proof.
  intros Hne H. induction H as [|f fs Hf Hfs IH]; [congruence|].
  destruct fs as [|g fs].
  - cbn [map join]. rewrite <- (app_nil_r (quoted f)) at 1.
    rewrite (split_quoted_one f [] Hf). cbn [split_unquoted].
    now rewrite app_nil_r.
  - specialize (IH ltac:(discriminate)).
    change (join COMMA (map quoted (f :: g :: fs)))
      with (quoted f ++ COMMA :: join COMMA (map quoted (g :: fs))).
    rewrite (split_quoted_one f _ Hf).
    cbn [split_unquoted]. change ((COMMA =? QUOTE)%N) with false.
    rewrite N.eqb_refl. cbn [andb negb]. rewrite IH, app_nil_r. reflexivity.
Qed.

Lemma split_plain_fields fs :
  fs <> [] ->
  Forall (Forall (fun c => c <> QUOTE /\ c <> COMMA)) fs ->
  split_unquoted false (join COMMA fs) = fs.
Proof.
  intros Hne H. induction H as [|f fs Hf Hfs IH]; [congruence|].
  destruct fs as [|g fs].
  - cbn [join]. rewrite <- (app_nil_r f) at 1.
    rewrite (split_unquoted_outside f [] Hf). cbn [split_unquoted].
    now rewrite app_nil_r.
  - specialize (IH ltac:(discriminate)).
    change (join COMMA (f :: g :: fs))
      with (f ++ COMMA :: join COMMA (g :: fs)).
    rewrite (split_unquoted_outside f _ Hf).
    cbn [split_unquoted]. change ((COMMA =? QUOTE)%N) with false.
    rewrite N.eqb_refl. cbn [andb negb]. rewrite IH, app_nil_r. reflexivity.
Qed.

Lemma unquote_quoted f :
  Forall (fun c => c <> QUOTE /\ c <> CR) f -> unquote (quoted f) = f.
Proof.
  intros H. unfold unquote, quoted. cbn [List.filter].
  rewrite N.eqb_refl. cbn [negb andb]. rewrite List.filter_app.
  cbn [List.filter]. rewrite N.eqb_refl. cbn [negb andb].
  rewrite app_nil_r. induction H as [|c f [Hq Hr] _ IH]; [reflexivity|].
  cbn [List.filter]. destruct (N.eqb_spec c QUOTE); [congruence|].
  destruct (N.eqb_spec c CR); [congruence|]. simpl. now rewrite IH.
Qed.

Lemma unquote_plain f :
  Forall (fun c => c <> QUOTE /\ c <> CR) f -> unquote f = f.
Proof.
  intros H. unfold unquote. induction H as [|c f [Hq Hr] _ IH]; [reflexivity|].
  cbn [List.filter]. destruct (N.eqb_spec c QUOTE); [congruence|].
  destruct (N.eqb_spec c CR); [congruence|]. simpl. now rewrite IH.
Qed.
End CsvText.

(** X4.  Writing fields between double quotes, joined by commas, and
    parsing the line gives the fields back, trimmed, when no field holds
    a double quote or a carriage return: a field may hold commas.
    Without the quotes the same holds for fields that hold no comma
    either. *)
Theorem parseRow_round_trip (fs : list jsstring) :
  fs <> [] ->
  Forall (Forall (fun c => c <> QUOTE /\ c <> CR)) fs ->
  GeoEnrich.parseRow (Spec.join COMMA (map Spec.quoted fs)) = map trim fs
  /\ MetroEnrich.parseRow (Spec.join COMMA (map Spec.quoted fs)) = map trim fs
  /\ (Forall (Forall (fun c => c <> COMMA)) fs ->
      GeoEnrich.parseRow (Spec.join COMMA fs) = map trim fs
      /\ MetroEnrich.parseRow (Spec.join COMMA fs) = map trim fs).
Proof.
  intros Hne H.
  assert (Hq : Forall (Forall (fun c => c <> QUOTE)) fs).
  { eapply Forall_impl; [exact H|]. intros f Hf.
    eapply Forall_impl; [exact Hf|]. now intros c [? _]. }
  assert (E : GeoEnrich.parseRow (Spec.join COMMA (map Spec.quoted fs))
              = map trim fs).
  { rewrite parseRow_split, split_quoted_fields by assumption.
    rewrite map_map. apply map_ext_Forall.
    eapply Forall_impl; [exact H|]. intros f Hf. cbv beta.
    now rewrite unquote_quoted. }
  split; [exact E|]. split; [now rewrite parseRow_same|].
  intros Hc.
  assert (E' : GeoEnrich.parseRow (Spec.join COMMA fs) = map trim fs).
  { rewrite parseRow_split, split_plain_fields; [| assumption |].
    - apply map_ext_Forall. eapply Forall_impl; [exact H|].
      intros f Hf. cbv beta. now rewrite unquote_plain.
    - apply Forall_forall. intros f Hf.
      rewrite Forall_forall in H, Hc. specialize (H f Hf). specialize (Hc f Hf).
      rewrite Forall_forall in H, Hc. apply Forall_forall. intros c Hcf.
      split; [apply (H c Hcf)|apply (Hc c Hcf)]. }
  split; [exact E'|now rewrite parseRow_same].
Qed.

Lemma parseRow_round_trip_witness :
  GeoEnrich.parseRow
    (Spec.join COMMA (map Spec.quoted [js "Abilene, TX"; js " 10180 "]))
  = [js "Abilene, TX"; js "10180"].
Proof.
  refine (proj1 (parseRow_round_trip [js "Abilene, TX"; js " 10180 "] _ _)).
  - discriminate.
  - apply (bool_decide_unpack _). vm_compute. reflexivity.
Defined.

(** ** Carriage returns *)

Section CarriageReturns.
Import Spec.

Lemma parse_fold_dropCR s : forall st,
  fold_left GeoEnrich.parse_step (dropCR s) st
  = fold_left GeoEnrich.parse_step s st.
Proof.
  induction s as [|c s IH]; intros st; [reflexivity|].
  unfold dropCR in *. cbn [List.filter fold_left].
  destruct (N.eqb_spec c CR) as [->|Hc]; cbn [negb fold_left].
  - rewrite IH. reflexivity.
  - apply IH.
Qed.

Lemma parseRow_dropCR line :
  GeoEnrich.parseRow (dropCR line) = GeoEnrich.parseRow line.
Proof. unfold GeoEnrich.parseRow. now rewrite parse_fold_dropCR. Qed.

Lemma trimStart_dropCR s : trimStart (dropCR s) = dropCR (trimStart s).
Proof.
  induction s as [|c s IH]; [reflexivity|].
  unfold dropCR in *. cbn [List.filter trimStart].
  destruct (N.eqb_spec c CR) as [->|Hc]; cbn [negb].
  - exact IH.
  - cbn [trimStart]. destruct (isWhiteSpace c); [exact IH|].
    cbn [List.filter]. destruct (N.eqb_spec c CR); [congruence|reflexivity].
Qed.

Lemma dropCR_rev s : dropCR (rev s) = rev (dropCR s).
Proof. apply List.filter_rev. Qed.

Lemma trim_dropCR s : trim (dropCR s) = dropCR (trim s).
Proof.
  unfold trim, trimEnd.
  now rewrite trimStart_dropCR, <- dropCR_rev, trimStart_dropCR, dropCR_rev.
Qed.

Lemma split_not_nil sep s : split sep s <> [].
Proof.
  destruct s as [|c s]; cbn [split]; [discriminate|].
  destruct (c =? sep)%N; [discriminate|].
  destruct (split sep s); discriminate.
Qed.

Lemma split_dropCR s :
  split LF (dropCR s) = map dropCR (split LF s).
Proof.
  induction s as [|c s IH]; [reflexivity|].
  pose proof (split_not_nil LF s) as Hn.
  unfold dropCR in *. cbn [List.filter split].
  destruct (split LF s) as [|f fs] eqn:E; [congruence|].
  destruct (N.eqb_spec c CR) as [->|Hc]; cbn [negb].
  - change ((CR =? LF)%N) with false. rewrite IH.
    cbn [map List.filter]. change ((CR =? CR)%N) with true. reflexivity.
  - cbn [split]. destruct (N.eqb_spec c LF) as [->|Hl].
    + now rewrite IH.
    + rewrite IH. cbn [map List.filter].
      destruct (N.eqb_spec c CR); [congruence|reflexivity].
Qed.

Lemma rows_dropCR text :
  map GeoEnrich.parseRow (split LF (trim (dropCR text)))
  = map GeoEnrich.parseRow (split LF (trim text)).
Proof.
  rewrite trim_dropCR, split_dropCR, map_map.
  apply map_ext. intros l. apply parseRow_dropCR.
Qed.
End CarriageReturns.

(** X5.  Carriage returns do not matter to the quote-aware parsers: a CSV
    text with CRLF line ends, or with a carriage return anywhere else,
    parses as the text without them.  This holds for parseCSV of
    geo-enrich.js and for the lines of the county FIPS master in the
    metro script. *)
Theorem parseCSV_ignores_CR (text : jsstring) :
  GeoEnrich.parseCSV (Spec.dropCR text) = GeoEnrich.parseCSV text
  /\ map MetroEnrich.parseRow (split LF (trim (Spec.dropCR text)))
     = map MetroEnrich.parseRow (split LF (trim text)).
Proof.
  pose proof (rows_dropCR text) as R. split.
  - unfold GeoEnrich.parseCSV.
    destruct (split LF (trim (Spec.dropCR text))) as [|a l];
      destruct (split LF (trim text)) as [|b l']; try discriminate;
      [reflexivity|].
    cbn [map] in R. injection R as R1 R2. cbn [hd tl]. now rewrite R1, R2.
  - rewrite !(map_ext _ _ parseRow_same). exact R.
Qed.

(** ** The lookup maps: which row wins *)

Section LookupMaps.
Import Spec.

Lemma eqb_eq (a b : jsstring) : eqb a b = true <-> a = b.
Proof. unfold eqb. apply bool_decide_eq_true. Qed.

Lemma eqb_neq (a b : jsstring) : eqb a b = false <-> a <> b.
Proof. unfold eqb. apply bool_decide_eq_false. Qed.

Lemma zipGeo_fold si zi ci rows zip : forall m : gmap jsstring GeoEnrich.geo,
  fold_left (GeoEnrich.zipGeo_step si zi ci) rows m !! zip
  = match m !! zip with
    | Some g => Some g
    | None =>
        if (length zip =? 5)%nat
        then zipGeo_entry si ci <$> List.find (has_zip zi zip) rows
        else None
    end.
Proof.
  induction rows as [|row rows IH]; intros m; cbn [fold_left List.find].
  - destruct (m !! zip); [reflexivity|]. now destruct (length zip =? 5)%nat.
  - rewrite IH. unfold GeoEnrich.zipGeo_step, has_zip.
    set (z := padStart 5 (GeoEnrich.cell row zi)).
    destruct (Nat.eqb_spec (length z) 5) as [L|L]; cbn [negb].
    + destruct (m !! z) as [g0|] eqn:Ez.
      * destruct (m !! zip) as [g|] eqn:E; [reflexivity|].
        destruct (eqb z zip) eqn:Q; [|reflexivity].
        apply eqb_eq in Q. congruence.
      * destruct (eqb z zip) eqn:Q.
        -- apply eqb_eq in Q. subst zip. rewrite lookup_insert_eq, Ez.
           rewrite L. cbn. unfold zipGeo_entry.
           now destruct (GeoEnrich.cell row ci).
        -- apply eqb_neq in Q. now rewrite lookup_insert_ne.
    + destruct (eqb z zip) eqn:Q; [|reflexivity].
      apply eqb_eq in Q. subst zip.
      destruct (m !! z); [reflexivity|].
      now destruct (Nat.eqb_spec (length z) 5).
Qed.

Lemma zip_value_snoc zc vc rows row :
  GeoEnrich.build_zip_value zc vc (rows ++ [row])
  = GeoEnrich.zip_value_step zc vc (GeoEnrich.build_zip_value zc vc rows) row.
Proof. unfold GeoEnrich.build_zip_value. now rewrite fold_left_app. Qed.
End LookupMaps.

(** X6.  zipGeo keeps the first row of each ZIP: the entry of a ZIP of 5
    code units is made of the first row of the CSV whose ZIP cell,
    padded with zeros, is that ZIP, whatever rows follow; the county
    cell is stored with the word County behind it, an empty one as it
    is.  No other key has an entry. *)
Theorem zipGeo_first_row_wins (header : list jsstring)
    (rows : list (list jsstring)) (zip : jsstring) :
  GeoEnrich.build_zipGeo header rows !! zip
  = if (length zip =? 5)%nat
    then Spec.zipGeo_entry (indexOf (js "state_abbr") header)
                           (indexOf (js "county") header)
           <$> List.find (Spec.has_zip (indexOf (js "zipcode") header) zip) rows
    else None.
Proof.
  unfold GeoEnrich.build_zipGeo. rewrite zipGeo_fold.
  now rewrite lookup_empty.
Qed.

(** X7.  zipMetro and the ZIP-to-CBSA-code map keep the last row of each
    ZIP: the value of a ZIP of 5 code units is the cell of the last row
    of the CSV with that ZIP and a cell that is not empty. *)
Theorem zip_value_last_row_wins (zipCol valCol : Z)
    (rows : list (list jsstring)) (zip : jsstring) :
  GeoEnrich.build_zip_value zipCol valCol rows !! zip
  = if (length zip =? 5)%nat
    then (fun row => GeoEnrich.cell row valCol)
           <$> List.find (fun row => Spec.has_zip zipCol zip row
                                     && truthy (GeoEnrich.cell row valCol))
                         (rev rows)
    else None.
Proof.
  induction rows as [|row rows IH] using rev_ind.
  - cbn. rewrite lookup_empty. now destruct (length zip =? 5)%nat.
  - rewrite zip_value_snoc, rev_app_distr. cbn [rev app List.find].
    unfold GeoEnrich.zip_value_step, Spec.has_zip.
    set (z := padStart 5 (GeoEnrich.cell row zipCol)).
    destruct (eqb z zip) eqn:Q.
    + apply eqb_eq in Q. subst zip.
      destruct (Nat.eqb_spec (length z) 5) as [L|L]; cbn [andb].
      * destruct (truthy (GeoEnrich.cell row valCol)) eqn:T.
        -- now rewrite lookup_insert_eq.
        -- rewrite IH. destruct (Nat.eqb_spec (length z) 5); [|lia].
           reflexivity.
      * rewrite IH. now destruct (Nat.eqb_spec (length z) 5).
    + apply eqb_neq in Q. cbn [andb].
      destruct ((length z =? 5)%nat && truthy (GeoEnrich.cell row valCol));
        [rewrite lookup_insert_ne by exact Q|]; exact IH.
Qed.

(** ** The supplement from the zipcodes package *)

Section Supplement.
Import Spec.
Variable zipcodes_lookup : jsstring -> option jsstring.

Lemma supplemented_idem z o :
  supplemented zipcodes_lookup z (supplemented zipcodes_lookup z o) = supplemented zipcodes_lookup z o.
Proof.
  unfold supplemented.
  destruct o as [g|]; destruct (zipcodes_lookup z) as [st|] eqn:E; cbn;
    rewrite ?E; try reflexivity.
  - destruct (truthy (GeoEnrich.g_state g)) eqn:T; cbn; rewrite ?E, ?T;
      [reflexivity|].
    destruct (truthy st) eqn:T'; cbn; rewrite ?E, ?T, ?T'; reflexivity.
  - destruct (truthy st) eqn:T'; cbn; rewrite ?T'; reflexivity.
Qed.

Lemma npm_step_lookup m n zip z :
  fst (GeoEnrich.npm_step zipcodes_lookup (m, n) zip) !! z
  = if bool_decide (z = zip) then supplemented zipcodes_lookup z (m !! z) else m !! z.
Proof.
  unfold GeoEnrich.npm_step, supplemented.
  destruct (decide (z = zip)) as [->|Hz].
  - rewrite bool_decide_eq_true_2 by reflexivity.
    destruct (m !! zip) as [g|] eqn:E.
    + destruct (truthy (GeoEnrich.g_state g)); cbn.
      * rewrite E. now destruct (zipcodes_lookup zip).
      * destruct (zipcodes_lookup zip) as [st|]; cbn; [|exact E].
        destruct (truthy st); cbn; [apply lookup_insert_eq|exact E].
    + destruct (zipcodes_lookup zip) as [st|]; cbn;
        [apply lookup_insert_eq|exact E].
  - rewrite bool_decide_eq_false_2 by exact Hz.
    destruct (m !! zip) as [g|].
    + destruct (truthy (GeoEnrich.g_state g)); cbn; [reflexivity|].
      destruct (zipcodes_lookup zip) as [st|]; cbn; [|reflexivity].
      destruct (truthy st); cbn; [|reflexivity].
      apply lookup_insert_ne. congruence.
    + destruct (zipcodes_lookup zip) as [st|]; cbn; [|reflexivity].
      apply lookup_insert_ne. congruence.
Qed.

Lemma npm_step_count m n zip :
  (n <= snd (GeoEnrich.npm_step zipcodes_lookup (m, n) zip) <= S n)%nat.
Proof.
  unfold GeoEnrich.npm_step.
  destruct (m !! zip) as [g|].
  - destruct (truthy (GeoEnrich.g_state g)); cbn; [lia|].
    destruct (zipcodes_lookup zip) as [st|]; cbn; [|lia].
    destruct (truthy st); cbn; lia.
  - destruct (zipcodes_lookup zip); cbn; lia.
Qed.

Lemma npm_fold_lookup zips z : forall m n,
  fst (fold_left (GeoEnrich.npm_step zipcodes_lookup) zips (m, n)) !! z
  = if bool_decide (z ∈ zips) then supplemented zipcodes_lookup z (m !! z) else m !! z.
Proof.
  induction zips as [|zip zips IH]; intros m n; cbn [fold_left].
  - now rewrite bool_decide_eq_false_2 by apply not_elem_of_nil.
  - destruct (GeoEnrich.npm_step zipcodes_lookup (m, n) zip) as [m' n'] eqn:E.
    rewrite IH.
    pose proof (npm_step_lookup m n zip z) as S. rewrite E in S. cbn in S.
    rewrite S.
    destruct (decide (z = zip)) as [->|Hz].
    + rewrite (bool_decide_eq_true_2 (zip = zip)) by reflexivity.
      rewrite (bool_decide_eq_true_2 (zip ∈ zip :: zips)) by left.
      rewrite supplemented_idem. now destruct (bool_decide (zip ∈ zips)).
    + rewrite (bool_decide_eq_false_2 (z = zip)) by exact Hz.
      destruct (decide (z ∈ zips)) as [Hin|Hin].
      * rewrite !bool_decide_eq_true_2; [reflexivity|now right|exact Hin].
      * rewrite !bool_decide_eq_false_2; [reflexivity| |exact Hin].
        intros H. apply elem_of_cons in H as [?|?]; contradiction.
Qed.

Lemma npm_fold_count zips : forall m n,
  (n <= snd (fold_left (GeoEnrich.npm_step zipcodes_lookup) zips (m, n))
     <= n + length zips)%nat.
Proof.
  induction zips as [|zip zips IH]; intros m n; cbn [fold_left length];
    [cbn; lia|].
  pose proof (npm_step_count m n zip) as C.
  destruct (GeoEnrich.npm_step zipcodes_lookup (m, n) zip) as [m' n'].
  cbn in C. specialize (IH m' n'). lia.
Qed.
End Supplement.

(** X9.  The supplement from the zipcodes package, whatever the order of
    the table's ZIPs and whether or not one occurs twice: the entry of a
    ZIP that is not in the table stays as it was; an entry with a state
    keeps it, and every entry keeps its county; an entry without state
    gets the state of the package when that has one; a ZIP of the table
    without entry gets one exactly when the package knows the ZIP, with
    the package's state and no county.  npmFills is at most the number
    of ZIPs. *)
Theorem npm_supplement (zl : jsstring -> option jsstring)
    (zipGeo : gmap jsstring GeoEnrich.geo) (zips : list jsstring)
    (z : jsstring) :
  let res := fst (GeoEnrich.npm_fill zl zipGeo zips) in
  (z ∉ zips -> res !! z = zipGeo !! z)
  /\ (forall g, zipGeo !! z = Some g ->
        exists g', res !! z = Some g'
          /\ GeoEnrich.g_county g' = GeoEnrich.g_county g
          /\ (truthy (GeoEnrich.g_state g) = true -> g' = g)
          /\ (forall st, z ∈ zips -> truthy (GeoEnrich.g_state g) = false ->
                zl z = Some st -> truthy st = true ->
                GeoEnrich.g_state g' = st))
  /\ (z ∈ zips -> zipGeo !! z = None ->
        res !! z
        = (fun st => {| GeoEnrich.g_state := st; GeoEnrich.g_county := [] |})
            <$> zl z)
  /\ (snd (GeoEnrich.npm_fill zl zipGeo zips) <= length zips)%nat.
Proof.
  intros res. unfold res, GeoEnrich.npm_fill.
  pose proof (npm_fold_lookup zl zips z zipGeo 0%nat) as L.
  split; [|split; [|split]].
  - intros Hz. now rewrite L, bool_decide_eq_false_2.
  - intros g Hg. rewrite L, Hg. unfold Spec.supplemented.
    destruct (bool_decide (z ∈ zips)) eqn:B.
    + apply bool_decide_eq_true in B.
      destruct (zl z) as [st|] eqn:E.
      * destruct (truthy (GeoEnrich.g_state g)) eqn:T; cbn.
        -- exists g. repeat split; auto. discriminate.
        -- destruct (truthy st) eqn:T'.
           ++ eexists. split; [reflexivity|]. cbn. repeat split.
              ** discriminate.
              ** now intros st' _ _ [= <-] _.
           ++ exists g. repeat split; auto.
              intros st' _ _ [= <-] ?. congruence.
      * exists g. repeat split; auto. discriminate.
    + exists g. repeat split; auto.
      intros st Hin. apply bool_decide_eq_false in B. contradiction.
  - intros Hin Hn. now rewrite L, Hn, bool_decide_eq_true_2.
  - pose proof (npm_fold_count zl zips zipGeo 0%nat). lia.
Qed.

(** ** The counts of the summaries *)

Section Summary.
Import Spec.

Lemma sets_snoc {U} (col : U -> option jsstring) us u :
  sets col (us ++ [u])
  = (sets col us + if truthy_opt (col u) then 1 else 0)%nat.
Proof.
  unfold sets. rewrite List.filter_app, length_app. cbn [List.filter].
  now destruct (truthy_opt (col u)).
Qed.

Lemma count_where_snoc p t r :
  count_where p (t ++ [r]) = (count_where p t + if p r then 1 else 0)%nat.
Proof.
  unfold count_where. rewrite List.filter_app, length_app. cbn [List.filter].
  now destruct (p r).
Qed.

Lemma build_updates_snoc zg zm rows r :
  GeoEnrich.build_updates zg zm (rows ++ [r])
  = GeoEnrich.update_step zg zm (GeoEnrich.build_updates zg zm rows) r.
Proof. unfold GeoEnrich.build_updates. now rewrite fold_left_app. Qed.

(** a lookup that fills a field is not empty *)
Lemma fill_truthy old new :
  GeoEnrich.fill old new = true -> truthy_opt new = true.
Proof. unfold GeoEnrich.fill. now intros [_ H]%andb_true_iff. Qed.

(** X10.  The summary geo-enrich.js prints: State, County and Metro fills
    are the numbers of updates that set the column, every update sets
    at least one column, No match is the number of rows whose ZIP
    neither map has, and the rows that are in a map and have nothing to
    fill are counted nowhere. *)
Theorem update_summary_counts (zg : gmap jsstring GeoEnrich.geo)
    (zm : gmap jsstring jsstring) (rows : list row) :
  let us := fst (GeoEnrich.build_updates zg zm rows) in
  let st := snd (GeoEnrich.build_updates zg zm rows) in
  GeoEnrich.st_state st = sets GeoEnrich.u_state us
  /\ GeoEnrich.st_county st = sets GeoEnrich.u_county us
  /\ GeoEnrich.st_metro st = sets GeoEnrich.u_metro us
  /\ GeoEnrich.st_noMatch st = count_where (no_match zg zm) rows
  /\ Forall (fun u => truthy_opt (GeoEnrich.u_state u)
                      || truthy_opt (GeoEnrich.u_county u)
                      || truthy_opt (GeoEnrich.u_metro u) = true) us
  /\ (length us + GeoEnrich.st_noMatch st <= length rows)%nat.
Proof.
  induction rows as [|r rows IH] using rev_ind.
  - cbn. repeat split; auto.
  - rewrite build_updates_snoc. cbn zeta in *.
    destruct (GeoEnrich.build_updates zg zm rows) as [us st].
    cbn [fst snd] in IH. destruct IH as (I1 & I2 & I3 & I4 & I5 & I6).
    rewrite count_where_snoc, length_app. cbn [length].
    unfold GeoEnrich.update_step.
    change (negb (bool_decide (is_Some (zg !! zip_code r)))
            && negb (truthy_opt (zm !! zip_code r)))
      with (no_match zg zm r).
    destruct (no_match zg zm r) eqn:N.
    + cbn. repeat split; auto; lia.
    + set (fs := GeoEnrich.fill (state_abbr r) _).
      set (fc := GeoEnrich.fill (county_name r) _).
      set (fm := GeoEnrich.fill (metro_area r) _).
      pose proof (fill_truthy (state_abbr r)
                    (GeoEnrich.geo_state (zg !! zip_code r))) as Ts.
      pose proof (fill_truthy (county_name r)
                    (GeoEnrich.geo_county (zg !! zip_code r))) as Tc.
      pose proof (fill_truthy (metro_area r) (zm !! zip_code r)) as Tm.
      fold fs in Ts. fold fc in Tc. fold fm in Tm.
      destruct fs, fc, fm; cbn [orb fst snd GeoEnrich.st_state
        GeoEnrich.st_county GeoEnrich.st_metro GeoEnrich.st_noMatch];
        rewrite ?sets_snoc, ?length_app;
        cbn [GeoEnrich.u_state GeoEnrich.u_county GeoEnrich.u_metro
             truthy_opt length];
        rewrite ?Ts, ?Tc, ?Tm by reflexivity;
        (repeat split; [lia..| |lia]);
        try exact I5;
        (apply Forall_app; split; [exact I5|]; constructor; [|constructor];
         cbn [GeoEnrich.u_state GeoEnrich.u_county GeoEnrich.u_metro];
         rewrite ?Ts, ?Tc, ?Tm by reflexivity; reflexivity).
Qed.
End Summary.

Section MatchCounts.
Import Spec.
Variable toLowerCase : jsstring -> jsstring.

Lemma match_rows_snoc n2f f2m rows r :
  MetroEnrich.match_rows toLowerCase n2f f2m (rows ++ [r])
  = MetroEnrich.match_step toLowerCase n2f f2m
      (MetroEnrich.match_rows toLowerCase n2f f2m rows) r.
Proof. unfold MetroEnrich.match_rows. now rewrite fold_left_app. Qed.
End MatchCounts.

(** X11.  The counts the metro script prints: Matched is the number of
    updates, Unmatched the number of rows that passed the guard and
    found no metro area, and the rows the guard skips (a state that
    STATE_FIPS does not have, or no county name) are counted in
    neither: the two counts and the skipped rows add up to the rows
    selected. *)
Theorem match_counts (toLowerCase : jsstring -> jsstring)
    (n2f f2m : gmap jsstring jsstring) (rows : list row) :
  let res := MetroEnrich.match_rows toLowerCase n2f f2m rows in
  let verdict := MetroEnrich.match_row toLowerCase n2f f2m in
  snd (fst res) = length (fst (fst res))
  /\ snd res = count_where (fun r => Spec.unmatched (verdict r)) rows
  /\ (snd (fst res) + snd res
      + count_where (fun r => Spec.skipped (verdict r)) rows)%nat
     = length rows.
Proof.
  induction rows as [|r rows IH] using rev_ind; [now cbn|].
  cbn zeta in *. rewrite match_rows_snoc, !count_where_snoc, length_app.
  destruct (MetroEnrich.match_rows toLowerCase n2f f2m rows) as [[us m] um].
  cbn [fst snd length] in *. destruct IH as (I1 & I2 & I3).
  unfold MetroEnrich.match_step.
  destruct (MetroEnrich.match_row toLowerCase n2f f2m r);
    cbn [fst snd Spec.skipped Spec.unmatched]; rewrite ?length_app; cbn [length];
    repeat split; lia.
Qed.

(** ** The NBER crosswalk: cells and columns *)

Section PlainSplit.
Import Spec.

Lemma split_length sep s :
  length (split sep s)
  = S (length (List.filter (fun c => (c =? sep)%N) s)).
Proof.
  induction s as [|c s IH]; [reflexivity|].
  cbn [split List.filter]. destruct (c =? sep)%N; cbn [length].
  - now rewrite IH.
  - rewrite <- IH. now destruct (split sep s).
Qed.

Lemma unquoted_le_commas q s : (unquoted_commas q s <= commas s)%nat.
Proof.
  revert q. unfold commas.
  induction s as [|c s IH]; intros q; cbn [unquoted_commas List.filter];
    [lia|].
  destruct (N.eqb_spec c QUOTE) as [->|Hq].
  - change ((QUOTE =? COMMA)%N) with false. apply IH.
  - destruct (c =? COMMA)%N; cbn [andb length].
    + destruct q; cbn [negb]; specialize (IH true) as I1;
        specialize (IH false) as I2; lia.
    + apply IH.
Qed.

Lemma strip_quotes_clean v : Forall (fun c => c <> QUOTE) (strip_quotes v).
Proof.
  unfold strip_quotes. apply Forall_forall. intros c Hc.
  now apply list_elem_of_filter in Hc as [Hc _].
Qed.

(** the regex of the county FIPS column: its longer alternatives start
    with its shortest *)
Lemma match_prefix_app p q s r :
  match_prefix_ci (p ++ q) s = Some r ->
  exists r', match_prefix_ci p s = Some r'.
Proof.
  revert s. induction p as [|a p IH]; intros s; cbn [app match_prefix_ci].
  - eauto.
  - destruct s as [|b s]; [discriminate|].
    destruct (fold_case a =? fold_case b)%N; [apply IH|discriminate].
Qed.

Lemma test_ci_app p q s : test_ci (p ++ q) s = true -> test_ci p s = true.
Proof.
  induction s as [|b s IH]; cbn [test_ci].
  - destruct (match_prefix_ci (p ++ q) []) eqn:E; [|discriminate].
    apply match_prefix_app in E as [r' ->]. reflexivity.
  - destruct (match_prefix_ci (p ++ q) (b :: s)) eqn:E.
    + apply match_prefix_app in E as [r' ->]. reflexivity.
    + intros H. destruct (match_prefix_ci p (b :: s)); [reflexivity|].
      now apply IH.
Qed.

Lemma is_fips_col_contains h :
  MetroEnrich.is_fips_col h = test_ci (js "fips") h.
Proof.
  unfold MetroEnrich.is_fips_col.
  pose proof (test_ci_app (js "fips") (js "county") h) as A.
  pose proof (test_ci_app (js "fips") (js "code") h) as B.
  change (js "fips" ++ js "county") with (js "fipscounty") in A.
  change (js "fips" ++ js "code") with (js "fipscode") in B.
  destruct (test_ci (js "fipscounty") h); [now rewrite A|].
  destruct (test_ci (js "fipscode") h); [now rewrite B|].
  reflexivity.
Qed.

Lemma findIndex_from_ext {A} (p q : A -> bool) l : forall i,
  (forall x, p x = q x) -> findIndex_from p l i = findIndex_from q l i.
Proof.
  induction l as [|x l IH]; intros i H; cbn; [reflexivity|].
  rewrite H. destruct (q x); [reflexivity|]. now apply IH.
Qed.

Lemma findIndex_from_first {A} (p : A -> bool) pre x post : forall i,
  Forall (fun y => p y = false) pre -> p x = true ->
  findIndex_from p (pre ++ x :: post) i = i + Z.of_nat (length pre).
Proof.
  induction pre as [|y pre IH]; intros i Hpre Hx; cbn [app findIndex_from].
  - rewrite Hx. cbn. lia.
  - inversion Hpre as [|? ? Hy Hp]; subst. rewrite Hy, IH by assumption.
    cbn [length]. lia.
Qed.
End PlainSplit.

(** X12.  The rows of the NBER crosswalk are cut at every comma, quoted or
    not: a line has one cell more than it has commas, so at least as
    many as the quote-aware parser finds fields, and a quoted title
    that holds a comma takes two cells.  The cells hold no double quote
    and are trimmed. *)
Theorem split_plain_cuts_quoted_commas (line : jsstring) :
  length (MetroEnrich.split_plain line) = S (Spec.commas line)
  /\ (length (MetroEnrich.parseRow line)
      <= length (MetroEnrich.split_plain line))%nat
  /\ (length (MetroEnrich.parseRow line)
      = length (MetroEnrich.split_plain line)
      <-> Spec.unquoted_commas false line = Spec.commas line)
  /\ Forall (fun c => Forall (fun x => x <> QUOTE) c /\ trim c = c)
            (MetroEnrich.split_plain line).
Proof.
  assert (L : length (MetroEnrich.split_plain line) = S (Spec.commas line)).
  { unfold MetroEnrich.split_plain. rewrite length_map. apply split_length. }
  assert (P : length (MetroEnrich.parseRow line)
              = S (Spec.unquoted_commas false line)).
  { rewrite parseRow_same, parseRow_split, length_map.
    apply split_unquoted_length. }
  pose proof (unquoted_le_commas false line).
  split; [exact L|]. split; [lia|]. split; [lia|].
  unfold MetroEnrich.split_plain. apply Forall_map, Forall_forall.
  intros v _. split; [apply Forall_trim, strip_quotes_clean|apply trim_idem].
Qed.

(** X13.  The county FIPS column of the NBER crosswalk is the first header
    that holds fips, in any case: the longer alternatives of the regex
    never decide.  When that header holds fipsstate and no header before
    it holds statecode, it is the state column as well, and every key of
    countyFipsToMetro is then made of one cell of a row, padded to 2
    and padded to 3. *)
Theorem fips_column_is_first_fips_header
    (pre post lines : list jsstring) (h : jsstring) :
  Forall (fun x => test_ci (js "fips") x = false
                   /\ test_ci (js "statecode") x = false) pre ->
  test_ci (js "fipsstate") h = true ->
  let header := pre ++ h :: post in
  findIndex MetroEnrich.is_fips_col header = Z.of_nat (length pre)
  /\ findIndex MetroEnrich.is_state_col header = Z.of_nat (length pre)
  /\ Spec.keys_in (fun k => exists line v,
                       line ∈ tl lines
                       /\ v = MetroEnrich.cell (MetroEnrich.split_plain line)
                                (Z.of_nat (length pre))
                       /\ k = padStart 2 v ++ padStart 3 v)
       (MetroEnrich.build_countyFipsToMetro header lines).
Proof.
  intros Hpre Hh header.
  assert (F : findIndex MetroEnrich.is_fips_col header = Z.of_nat (length pre)).
  { unfold findIndex, header. rewrite findIndex_from_first; [lia| |].
    - eapply Forall_impl; [exact Hpre|]. intros x [Hx _].
      now rewrite is_fips_col_contains.
    - rewrite is_fips_col_contains.
      apply (test_ci_app (js "fips") (js "state")). exact Hh. }
  assert (S : findIndex MetroEnrich.is_state_col header = Z.of_nat (length pre)).
  { unfold findIndex, header. rewrite findIndex_from_first; [lia| |].
    - eapply Forall_impl; [exact Hpre|]. intros x [Hx Hs].
      unfold MetroEnrich.is_state_col. rewrite Hs, orb_false_r.
      destruct (test_ci (js "fipsstate") x) eqn:E; [|reflexivity].
      apply (test_ci_app (js "fips") (js "state")) in E. congruence.
    - unfold MetroEnrich.is_state_col. now rewrite Hh. }
  split; [exact F|]. split; [exact S|].
  unfold MetroEnrich.build_countyFipsToMetro. cbv zeta. rewrite F, S.
  apply keys_in_fold; [|apply keys_in_empty].
  intros m line Hl Hm. unfold MetroEnrich.fipsToMetro_step. cbv zeta.
  match goal with
  | |- context [if ?b then _ else _] => destruct b
  end; [|exact Hm].
  apply keys_in_insert; [|exact Hm]. eauto.
Qed.

Lemma fips_column_is_first_fips_header_witness :
  findIndex MetroEnrich.is_fips_col
    ([js "cbsacode"; js "cbsatitle"] ++ js "fipsstatecode"
       :: [js "fipscountycode"]) = 2
  /\ findIndex MetroEnrich.is_state_col
       ([js "cbsacode"; js "cbsatitle"] ++ js "fipsstatecode"
          :: [js "fipscountycode"]) = 2.
Proof.
  assert (H : Forall (fun x => test_ci (js "fips") x = false
                               /\ test_ci (js "statecode") x = false)
                [js "cbsacode"; js "cbsatitle"])
    by (repeat constructor).
  pose proof (fips_column_is_first_fips_header
                [js "cbsacode"; js "cbsatitle"] [js "fipscountycode"] []
                (js "fipsstatecode") H eq_refl) as T.
  split; [exact (proj1 T)|exact (proj1 (proj2 T))].
Defined.

(** ** The table after the batches *)

Section Enriched.
Import Spec.

(** *** The batches of a list of updates act as the list *)

Lemma geo_update_row_zip t vs h :
  zip_code (GeoEnrich.update_row t vs h) = zip_code h.
Proof. unfold GeoEnrich.update_row. now destruct (List.find _ vs). Qed.

Lemma find_none_zip {U} (uz : U -> jsstring) (z : jsstring) vs :
  z ∉ map uz vs -> List.find (fun v => eqb z (uz v)) vs = None.
Proof.
  induction vs as [|v vs IH]; intros H; [reflexivity|].
  cbn [List.find]. destruct (eqb z (uz v)) eqn:E.
  - apply eqb_eq in E. exfalso. apply H. cbn [map]. rewrite E. left.
  - apply IH. intros Hin. apply H. cbn [map]. now right.
Qed.

Lemma find_app_first {A} (p : A -> bool) b c :
  List.find p (b ++ c)
  = match List.find p b with Some v => Some v | None => List.find p c end.
Proof.
  induction b as [|x b IH]; [reflexivity|].
  cbn [app List.find]. now destruct (p x).
Qed.

Lemma geo_update_row_app t b c h :
  NoDup (map GeoEnrich.u_zip (b ++ c)) ->
  GeoEnrich.update_row t c (GeoEnrich.update_row t b h)
  = GeoEnrich.update_row t (b ++ c) h.
Proof.
  intros Hn. unfold GeoEnrich.update_row at 2 3. rewrite find_app_first.
  destruct (List.find _ b) as [v|] eqn:E; [|reflexivity].
  unfold GeoEnrich.update_row. cbn [zip_code].
  rewrite find_none_zip; [reflexivity|].
  apply find_zip_geo in E as [Hin Hz]. rewrite <- Hz.
  rewrite map_app in Hn. apply NoDup_app in Hn as (_ & Hd & _).
  apply Hd. now apply list_elem_of_fmap_2.
Qed.

Lemma geo_batches_table t bs : forall d,
  NoDup (map GeoEnrich.u_zip (concat bs)) ->
  fold_left (fun d b => snd (GeoEnrich.exec_update t b d)) bs d
  = map (GeoEnrich.update_row t (concat bs)) d.
Proof.
  induction bs as [|b bs IH]; intros d Hn; cbn [fold_left concat].
  - unfold GeoEnrich.update_row. cbn. now rewrite map_id.
  - cbn [concat] in Hn. rewrite IH.
    + cbn [GeoEnrich.exec_update snd]. rewrite map_map.
      apply map_ext. intros h. now apply geo_update_row_app.
    + rewrite map_app in Hn. now apply NoDup_app in Hn as (_ & _ & Hn).
Qed.

(** *** The update of a row's own ZIP *)

Variable zg : gmap jsstring GeoEnrich.geo.
Variable zm : gmap jsstring jsstring.

Lemma geo_row_update_gap r u :
  geo_row_update zg zm r = Some u -> GeoEnrich.has_gap r = true.
Proof.
  unfold geo_row_update, GeoEnrich.has_gap, GeoEnrich.fill.
  destruct (missing (state_abbr r)), (missing (county_name r)),
    (missing (metro_area r)); cbn; try reflexivity. discriminate.
Qed.

Lemma geo_updates_of_gaps rows :
  omap (geo_row_update zg zm) (List.filter GeoEnrich.has_gap rows)
  = omap (geo_row_update zg zm) rows.
Proof.
  induction rows as [|r rows IH]; [reflexivity|].
  cbn [List.filter]. destruct (GeoEnrich.has_gap r) eqn:G; cbn [omap list_omap].
  - fold (omap (geo_row_update zg zm) rows)
         (omap (geo_row_update zg zm) (List.filter GeoEnrich.has_gap rows)).
    now rewrite IH.
  - destruct (geo_row_update zg zm r) as [u|] eqn:E.
    + apply geo_row_update_gap in E. congruence.
    + exact IH.
Qed.

Lemma omap_shorter {A B} (f : A -> option B) (l : list A) :
  (length (omap f l) <= length l)%nat.
Proof.
  induction l as [|x l IH]; [reflexivity|].
  cbn [omap list_omap length]. fold (omap f l).
  destruct (f x); cbn [length]; lia.
Qed.

(** the updates derived from rows of distinct ZIPs: the update with the
    ZIP of a row is the row's own *)
Lemma omap_zips {U} (f : row -> option U) (uz : U -> jsstring) rows z :
  (forall r u, f r = Some u -> uz u = zip_code r) ->
  z ∈ map uz (omap f rows) -> z ∈ map zip_code rows.
Proof.
  intros Hf. induction rows as [|r rows IH]; [easy|].
  cbn [omap list_omap map]. fold (omap f rows).
  destruct (f r) as [u|] eqn:E; cbn [map].
  - intros [->|H]%elem_of_cons; [rewrite (Hf r u E); left|right; now apply IH].
  - intros H. right. now apply IH.
Qed.

Lemma omap_zips_NoDup {U} (f : row -> option U) (uz : U -> jsstring) rows :
  (forall r u, f r = Some u -> uz u = zip_code r) ->
  NoDup (map zip_code rows) -> NoDup (map uz (omap f rows)).
Proof.
  intros Hf. induction rows as [|r rows IH]; intros Hn; [constructor|].
  cbn [map] in Hn. apply NoDup_cons in Hn as [Hr Hn].
  cbn [omap list_omap]. fold (omap f rows).
  destruct (f r) as [u|] eqn:E; [|now apply IH].
  cbn [map]. apply NoDup_cons. split; [|now apply IH].
  intros H. apply Hr. rewrite <- (Hf r u E). eapply omap_zips; eassumption.
Qed.

Lemma find_own {U} (f : row -> option U) (uz : U -> jsstring) rows h :
  (forall r u, f r = Some u -> uz u = zip_code r) ->
  NoDup (map zip_code rows) -> h ∈ rows ->
  List.find (fun v => eqb (zip_code h) (uz v)) (omap f rows) = f h.
Proof.
  intros Hf. induction rows as [|r rows IH]; intros Hn Hh; [now inversion Hh|].
  cbn [map] in Hn. apply NoDup_cons in Hn as [Hr Hn].
  cbn [omap list_omap]. fold (omap f rows).
  apply elem_of_cons in Hh as [->|Hh].
  - destruct (f r) as [u|] eqn:E.
    + cbn [List.find]. rewrite (Hf r u E).
      now rewrite (proj2 (eqb_eq _ _) eq_refl).
    + apply find_none_zip. intros H. apply Hr. eapply omap_zips; eassumption.
  - assert (Hz : zip_code h <> zip_code r).
    { intros Hz. apply Hr. rewrite <- Hz. now apply list_elem_of_fmap_2. }
    destruct (f r) as [u|] eqn:E; [|now apply IH].
    cbn [List.find]. rewrite (Hf r u E).
    rewrite (proj2 (eqb_neq _ _) Hz). now apply IH.
Qed.

Lemma geo_row_update_zip r u :
  geo_row_update zg zm r = Some u -> GeoEnrich.u_zip u = zip_code r.
Proof. intros H. now apply geo_row_update_fills in H as [H _]. Qed.

Lemma geo_update_own t rows h :
  NoDup (map zip_code rows) -> h ∈ rows ->
  GeoEnrich.update_row t (omap (geo_row_update zg zm) rows) h
  = geo_enriched zg zm t h.
Proof.
  intros Hn Hh. unfold GeoEnrich.update_row.
  rewrite (find_own _ GeoEnrich.u_zip rows h geo_row_update_zip Hn Hh).
  unfold geo_row_update, geo_enriched. cbv zeta.
  destruct (_ || _ || _); [|reflexivity].
  cbn [GeoEnrich.u_state GeoEnrich.u_county GeoEnrich.u_metro].
  f_equal.
  - destruct (GeoEnrich.fill (state_abbr h) _) eqn:F; [|reflexivity].
    apply fill_truthy in F. unfold coalesce.
    now destruct (GeoEnrich.geo_state (zg !! zip_code h)).
  - destruct (GeoEnrich.fill (county_name h) _) eqn:F; [|reflexivity].
    apply fill_truthy in F. unfold coalesce.
    now destruct (GeoEnrich.geo_county (zg !! zip_code h)).
  - destruct (GeoEnrich.fill (metro_area h) _) eqn:F; [|reflexivity].
    apply fill_truthy in F. unfold coalesce.
    now destruct (zm !! zip_code h).
Qed.

(** the table after the statements of the batches of the update list *)
Lemma geo_batches_enrich t n fuel t0 :
  NoDup (map zip_code t0) -> (0 < n)%nat -> (length t0 <= fuel)%nat ->
  let us := fst (GeoEnrich.build_updates zg zm (GeoEnrich.select_gap_rows t0)) in
  fold_left (fun d b => snd (GeoEnrich.exec_update t b d)) (chunks fuel n us) t0
  = map (geo_enriched zg zm t) t0.
Proof.
  intros Hn Hpos Hf us.
  assert (E : us = omap (geo_row_update zg zm) t0).
  { unfold us. rewrite geo_updates_omap. apply geo_updates_of_gaps. }
  assert (Hl : (length us <= fuel)%nat).
  { rewrite E. pose proof (omap_shorter (geo_row_update zg zm) t0). lia. }
  rewrite geo_batches_table; rewrite (chunks_concat n Hpos fuel us Hl).
  - rewrite E. apply map_ext_in. intros h Hh.
    apply geo_update_own; [exact Hn|now apply list_elem_of_In].
  - rewrite E. now apply omap_zips_NoDup; [apply geo_row_update_zip|].
Qed.

(** enriching an enriched row changes nothing *)
Lemma fill_filled old new :
  GeoEnrich.fill (if GeoEnrich.fill old new then new else old) new = false.
Proof.
  unfold GeoEnrich.fill.
  destruct (missing old) eqn:M; cbn; [|now rewrite M].
  destruct (truthy_opt new) eqn:T; cbn; [|now rewrite M].
  unfold missing. now rewrite T.
Qed.

Lemma geo_enriched_fields t h :
  let e := geo_enriched zg zm t h in
  zip_code e = zip_code h
  /\ state_abbr e
     = (if GeoEnrich.fill (state_abbr h)
             (GeoEnrich.geo_state (zg !! zip_code h))
        then GeoEnrich.geo_state (zg !! zip_code h) else state_abbr h)
  /\ county_name e
     = (if GeoEnrich.fill (county_name h)
             (GeoEnrich.geo_county (zg !! zip_code h))
        then GeoEnrich.geo_county (zg !! zip_code h) else county_name h)
  /\ metro_area e
     = (if GeoEnrich.fill (metro_area h) (zm !! zip_code h)
        then zm !! zip_code h else metro_area h).
Proof.
  unfold geo_enriched. cbv zeta.
  destruct (GeoEnrich.fill (state_abbr h) _),
    (GeoEnrich.fill (county_name h) _), (GeoEnrich.fill (metro_area h) _);
    cbn; auto.
Qed.

Lemma geo_enriched_idem t h :
  geo_enriched zg zm t (geo_enriched zg zm t h) = geo_enriched zg zm t h.
Proof.
  destruct (geo_enriched_fields t h) as (Ez & Es & Ec & Em).
  cbv zeta in *. set (e := geo_enriched zg zm t h) in *.
  unfold geo_enriched. cbv zeta. rewrite Ez, Es, Ec, Em.
  now rewrite !fill_filled.
Qed.
End Enriched.

(** ** What a run leaves in the table *)

Section Yields.
Import Spec.
Context {Log Sql Db : Type}.
Implicit Types (d : Db) (s : state Log Sql Db).

Lemma yields_ret {A} (a : A) (Q : outcome A -> Db -> Prop) d :
  Q (Return a) d -> yields (Log:=Log) (Sql:=Sql) d (ret a) Q.
Proof. intros H s <-. exact H. Qed.

Lemma yields_log (l : Log) (Q : outcome unit -> Db -> Prop) d :
  Q (Return tt) d -> yields (Sql:=Sql) d (log l) Q.
Proof. intros H s <-. exact H. Qed.

Lemma yields_pool_end (Q : outcome unit -> Db -> Prop) d :
  Q (Return tt) d -> yields (Log:=Log) (Sql:=Sql) d pool_end Q.
Proof. intros H s <-. exact H. Qed.

Lemma yields_download w url (Q : outcome jsstring -> Db -> Prop) d :
  (forall data, fetch w url = Settled (inr data) -> Q (Return data) d) ->
  (forall e, fetch w url = Settled (inl e) -> Q (Throw e) d) ->
  (forall h, fetch w url = Unsettled h -> Q (Halt h) d) ->
  yields (Log:=Log) (Sql:=Sql) d (download w url) Q.
Proof.
  intros H1 H2 H3 s <-. unfold download.
  destruct (fetch w url) as [[e|data]|h]; cbn; auto.
Qed.

Lemma yields_query_ok {A} w (q : Sql) (f : Db -> A * Db)
    (Q : outcome A -> Db -> Prop) d :
  (forall n, query_error w n = None) ->
  Q (Return (fst (f d))) (snd (f d)) ->
  yields (Log:=Log) d (pool_query w q f) Q.
Proof.
  intros Hok H s <-. unfold pool_query. rewrite Hok.
  now destruct (f (db s)).
Qed.

Lemma yields_bind {A B} (m : M Log Sql Db A) (k : A -> M Log Sql Db B) Q d :
  yields d m (fun r d' =>
                match r with
                | Return a => yields d' (k a) Q
                | Throw e => Q (Throw e) d'
                | OutOfFuel => Q OutOfFuel d'
                | Halt h => Q (Halt h) d'
                end) ->
  yields d (bind m k) Q.
Proof.
  intros H s Hs. specialize (H s Hs). unfold bind.
  destruct (m s) as [[a|e| |hl] s1]; cbn in *; auto.
Qed.

Lemma yields_try_catch {A} (m : M Log Sql Db A) (h : exn -> M Log Sql Db A)
    Q d :
  yields d m (fun r d' =>
                match r with
                | Throw e => yields d' (h e) Q
                | _ => Q r d'
                end) ->
  yields d (try_catch m h) Q.
Proof.
  intros H s Hs. specialize (H s Hs). unfold try_catch.
  destruct (m s) as [[a|e| |hl] s1]; cbn in *; auto.
Qed.

Lemma yields_conseq {A} (m : M Log Sql Db A) (Q Q' : outcome A -> Db -> Prop) d :
  yields d m Q -> (forall r d', Q r d' -> Q' r d') -> yields d m Q'.
Proof. intros H HQ s Hs. apply HQ, H, Hs. Qed.

Lemma yields_for_each_log {A} (l : list A) (f : A -> Log)
    (Q : outcome unit -> Db -> Prop) d :
  Q (Return tt) d ->
  yields (Sql:=Sql) d (for_each l (fun x => log (f x))) Q.
Proof.
  induction l as [|x l IH]; intros H; cbn [for_each].
  - now apply yields_ret.
  - apply yields_bind, yields_log. now apply IH.
Qed.

(** the loop over the batches, when every turn applies its batch to
    the table by [F] *)
Lemma yields_for_batches {U} (F : list U -> Db -> Db)
    (body : Z -> list U -> Z -> M Log Sql Db Z) (l : list U) (step : Z) :
  (forall i b acc d,
      yields d (body i b acc)
             (fun r d' => (exists acc', r = Return acc') /\ d' = F b d)) ->
  0 < step ->
  forall fuel i acc d,
    0 <= i -> (length (skipn (Z.to_nat i) l) <= fuel)%nat ->
    yields d (for_batches fuel step l body i acc)
           (fun r d' =>
              (exists acc', r = Return acc')
              /\ d' = fold_left (fun d b => F b d)
                        (chunks fuel (Z.to_nat step) (skipn (Z.to_nat i) l)) d).
Proof.
  intros Hb Hs. induction fuel as [|fuel IH]; intros i acc d Hi Hf.
  - assert (E : skipn (Z.to_nat i) l = [])
      by (destruct (skipn _ l); [easy|cbn in Hf; lia]).
    rewrite E. apply (f_equal (@length U)) in E. rewrite length_skipn in E.
    cbn [length] in E.
    cbn [for_batches]. destruct (Z.ltb_spec i (Z.of_nat (length l))); [lia|].
    apply yields_ret. split; [eauto|reflexivity].
  - cbn [for_batches].
    destruct (Z.ltb_spec i (Z.of_nat (length l))) as [Hlt|Hge].
    + destruct (skipn (Z.to_nat i) l) as [|x r] eqn:E.
      { apply (f_equal (@length U)) in E. rewrite length_skipn in E.
        cbn in E. lia. }
      cbn [chunks]. rewrite <- E.
      apply yields_bind. eapply yields_conseq; [apply Hb|].
      intros r0 d0 [[acc' ->] ->].
      eapply yields_conseq; [apply (IH (i + step) acc')|]; try lia.
      * rewrite length_skipn. cbn in Hf.
        apply (f_equal (@length U)) in E. rewrite length_skipn in E.
        cbn in E. lia.
      * intros r1 d1 [Hr ->]. split; [exact Hr|].
        cbn [fold_left]. rewrite slice_chunk by lia.
        rewrite skipn_skipn, Nat.add_comm, <- Z2Nat.inj_add by lia.
        reflexivity.
    + assert (E : skipn (Z.to_nat i) l = []) by (apply skipn_all2; lia).
      rewrite E. apply yields_ret. split; [eauto|].
      now destruct fuel.
Qed.
End Yields.

(** One step of a run that leaves a table. *)
Ltac run_step H :=
  lazymatch goal with
  | |- Spec.yields _ (mbind _ _) _ => apply yields_bind
  | |- Spec.yields _ (Run.bind _ _) _ => apply yields_bind
  | |- Spec.yields _ (Run.try_catch _ _) _ => apply yields_try_catch
  | |- Spec.yields _ (Run.log _) _ => apply yields_log
  | |- Spec.yields _ (mret _) _ => apply yields_ret
  | |- Spec.yields _ (Run.ret _) _ => apply yields_ret
  | |- Spec.yields _ Run.pool_end _ => apply yields_pool_end
  | |- Spec.yields _ (Run.download _ _) _ =>
      apply yields_download; [intros ? ?|intros ? ?|intros ? ?]
  | |- Spec.yields _ (Run.pool_query _ _ _) _ =>
      apply (yields_query_ok _ _ _ _ _ H)
  | |- Spec.yields _ (Run.for_each _ _) _ => apply yields_for_each_log
  | |- Spec.yields _ (if ?b then _ else _) _ => destruct b eqn:?
  end; cbn beta iota zeta delta [fst snd].

Ltac run H := repeat run_step H.

Section GeoResult.
Import Spec.
Variable zipcodes_lookup : jsstring -> option jsstring.
Variable w : world.
Hypothesis no_reject : forall n, query_error w n = None.
Hypothesis settle_csv : settles w GeoEnrich.csvUrl.
Hypothesis settle_cbsa : settles w GeoEnrich.cbsaUrl.
Hypothesis settle_names : settles w GeoEnrich.namesUrl.

Lemma yields_run_main {Log Sql Db} (fatal : exn -> Log)
    (main : M Log Sql Db unit) (Q : outcome unit -> Db -> Prop) (d : Db) :
  yields d main Q ->
  Q (fst (run_main fatal main d)) (db (snd (run_main fatal main d))).
Proof.
  intros H. unfold run_main.
  specialize (H {| db := d; trace := []; sent := 0 |} eq_refl).
  now destruct (main _) as [[a|e| |hl] s].
Qed.

Lemma geo_zipGeo_yields d :
  yields d (GeoEnrich.step_zipGeo w)
         (fun r d' => r = Return (downloaded_zipGeo w) /\ d' = d).
Proof.
  unfold GeoEnrich.step_zipGeo, downloaded_zipGeo.
  run no_reject; try settled_path;
    match goal with H : fetch _ _ = _ |- _ => rewrite H end; now split.
Qed.

Lemma geo_names_yields cbsaCodes d :
  yields d (GeoEnrich.step_names w cbsaCodes)
         (fun r d' => r = Return (downloaded_names w cbsaCodes) /\ d' = d).
Proof.
  unfold GeoEnrich.step_names, downloaded_names.
  run no_reject; try settled_path;
    match goal with H : fetch _ _ = _ |- _ => rewrite H end;
    cbv zeta;
    repeat match goal with H : _ = _ |- _ => rewrite H end; now split.
Qed.

Lemma geo_zipMetro_yields d :
  yields d (GeoEnrich.step_zipMetro w)
         (fun r d' => r = Return (downloaded_zipMetro w) /\ d' = d).
Proof.
  unfold GeoEnrich.step_zipMetro, downloaded_zipMetro.
  run no_reject; try settled_path;
    try (eapply yields_conseq; [apply geo_names_yields|];
         intros r d' [-> ->]; run no_reject);
    match goal with H : fetch _ GeoEnrich.cbsaUrl = _ |- _ => rewrite H end;
    cbv zeta;
    repeat match goal with H : (_ >=? _) = _ |- _ => rewrite H end;
    now split.
Qed.

Lemma geo_turn_yields updates i b acc d :
  yields d (GeoEnrich.batch_body w updates i b acc)
         (fun r d' => (exists acc', r = Return acc')
                      /\ d' = snd (GeoEnrich.exec_update (now w) b d)).
Proof.
  unfold GeoEnrich.batch_body. run no_reject. rewrite unnest4_maps.
  split; [eauto|reflexivity].
Qed.

Lemma geo_live_yields fuel g updates d :
  0 < GeoEnrich.BATCH_SIZE w -> (length updates <= fuel)%nat ->
  yields d (GeoEnrich.live_run w fuel g updates)
         (fun r d' =>
            r = Return tt
            /\ d' = fold_left
                      (fun d b => snd (GeoEnrich.exec_update (now w) b d))
                      (chunks fuel (Z.to_nat (GeoEnrich.BATCH_SIZE w)) updates)
                      d).
Proof.
  intros HB Hf. unfold GeoEnrich.live_run. run no_reject.
  eapply yields_conseq.
  - apply (yields_for_batches
             (fun b d => snd (GeoEnrich.exec_update (now w) b d)));
      [intros; apply geo_turn_yields|exact HB|lia|exact Hf].
  - intros r d' [[acc ->] ->]. run no_reject. now split.
Qed.

Lemma geo_main_yields fuel t0 :
  GeoEnrich.DRY_RUN w = false -> 0 < GeoEnrich.BATCH_SIZE w ->
  NoDup (map zip_code t0) -> (length t0 <= fuel)%nat ->
  yields t0 (GeoEnrich.main zipcodes_lookup w fuel)
         (fun r d' =>
            r = Return tt
            /\ d' = map (geo_enriched (supplemented_zipGeo zipcodes_lookup w t0)
                           (downloaded_zipMetro w) (now w)) t0).
Proof.
  intros Hd HB Hn Hf. unfold GeoEnrich.main. rewrite Hd.
  run no_reject.
  eapply yields_conseq; [apply geo_zipGeo_yields|]. intros r d' [-> ->].
  run no_reject.
  eapply yields_conseq; [apply geo_zipMetro_yields|]. intros r d' [-> ->].
  run no_reject.
  eapply yields_conseq; [apply geo_live_yields; [exact HB|]|].
  - rewrite geo_updates_omap.
    pose proof (omap_shorter
                  (geo_row_update
                     (fst (GeoEnrich.npm_fill zipcodes_lookup
                             (downloaded_zipGeo w)
                             (GeoEnrich.select_distinct_zips t0)))
                     (downloaded_zipMetro w))
                  (GeoEnrich.select_gap_rows t0)) as L1.
    assert (length (GeoEnrich.select_gap_rows t0) <= length t0)%nat
      by apply List.filter_length_le.
    lia.
  - intros r d' [-> ->]. split; [reflexivity|].
    apply geo_batches_enrich; [exact Hn|lia|exact Hf].
Qed.
End GeoResult.

Section MetroEnriched.
Import Spec.
Variable toLowerCase toUpperCase : jsstring -> jsstring.

Lemma metro_update_row_app t b c h :
  NoDup (map MetroEnrich.u_zip (b ++ c)) ->
  MetroEnrich.update_row t c (MetroEnrich.update_row t b h)
  = MetroEnrich.update_row t (b ++ c) h.
Proof.
  intros Hn. unfold MetroEnrich.update_row at 2 3. rewrite find_app_first.
  destruct (List.find _ b) as [v|] eqn:E; [|reflexivity].
  unfold MetroEnrich.update_row. cbn [zip_code].
  rewrite find_none_zip; [reflexivity|].
  apply find_zip_metro in E as [Hin Hz]. rewrite <- Hz.
  rewrite map_app in Hn. apply NoDup_app in Hn as (_ & Hd & _).
  apply Hd. now apply list_elem_of_fmap_2.
Qed.

Lemma metro_batches_table t bs : forall d,
  NoDup (map MetroEnrich.u_zip (concat bs)) ->
  fold_left (fun d b => snd (MetroEnrich.exec_update t b d)) bs d
  = map (MetroEnrich.update_row t (concat bs)) d.
Proof.
  induction bs as [|b bs IH]; intros d Hn; cbn [fold_left concat].
  - unfold MetroEnrich.update_row. cbn. now rewrite map_id.
  - cbn [concat] in Hn. rewrite IH.
    + cbn [MetroEnrich.exec_update snd]. rewrite map_map.
      apply map_ext. intros h. now apply metro_update_row_app.
    + rewrite map_app in Hn. now apply NoDup_app in Hn as (_ & _ & Hn).
Qed.

Lemma omap_filter {A B} (f : A -> option B) (p : A -> bool) (l : list A) :
  omap f (List.filter p l) = omap (fun x => if p x then f x else None) l.
Proof.
  induction l as [|x l IH]; [reflexivity|].
  cbn [List.filter omap list_omap].
  fold (omap (fun x => if p x then f x else None) l).
  destruct (p x); cbn [omap list_omap];
    fold (omap f (List.filter p l)); now rewrite IH.
Qed.

Variable n2f f2m : gmap jsstring jsstring.

Local Abbreviation own_update := (selected_update toLowerCase n2f f2m).

Lemma selected_update_zip r u :
  own_update r = Some u -> MetroEnrich.u_zip u = zip_code r.
Proof.
  unfold selected_update. destruct (_ && _); [|discriminate].
  destruct (MetroEnrich.match_row toLowerCase n2f f2m r) eqn:E;
    try discriminate.
  intros [= <-]. eapply metro_match_zip, E.
Qed.

Lemma metro_updates_selected t0 :
  fst (fst (MetroEnrich.match_rows toLowerCase n2f f2m
              (MetroEnrich.select_zips t0)))
  = omap own_update t0.
Proof.
  rewrite metro_updates_omap. unfold MetroEnrich.select_zips.
  apply omap_filter.
Qed.

Lemma metro_update_own t rows h :
  NoDup (map zip_code rows) -> h ∈ rows ->
  MetroEnrich.update_row t (omap own_update rows) h
  = metro_enriched toLowerCase n2f f2m t h.
Proof.
  intros Hn Hh. unfold MetroEnrich.update_row.
  rewrite (find_own _ MetroEnrich.u_zip rows h selected_update_zip Hn Hh).
  unfold selected_update, metro_enriched.
  destruct (_ && _); [|reflexivity].
  now destruct (MetroEnrich.match_row toLowerCase n2f f2m h).
Qed.

Lemma metro_batches_enrich t n fuel t0 :
  NoDup (map zip_code t0) -> (0 < n)%nat -> (length t0 <= fuel)%nat ->
  let us := fst (fst (MetroEnrich.match_rows toLowerCase n2f f2m
                        (MetroEnrich.select_zips t0))) in
  fold_left (fun d b => snd (MetroEnrich.exec_update t b d))
            (chunks fuel n us) t0
  = map (metro_enriched toLowerCase n2f f2m t) t0.
Proof.
  intros Hn Hpos Hf us.
  assert (E : us = omap own_update t0) by apply metro_updates_selected.
  assert (Hl : (length us <= fuel)%nat).
  { rewrite E. pose proof (omap_shorter own_update t0). lia. }
  rewrite metro_batches_table; rewrite (chunks_concat n Hpos fuel us Hl).
  - rewrite E. apply map_ext_in. intros h Hh.
    apply metro_update_own; [exact Hn|now apply list_elem_of_In].
  - rewrite E. now apply omap_zips_NoDup; [apply selected_update_zip|].
Qed.

(** a matched row has a metro area that is not empty *)
Lemma matched_truthy r u :
  MetroEnrich.match_row toLowerCase n2f f2m r = MetroEnrich.Matched u ->
  truthy (MetroEnrich.u_metro u) = true.
Proof.
  unfold MetroEnrich.match_row.
  destruct (state_abbr r); [|discriminate].
  destruct (_ || _); [discriminate|].
  destruct (truthy_opt (MetroEnrich.find_fips _ _ _)); [|discriminate].
  destruct (f2m !! _) as [m|] eqn:E; cbn; [|discriminate].
  destruct (truthy m) eqn:T; [|discriminate]. now intros [= <-].
Qed.

Lemma metro_enriched_idem t h :
  metro_enriched toLowerCase n2f f2m t (metro_enriched toLowerCase n2f f2m t h)
  = metro_enriched toLowerCase n2f f2m t h.
Proof.
  unfold metro_enriched at 2.
  destruct (_ && _) eqn:S; [|unfold metro_enriched; now rewrite S].
  destruct (MetroEnrich.match_row toLowerCase n2f f2m h) as [|u|] eqn:E;
    try (unfold metro_enriched; now rewrite S, E).
  unfold metro_enriched. cbn [state_abbr metro_area].
  unfold missing at 2. cbn [truthy_opt].
  rewrite (matched_truthy h u E). cbn [negb].
  now rewrite andb_false_r, S, E.
Qed.
End MetroEnriched.

Section MetroResult.
Import Spec.
Variable toLowerCase toUpperCase : jsstring -> jsstring.
Variable w : world.
Hypothesis no_reject : forall n, query_error w n = None.
Hypothesis settle_nber : settles w MetroEnrich.nberUrl.
Hypothesis settle_fips : settles w MetroEnrich.fipsUrl.

Lemma metro_cbsa_yields d :
  yields d (MetroEnrich.step_countyFipsToMetro w)
         (fun r d' => r = Return (downloaded_countyFipsToMetro w) /\ d' = d).
Proof.
  unfold MetroEnrich.step_countyFipsToMetro, downloaded_countyFipsToMetro.
  run no_reject; try settled_path;
    match goal with
    | H : fetch _ MetroEnrich.nberUrl = _ |- _ => rewrite H
    end; now split.
Qed.

Lemma metro_names_yields d :
  yields d (MetroEnrich.step_countyNameToFips toLowerCase toUpperCase w)
         (fun r d' =>
            r = Return (downloaded_countyNameToFips toLowerCase toUpperCase w)
            /\ d' = d).
Proof.
  unfold MetroEnrich.step_countyNameToFips, downloaded_countyNameToFips.
  run no_reject; try settled_path;
    match goal with H : fetch _ _ = _ |- _ => rewrite H end; now split.
Qed.

Lemma metro_turn_yields updates i b acc d :
  yields d (MetroEnrich.batch_body w updates i b acc)
         (fun r d' => (exists acc', r = Return acc')
                      /\ d' = snd (MetroEnrich.exec_update (now w) b d)).
Proof.
  unfold MetroEnrich.batch_body. run no_reject. rewrite unnest2_maps.
  split; [eauto|reflexivity].
Qed.

Lemma metro_live_yields fuel updates d :
  (length updates <= fuel)%nat ->
  yields d (MetroEnrich.live_run w fuel updates)
         (fun r d' =>
            r = Return tt
            /\ d' = fold_left
                      (fun d b => snd (MetroEnrich.exec_update (now w) b d))
                      (chunks fuel 500 updates) d).
Proof.
  intros Hf. unfold MetroEnrich.live_run. run no_reject.
  eapply yields_conseq.
  - apply (yields_for_batches
             (fun b d => snd (MetroEnrich.exec_update (now w) b d)));
      [intros; apply metro_turn_yields|reflexivity|lia|exact Hf].
  - intros r d' [[acc ->] ->]. run no_reject. now split.
Qed.

(** with no CBSA map no row is matched *)
Lemma metro_enriched_empty n2f t r :
  metro_enriched toLowerCase n2f ∅ t r = r.
Proof.
  unfold metro_enriched. destruct (_ && _); [|reflexivity].
  destruct (MetroEnrich.match_row toLowerCase n2f ∅ r) as [|u|] eqn:E;
    try reflexivity.
  exfalso. revert E. unfold MetroEnrich.match_row.
  destruct (state_abbr r); [|discriminate].
  destruct (_ || _); [discriminate|].
  destruct (truthy_opt (MetroEnrich.find_fips _ _ _)); [|discriminate].
  rewrite lookup_empty. discriminate.
Qed.

Lemma metro_main_yields fuel t0 :
  MetroEnrich.DRY_RUN w = false ->
  NoDup (map zip_code t0) -> (length t0 <= fuel)%nat ->
  yields t0 (MetroEnrich.main toLowerCase toUpperCase w fuel)
         (fun r d' =>
            r = Return tt
            /\ d' = map (metro_enriched toLowerCase
                           (downloaded_countyNameToFips toLowerCase toUpperCase w)
                           (downloaded_countyFipsToMetro w) (now w)) t0).
Proof.
  intros Hd Hn Hf. unfold MetroEnrich.main. run no_reject.
  eapply yields_conseq; [apply metro_cbsa_yields|]. intros r d' [-> ->].
  run no_reject.
  - split; [reflexivity|].
    match goal with
    | H : (size _ =? 0)%nat = true |- _ =>
        apply Nat.eqb_eq, map_size_empty_iff in H; rewrite H
    end.
    rewrite (map_ext _ id); [now rewrite map_id|].
    intros r. apply metro_enriched_empty.
  - unfold MetroEnrich.enrich. rewrite Hd. run no_reject.
    eapply yields_conseq; [apply metro_names_yields|]. intros r d' [-> ->].
    run no_reject.
    eapply yields_conseq; [apply metro_live_yields|].
    + rewrite metro_updates_selected.
      pose proof (omap_shorter
                    (selected_update toLowerCase
                       (downloaded_countyNameToFips toLowerCase toUpperCase w)
                       (downloaded_countyFipsToMetro w)) t0).
      lia.
    + intros r d' [-> ->]. split; [reflexivity|].
      apply (metro_batches_enrich toLowerCase _ _ (now w) 500 fuel t0 Hn);
        [lia|exact Hf].
Qed.
End MetroResult.

(** X15.  A live run of geo-enrich.js in which no statement is rejected
    and each of the three downloads settles (delivers or fails), on a
    table whose ZIPs are pairwise different and with a positive batch
    size, returns and leaves each row enriched from the two lookup maps:
    a column that was null or empty has the value the map has for the
    row's ZIP, if the map has one that is not empty, every other column
    is as it was, and updated_at changes exactly for the rows of which a
    column was filled.  The maps are those of the downloads (empty for a
    failed one), the ZIP-to-county map supplemented from the zipcodes
    package. *)
Theorem geo_live_run_enriches
    (zl : jsstring -> option jsstring) (w : world) (fuel : nat)
    (t0 : list row) :
  (forall n, query_error w n = None) -> Spec.geo_settle w ->
  GeoEnrich.DRY_RUN w = false -> 0 < GeoEnrich.BATCH_SIZE w ->
  NoDup (map zip_code t0) -> (length t0 <= fuel)%nat ->
  fst (GeoEnrich.script zl w fuel t0) = Return tt
  /\ db (snd (GeoEnrich.script zl w fuel t0))
     = map (Spec.geo_enriched (Spec.supplemented_zipGeo zl w t0)
              (Spec.downloaded_zipMetro w) (now w)) t0.
Proof.
  intros Hq (S1 & S2 & S3) Hd HB Hn Hf.
  exact (yields_run_main GeoEnrich.LFatal _ _ t0
           (geo_main_yields zl w Hq S1 S2 S3 fuel t0 Hd HB Hn Hf)).
Qed.

Lemma geo_live_run_enriches_witness :
  NoDup (map zip_code Examples.table)
  /\ Spec.geo_settle (Examples.online Examples.live_args)
  /\ fst Examples.geo_online_live = Return tt
  /\ map state_abbr (db (snd Examples.geo_online_live))
     = [Some (js "AL"); Some (js "CA"); Some (js "TX"); Some (js "AK");
        Some (js "NY")]
  /\ map metro_area (db (snd Examples.geo_online_live))
     = [None; Some (js "Los Angeles Metro"); None; None;
        Some (js "New York Metro")].
Proof.
  assert (Hn : NoDup (map zip_code Examples.table))
    by (apply (bool_decide_unpack _); vm_compute; reflexivity).
  assert (Hs : Spec.geo_settle (Examples.online Examples.live_args))
    by (repeat split; eexists; vm_compute; reflexivity).
  destruct (geo_live_run_enriches Examples.zipcodes_lookup
              (Examples.online Examples.live_args) 10 Examples.table
              ltac:(reflexivity) Hs eq_refl eq_refl Hn ltac:(simpl; lia))
    as [Hr Hdb].
  split; [exact Hn|]. split; [exact Hs|]. split; [exact Hr|].
  unfold Examples.geo_online_live. rewrite Hdb.
  split; vm_compute; reflexivity.
Defined.

Lemma geo_enriched_zips zg zm t t0 :
  map zip_code (map (Spec.geo_enriched zg zm t) t0) = map zip_code t0.
Proof.
  rewrite map_map. apply map_ext. intros r.
  apply (geo_enriched_fields zg zm t r).
Qed.

(** X16.  Running geo-enrich.js again on the table a live run has left (the
    same downloads, each of which settles, no statement rejected, ZIPs
    pairwise different, a positive batch size) returns and changes
    nothing, not even
    updated_at: the first run has filled all it can. *)
Theorem geo_second_run_changes_nothing
    (zl : jsstring -> option jsstring) (w : world) (fuel : nat)
    (t0 : list row) :
  (forall n, query_error w n = None) -> Spec.geo_settle w ->
  GeoEnrich.DRY_RUN w = false -> 0 < GeoEnrich.BATCH_SIZE w ->
  NoDup (map zip_code t0) -> (length t0 <= fuel)%nat ->
  let t1 := db (snd (GeoEnrich.script zl w fuel t0)) in
  fst (GeoEnrich.script zl w fuel t1) = Return tt
  /\ db (snd (GeoEnrich.script zl w fuel t1)) = t1.
Proof.
  intros Hq (S1 & S2 & S3) Hd HB Hn Hf t1.
  pose proof (yields_run_main GeoEnrich.LFatal _ _ t0
                (geo_main_yields zl w Hq S1 S2 S3 fuel t0 Hd HB Hn Hf))
    as [_ E1].
  fold (GeoEnrich.script zl w fuel t0) in E1. fold t1 in E1.
  assert (Hz : map zip_code t1 = map zip_code t0)
    by (rewrite E1; apply geo_enriched_zips).
  assert (Hn1 : NoDup (map zip_code t1)) by now rewrite Hz.
  assert (Hf1 : (length t1 <= fuel)%nat).
  { rewrite <- (length_map zip_code), Hz, length_map. exact Hf. }
  pose proof (yields_run_main GeoEnrich.LFatal _ _ t1
                (geo_main_yields zl w Hq S1 S2 S3 fuel t1 Hd HB Hn1 Hf1))
    as [R2 E2].
  fold (GeoEnrich.script zl w fuel t1) in R2, E2.
  split; [exact R2|]. rewrite E2.
  unfold Spec.supplemented_zipGeo, GeoEnrich.select_distinct_zips.
  rewrite Hz. fold (GeoEnrich.select_distinct_zips t0).
  fold (Spec.supplemented_zipGeo zl w t0).
  rewrite E1 at 1. rewrite map_map. rewrite E1.
  apply map_ext. intros r. apply geo_enriched_idem.
Qed.

Lemma geo_second_run_changes_nothing_witness :
  NoDup (map zip_code Examples.table)
  /\ Spec.geo_settle (Examples.online Examples.live_args)
  /\ db (snd (GeoEnrich.script Examples.zipcodes_lookup
                (Examples.online Examples.live_args) 10
                (db (snd Examples.geo_online_live))))
     = db (snd Examples.geo_online_live).
Proof.
  assert (Hn : NoDup (map zip_code Examples.table))
    by (apply (bool_decide_unpack _); vm_compute; reflexivity).
  assert (Hs : Spec.geo_settle (Examples.online Examples.live_args))
    by (repeat split; eexists; vm_compute; reflexivity).
  split; [exact Hn|]. split; [exact Hs|].
  exact (proj2 (geo_second_run_changes_nothing Examples.zipcodes_lookup
                  (Examples.online Examples.live_args) 10 Examples.table
                  ltac:(reflexivity) Hs eq_refl eq_refl Hn ltac:(simpl; lia))).
Defined.

(** X17.  A live run of the metro script in which no statement is rejected
    and each download (the NBER crosswalk and the county FIPS master)
    settles, on a table whose ZIPs are pairwise different, returns and leaves
    each row enriched: a row with a state and without metro area that
    is matched has the metro title of its county and the time of the
    UPDATE, every other row and column is as it was.  This holds also
    when the script stops for want of CBSA data: then no row is
    matched. *)
Theorem metro_live_run_enriches
    (toLowerCase toUpperCase : jsstring -> jsstring) (w : world)
    (fuel : nat) (t0 : list row) :
  (forall n, query_error w n = None) -> Spec.metro_settle w ->
  MetroEnrich.DRY_RUN w = false ->
  NoDup (map zip_code t0) -> (length t0 <= fuel)%nat ->
  fst (MetroEnrich.script toLowerCase toUpperCase w fuel t0) = Return tt
  /\ db (snd (MetroEnrich.script toLowerCase toUpperCase w fuel t0))
     = map (Spec.metro_enriched toLowerCase
              (Spec.downloaded_countyNameToFips toLowerCase toUpperCase w)
              (Spec.downloaded_countyFipsToMetro w) (now w)) t0.
Proof.
  intros Hq (S1 & S2) Hd Hn Hf.
  exact (yields_run_main MetroEnrich.LFatal _ _ t0
           (metro_main_yields toLowerCase toUpperCase w Hq S1 S2 fuel t0
              Hd Hn Hf)).
Qed.

Lemma metro_live_run_enriches_witness :
  NoDup (map zip_code Examples.table)
  /\ Spec.metro_settle (Examples.online Examples.live_args)
  /\ fst Examples.metro_online_live = Return tt
  /\ map metro_area (db (snd Examples.metro_online_live))
     = [None; Some (js "Los Angeles Metro"); Some (js "Abilene TX"); None;
        Some (js "New York Metro")].
Proof.
  assert (Hn : NoDup (map zip_code Examples.table))
    by (apply (bool_decide_unpack _); vm_compute; reflexivity).
  assert (Hs : Spec.metro_settle (Examples.online Examples.live_args))
    by (repeat split; eexists; vm_compute; reflexivity).
  destruct (metro_live_run_enriches Examples.ascii_lower Examples.ascii_upper
              (Examples.online Examples.live_args) 10 Examples.table
              ltac:(reflexivity) Hs eq_refl Hn ltac:(simpl; lia))
    as [Hr Hdb].
  split; [exact Hn|]. split; [exact Hs|]. split; [exact Hr|].
  unfold Examples.metro_online_live. rewrite Hdb.
  vm_compute. reflexivity.
Defined.

(** X18.  Running the metro script again on the table a live run has left
    (the same downloads, each of which settles, no statement rejected,
    ZIPs pairwise different) returns and changes nothing: the rows it matched have a metro area now and are
    no longer selected. *)
Theorem metro_second_run_changes_nothing
    (toLowerCase toUpperCase : jsstring -> jsstring) (w : world)
    (fuel : nat) (t0 : list row) :
  (forall n, query_error w n = None) -> Spec.metro_settle w ->
  MetroEnrich.DRY_RUN w = false ->
  NoDup (map zip_code t0) -> (length t0 <= fuel)%nat ->
  let t1 := db (snd (MetroEnrich.script toLowerCase toUpperCase w fuel t0)) in
  fst (MetroEnrich.script toLowerCase toUpperCase w fuel t1) = Return tt
  /\ db (snd (MetroEnrich.script toLowerCase toUpperCase w fuel t1)) = t1.
Proof.
  intros Hq (S1 & S2) Hd Hn Hf t1.
  pose proof (yields_run_main MetroEnrich.LFatal _ _ t0
                (metro_main_yields toLowerCase toUpperCase w Hq S1 S2 fuel t0
                   Hd Hn Hf)) as [_ E1].
  fold (MetroEnrich.script toLowerCase toUpperCase w fuel t0) in E1.
  fold t1 in E1.
  assert (Hz : map zip_code t1 = map zip_code t0).
  { rewrite E1, map_map. apply map_ext. intros r.
    unfold Spec.metro_enriched. destruct (_ && _); [|reflexivity].
    now destruct (MetroEnrich.match_row _ _ _ r). }
  assert (Hn1 : NoDup (map zip_code t1)) by now rewrite Hz.
  assert (Hf1 : (length t1 <= fuel)%nat).
  { rewrite <- (length_map zip_code), Hz, length_map. exact Hf. }
  pose proof (yields_run_main MetroEnrich.LFatal _ _ t1
                (metro_main_yields toLowerCase toUpperCase w Hq S1 S2 fuel t1
                   Hd Hn1 Hf1)) as [R2 E2].
  fold (MetroEnrich.script toLowerCase toUpperCase w fuel t1) in R2, E2.
  split; [exact R2|]. rewrite E2.
  rewrite E1 at 1. rewrite map_map. rewrite E1.
  apply map_ext. intros r. apply metro_enriched_idem.
Qed.

Lemma metro_second_run_changes_nothing_witness :
  NoDup (map zip_code Examples.table)
  /\ Spec.metro_settle (Examples.online Examples.live_args)
  /\ db (snd (MetroEnrich.script Examples.ascii_lower Examples.ascii_upper
                (Examples.online Examples.live_args) 10
                (db (snd Examples.metro_online_live))))
     = db (snd Examples.metro_online_live).
Proof.
  assert (Hn : NoDup (map zip_code Examples.table))
    by (apply (bool_decide_unpack _); vm_compute; reflexivity).
  assert (Hs : Spec.metro_settle (Examples.online Examples.live_args))
    by (repeat split; eexists; vm_compute; reflexivity).
  split; [exact Hn|]. split; [exact Hs|].
  exact (proj2 (metro_second_run_changes_nothing
                  Examples.ascii_lower Examples.ascii_upper
                  (Examples.online Examples.live_args) 10 Examples.table
                  ltac:(reflexivity) Hs eq_refl Hn ltac:(simpl; lia))).
Defined.

(** ** Counties found by name *)

Section CountyNames.
Import Spec.
Variable toLowerCase toUpperCase : jsstring -> jsstring.

Lemma nameToFips_step_keeps a b c m line k :
  is_Some (m !! k) ->
  is_Some (MetroEnrich.nameToFips_step toLowerCase toUpperCase a b c m line !! k).
Proof.
  intros H. unfold MetroEnrich.nameToFips_step. cbv zeta.
  match goal with
  | |- context [if ?x then _ else _] => destruct x
  end; [|exact H].
  rewrite !lookup_insert_is_Some'. auto.
Qed.

Lemma nameToFips_fold_keeps a b c ls : forall m k,
  is_Some (m !! k) ->
  is_Some (fold_left (MetroEnrich.nameToFips_step toLowerCase toUpperCase a b c)
             ls m !! k).
Proof.
  induction ls as [|l ls IH]; intros m k H; [exact H|].
  cbn [fold_left]. now apply IH, nameToFips_step_keeps.
Qed.

Lemma nameToFips_fold_has a b c ls line : forall m,
  line ∈ ls ->
  let vals := MetroEnrich.parseRow line in
  let name := toLowerCase (MetroEnrich.cell vals b) in
  let state := toUpperCase (MetroEnrich.cell vals c) in
  (length (MetroEnrich.cell vals a) <= 5)%nat -> name <> [] -> state <> [] ->
  let m' := fold_left (MetroEnrich.nameToFips_step toLowerCase toUpperCase a b c)
              ls m in
  is_Some (m' !! MetroEnrich.key state name)
  /\ is_Some (m' !! MetroEnrich.key state
                      (trim (replace_suffix MetroEnrich.build_suffixes name))).
Proof.
  induction ls as [|l ls IH]; intros m Hin; [now inversion Hin|].
  intros vals name state Hf Hn Hs. cbn [fold_left].
  apply elem_of_cons in Hin as [<-|Hin]; [|now apply IH].
  split; apply nameToFips_fold_keeps;
    unfold MetroEnrich.nameToFips_step; cbv zeta;
    fold vals; fold name; fold state;
    rewrite (padStart_length 5 _ Hf), (truthy_ne name Hn), (truthy_ne state Hs);
    cbn [Nat.eqb andb]; rewrite !lookup_insert_is_Some'; auto.
Qed.

Lemma find_fips_found (n2f : gmap jsstring jsstring) state county :
  map_Forall (fun _ v => length v = 5%nat) n2f ->
  is_Some (n2f !! MetroEnrich.key state county)
  \/ is_Some (n2f !! MetroEnrich.key state
                      (trim (replace_suffix MetroEnrich.match_suffixes county))) ->
  exists f, MetroEnrich.find_fips n2f state county = Some f
            /\ length f = 5%nat.
Proof.
  intros Hv H. unfold MetroEnrich.find_fips.
  destruct (n2f !! MetroEnrich.key state county) as [f|] eqn:E.
  - cbn [truthy_opt]. rewrite (length5_truthy f (Hv _ _ E)). cbn [negb].
    exists f. split; [reflexivity|exact (Hv _ _ E)].
  - cbn [truthy_opt negb]. destruct H as [[f H]|[f H]]; [discriminate|].
    exists f. split; [exact H|exact (Hv _ _ H)].
Qed.

(** no suffix of the match ends with another *)
Lemma match_suffix_cut x suf :
  suf ∈ MetroEnrich.match_suffixes ->
  replace_suffix MetroEnrich.match_suffixes (x ++ suf) = x.
Proof.
  intros Hs.
  assert (Hx : forall c y, existsb (eqb (c :: y ++ suf))
                              MetroEnrich.match_suffixes = false).
  { intros c y. apply not_true_is_false. intros H.
    apply existsb_exists in H as (alt & Ha & He).
    apply eqb_eq in He. apply list_elem_of_In in Ha.
    assert (L : (length alt = S (length y) + length suf)%nat)
      by (rewrite <- He; cbn [length]; rewrite length_app; lia).
    assert (Hr : firstn (length suf) (rev alt) = rev suf).
    { rewrite <- He. change (c :: y ++ suf) with ((c :: y) ++ suf).
      rewrite rev_app_distr, <- length_rev, firstn_app, Nat.sub_diag.
      cbn [firstn]. now rewrite app_nil_r, firstn_all. }
    assert (L' : length alt <> length suf) by lia.
    clear He L. revert Hr L'.
    unfold MetroEnrich.match_suffixes in Hs, Ha. cbn [map] in Hs, Ha.
    repeat (apply elem_of_cons in Hs as [->|Hs]);
      [..|now apply elem_of_nil in Hs];
      repeat (apply elem_of_cons in Ha as [->|Ha]);
      try (now apply elem_of_nil in Ha);
      intros Hr L'; try (now apply L');
      vm_compute in Hr; discriminate Hr. }
  induction x as [|c x IH]; cbn [app].
  - destruct suf as [|c s].
    + exfalso. revert Hs. unfold MetroEnrich.match_suffixes. cbn [map].
      intros Hs. repeat (apply elem_of_cons in Hs as [Hs|Hs]; [discriminate|]).
      now apply elem_of_nil in Hs.
    + cbn [replace_suffix].
      assert (E : existsb (eqb (c :: s)) MetroEnrich.match_suffixes = true).
      { apply existsb_exists. exists (c :: s).
        split; [now apply list_elem_of_In|now apply eqb_eq]. }
      now rewrite E.
  - cbn [replace_suffix]. rewrite Hx. now rewrite IH.
Qed.
End CountyNames.

(** X14.  Every county of the county FIPS master is found by its name.  For
    a line of the file with a FIPS cell of at most 5 code units, a name
    and a state, the lookup of the state in upper case and the name in
    lower case gives a FIPS of 5 code units; so does the lookup of the
    name without its suffix, and that of the name followed by county,
    parish, borough, census area or municipality. *)
Theorem county_found_by_name
    (toLowerCase toUpperCase : jsstring -> jsstring)
    (header lines : list jsstring) (line : jsstring) :
  line ∈ tl lines ->
  let vals := MetroEnrich.parseRow line in
  let name :=
    toLowerCase (MetroEnrich.cell vals
                   (findIndex MetroEnrich.is_county_name_col header)) in
  let state :=
    toUpperCase (MetroEnrich.cell vals
                   (findIndex MetroEnrich.is_state_abbr_col header)) in
  (length (MetroEnrich.cell vals (findIndex MetroEnrich.is_fips_exact header))
   <= 5)%nat ->
  name <> [] -> state <> [] ->
  let n2f :=
    MetroEnrich.build_countyNameToFips toLowerCase toUpperCase header lines in
  forall county,
    county = name
    \/ county = trim (replace_suffix MetroEnrich.build_suffixes name)
    \/ (trim name = name
        /\ exists suf, suf ∈ MetroEnrich.match_suffixes
                       /\ county = name ++ suf) ->
    exists f, MetroEnrich.find_fips n2f state county = Some f
              /\ length f = 5%nat.
Proof.
  intros Hin vals name state Hf Hn Hs n2f county Hc.
  pose proof (nameToFips_values toLowerCase toUpperCase header lines) as Hv.
  fold n2f in Hv.
  destruct (nameToFips_fold_has toLowerCase toUpperCase _ _ _ (tl lines) line ∅
              Hin Hf Hn Hs) as [K1 K2].
  fold vals name state in K1, K2.
  apply find_fips_found; [exact Hv|].
  destruct Hc as [->|[->|(Ht & suf & Hsuf & ->)]].
  - left. exact K1.
  - left. exact K2.
  - right. rewrite match_suffix_cut, Ht by exact Hsuf. exact K1.
Qed.

Lemma county_found_by_name_witness :
  MetroEnrich.find_fips
    (MetroEnrich.build_countyNameToFips Examples.ascii_lower Examples.ascii_upper
       (MetroEnrich.parseRow (js "fips,county_name,state_abbr"))
       [js "fips,county_name,state_abbr"; js "48441,Taylor,tx"])
    (js "TX") (js "taylor county")
  = Some (js "48441").
Proof.
  destruct (county_found_by_name Examples.ascii_lower Examples.ascii_upper
              (MetroEnrich.parseRow (js "fips,county_name,state_abbr"))
              [js "fips,county_name,state_abbr"; js "48441,Taylor,tx"]
              (js "48441,Taylor,tx")
              ltac:(cbn [tl]; left)
              ltac:(vm_compute; lia) ltac:(discriminate) ltac:(discriminate)
              (js "taylor county")
              ltac:(right; right; split; [reflexivity|];
                    exists (js " county"); split;
                    [unfold MetroEnrich.match_suffixes; cbn [map]; left
                    |reflexivity]))
    as (f & Hf & _).
  revert Hf. vm_compute. reflexivity.
Defined.

Section MissingColumn.
Import Spec.

Lemma indexOf_from_absent x l : forall i,
  x ∉ l -> indexOf_from x l i = -1.
Proof.
  induction l as [|y l IH]; intros i H; [reflexivity|].
  cbn [indexOf_from]. apply not_elem_of_cons in H as [Hx Hl].
  rewrite (proj2 (eqb_neq y x)) by congruence. now apply IH.
Qed.

Lemma find_all_false {A} (p : A -> bool) (l : list A) :
  (forall x, p x = false) -> List.find p l = None.
Proof.
  intros H. induction l as [|x l IH]; [reflexivity|].
  cbn [List.find]. now rewrite H.
Qed.
End MissingColumn.

(** X8.  A ZIP-to-county CSV whose header has no column zipcode is not
    refused: every row then counts for the ZIP 00000, and zipGeo holds
    that one entry, made of the first row. *)
Theorem zipGeo_without_zip_column (header : list jsstring)
    (rows : list (list jsstring)) :
  js "zipcode" ∉ header ->
  GeoEnrich.build_zipGeo header rows
  = match rows with
    | [] => ∅
    | row :: _ =>
        {[ js "00000" := Spec.zipGeo_entry (indexOf (js "state_abbr") header)
                           (indexOf (js "county") header) row ]}
    end.
Proof.
  intros H. apply map_eq. intros zip.
  assert (Z : indexOf (js "zipcode") header = -1)
    by (apply indexOf_from_absent; exact H).
  unfold GeoEnrich.build_zipGeo. rewrite zipGeo_fold, lookup_empty, Z.
  destruct rows as [|row rows].
  - rewrite lookup_empty. now destruct (length zip =? 5)%nat.
  - cbn [List.find]. unfold Spec.has_zip at 1.
    change (padStart 5 (GeoEnrich.cell row (-1))) with (js "00000").
    destruct (eqb (js "00000") zip) eqn:E.
    + apply eqb_eq in E. subst zip. now rewrite lookup_singleton_eq.
    + apply eqb_neq in E. rewrite lookup_singleton_ne by exact E.
      destruct (Nat.eqb_spec (length zip) 5) as [L|L]; [|reflexivity].
      assert (F : List.find (Spec.has_zip (-1) zip) rows = None).
      { apply find_all_false. intros r. unfold Spec.has_zip.
        change (padStart 5 (GeoEnrich.cell r (-1))) with (js "00000").
        now apply eqb_neq. }
      now rewrite F.
Qed.

Lemma zipGeo_without_zip_column_witness :
  GeoEnrich.build_zipGeo [js "state_abbr"; js "zip"; js "county"]
    [[js "AL"; js "35004"; js "St. Clair"]; [js "CA"; js "90001"; js "Los Angeles"]]
  = {[ js "00000" := {| GeoEnrich.g_state := js "AL";
                        GeoEnrich.g_county := js "St. Clair County" |} ]}.
Proof.
  refine (zipGeo_without_zip_column [js "state_abbr"; js "zip"; js "county"]
            [[js "AL"; js "35004"; js "St. Clair"];
             [js "CA"; js "90001"; js "Los Angeles"]] _).
  apply (bool_decide_unpack _). vm_compute. reflexivity.
Defined.

(** ** Outcome, output and table of a run *)

Section Effects.
Import Spec.
Context {Log Sql Db : Type}.
Implicit Types (d : Db) (s : state Log Sql Db).

Lemma effects_ret {A} (a : A) (Q : outcome A -> list (event Log Sql) -> Db -> Prop) d :
  Q (Return a) [] d -> effects d (ret a) Q.
Proof. intros H s <-. exists []. cbn. now rewrite app_nil_r. Qed.

Lemma effects_log (l : Log) (Q : outcome unit -> list (event Log Sql) -> Db -> Prop) d :
  Q (Return tt) [EvLog l] d -> effects d (log l) Q.
Proof. intros H s <-. now exists [EvLog l]. Qed.

Lemma effects_pool_end (Q : outcome unit -> list (event Log Sql) -> Db -> Prop) d :
  Q (Return tt) [EvPoolEnd] d -> effects d pool_end Q.
Proof. intros H s <-. now exists [EvPoolEnd]. Qed.

Lemma effects_download w url
    (Q : outcome jsstring -> list (event Log Sql) -> Db -> Prop) d :
  (forall data, fetch w url = Settled (inr data) ->
                Q (Return data) [EvDownload url true] d) ->
  (forall e, fetch w url = Settled (inl e) ->
             Q (Throw e) [EvDownload url false] d) ->
  (forall h, fetch w url = Unsettled h ->
             Q (Halt h) [EvDownload url false] d) ->
  effects d (download w url) Q.
Proof.
  intros H1 H2 H3 s <-. unfold download.
  destruct (fetch w url) as [[e|data]|h];
    [exists [EvDownload url false]|exists [EvDownload url true]
    |exists [EvDownload url false]]; cbn; auto.
Qed.

Lemma effects_query {A} w (q : Sql) (f : Db -> A * Db)
    (Q : outcome A -> list (event Log Sql) -> Db -> Prop) d :
  Q (Return (fst (f d))) [EvQuery q true] (snd (f d)) ->
  (forall msg, Q (Throw (DbError msg)) [EvQuery q false] d) ->
  effects d (pool_query w q f) Q.
Proof.
  intros Hok Herr s <-. unfold pool_query.
  destruct (query_error w (sent s)) as [msg|].
  - exists [EvQuery q false]. cbn. auto.
  - exists [EvQuery q true]. now destruct (f (db s)).
Qed.

Lemma effects_query_ok {A} w (q : Sql) (f : Db -> A * Db)
    (Q : outcome A -> list (event Log Sql) -> Db -> Prop) d :
  (forall n, query_error w n = None) ->
  Q (Return (fst (f d))) [EvQuery q true] (snd (f d)) ->
  effects d (pool_query w q f) Q.
Proof.
  intros Hok H s <-. unfold pool_query. rewrite Hok.
  exists [EvQuery q true]. now destruct (f (db s)).
Qed.

Lemma effects_bind {A B} (m : M Log Sql Db A) (k : A -> M Log Sql Db B) Q d :
  effects d m (fun r t1 d' =>
                 match r with
                 | Return a => effects d' (k a) (fun r2 t2 => Q r2 (t1 ++ t2))
                 | Throw e => Q (Throw e) t1 d'
                 | OutOfFuel => Q OutOfFuel t1 d'
                 | Halt h => Q (Halt h) t1 d'
                 end) ->
  effects d (bind m k) Q.
Proof.
  intros H s Hs. destruct (H s Hs) as (t1 & Ht & HQ). unfold bind.
  destruct (m s) as [[a|e| |hl] s1]; cbn in *; eauto.
  destruct (HQ s1 eq_refl) as (t2 & Ht2 & HQ2).
  exists (t1 ++ t2). rewrite Ht2, Ht, app_assoc. auto.
Qed.

Lemma effects_try_catch {A} (m : M Log Sql Db A) (h : exn -> M Log Sql Db A)
    Q d :
  effects d m (fun r t1 d' =>
                 match r with
                 | Throw e => effects d' (h e) (fun r2 t2 => Q r2 (t1 ++ t2))
                 | _ => Q r t1 d'
                 end) ->
  effects d (try_catch m h) Q.
Proof.
  intros H s Hs. destruct (H s Hs) as (t1 & Ht & HQ). unfold try_catch.
  destruct (m s) as [[a|e| |hl] s1]; cbn in *; eauto.
  destruct (HQ s1 eq_refl) as (t2 & Ht2 & HQ2).
  exists (t1 ++ t2). rewrite Ht2, Ht, app_assoc. auto.
Qed.

Lemma effects_conseq {A} (m : M Log Sql Db A)
    (Q Q' : outcome A -> list (event Log Sql) -> Db -> Prop) d :
  effects d m Q -> (forall r t d', Q r t d' -> Q' r t d') -> effects d m Q'.
Proof.
  intros H HQ s Hs. destruct (H s Hs) as (t & Ht & Hq). eauto.
Qed.

Lemma effects_for_each_log {A} (l : list A) (f : A -> Log)
    (Q : outcome unit -> list (event Log Sql) -> Db -> Prop) d :
  Q (Return tt) (map (fun x => EvLog (f x)) l) d ->
  effects d (for_each l (fun x => log (f x))) Q.
Proof.
  revert Q. induction l as [|x l IH]; intros Q H; cbn [for_each].
  - now apply effects_ret.
  - apply effects_bind, effects_log. apply IH. exact H.
Qed.

End Effects.

(** One step of a run, with its output and its table. *)
Ltac fx_step query_rule :=
  lazymatch goal with
  | |- Spec.effects _ (mbind _ _) _ => apply effects_bind
  | |- Spec.effects _ (Run.bind _ _) _ => apply effects_bind
  | |- Spec.effects _ (Run.try_catch _ _) _ => apply effects_try_catch
  | |- Spec.effects _ (Run.log _) _ => apply effects_log
  | |- Spec.effects _ (mret _) _ => apply effects_ret
  | |- Spec.effects _ (Run.ret _) _ => apply effects_ret
  | |- Spec.effects _ Run.pool_end _ => apply effects_pool_end
  | |- Spec.effects _ (Run.download _ _) _ =>
      apply effects_download; [intros ? ?|intros ? ?|intros ? ?]
  | |- Spec.effects _ (Run.pool_query _ _ _) _ => query_rule
  | |- Spec.effects _ (Run.for_each _ _) _ => apply effects_for_each_log
  | |- Spec.effects _ (if ?b then _ else _) _ => destruct b eqn:?
  end; cbn beta iota zeta delta [fst snd app].

(** no statement is rejected, by [H] *)
Ltac fx H := repeat fx_step ltac:(apply (effects_query_ok _ _ _ _ _ H)).

(** every statement may be rejected *)
Ltac fx_any := repeat fx_step ltac:(apply effects_query; [|intros ?]).

Section StepEffects.
Import Spec.
Variable toLowerCase toUpperCase : jsstring -> jsstring.
Variable w : world.
Hypothesis no_reject : forall n, query_error w n = None.

Lemma geo_zipGeo_effects d :
  settles w GeoEnrich.csvUrl ->
  effects d (GeoEnrich.step_zipGeo w)
          (fun r _ d' => r = Return (downloaded_zipGeo w) /\ d' = d).
Proof.
  intros S1. unfold GeoEnrich.step_zipGeo, downloaded_zipGeo.
  fx no_reject; try settled_path;
    match goal with H : fetch _ _ = _ |- _ => rewrite H end; now split.
Qed.

Lemma geo_names_effects cbsaCodes d :
  settles w GeoEnrich.namesUrl ->
  effects d (GeoEnrich.step_names w cbsaCodes)
          (fun r _ d' => r = Return (downloaded_names w cbsaCodes) /\ d' = d).
Proof.
  intros S3. unfold GeoEnrich.step_names, downloaded_names.
  fx no_reject; try settled_path;
    match goal with H : fetch _ _ = _ |- _ => rewrite H end;
    cbv zeta;
    repeat match goal with H : _ = _ |- _ => rewrite H end; now split.
Qed.

Lemma geo_zipMetro_effects d :
  settles w GeoEnrich.cbsaUrl -> settles w GeoEnrich.namesUrl ->
  effects d (GeoEnrich.step_zipMetro w)
          (fun r _ d' => r = Return (downloaded_zipMetro w) /\ d' = d).
Proof.
  intros S2 S3. unfold GeoEnrich.step_zipMetro, downloaded_zipMetro.
  fx no_reject; try settled_path;
    try (eapply effects_conseq; [apply (geo_names_effects _ _ S3)|];
         intros r t d' [-> ->]; fx no_reject);
    match goal with H : fetch _ GeoEnrich.cbsaUrl = _ |- _ => rewrite H end;
    cbv zeta;
    repeat match goal with H : (_ >=? _) = _ |- _ => rewrite H end;
    now split.
Qed.

Lemma metro_cbsa_effects d :
  metro_settle w ->
  effects d (MetroEnrich.step_countyFipsToMetro w)
          (fun r _ d' => r = Return (downloaded_countyFipsToMetro w) /\ d' = d).
Proof.
  intros [S1 S2].
  unfold MetroEnrich.step_countyFipsToMetro, downloaded_countyFipsToMetro.
  fx no_reject; try settled_path;
    match goal with
    | H : fetch _ MetroEnrich.nberUrl = _ |- _ => rewrite H
    end; now split.
Qed.

Lemma metro_names_effects d :
  settles w MetroEnrich.fipsUrl ->
  effects d (MetroEnrich.step_countyNameToFips toLowerCase toUpperCase w)
          (fun r _ d' =>
             r = Return (downloaded_countyNameToFips toLowerCase toUpperCase w)
             /\ d' = d).
Proof.
  intros S2.
  unfold MetroEnrich.step_countyNameToFips, downloaded_countyNameToFips.
  fx no_reject; try settled_path;
    match goal with H : fetch _ _ = _ |- _ => rewrite H end; now split.
Qed.
End StepEffects.

Section DryPlan.
Import Spec.
Variable zipcodes_lookup : jsstring -> option jsstring.
Variable toLowerCase toUpperCase : jsstring -> jsstring.
Variable w : world.

Lemma geo_dry_effects updates (d : list row) :
  effects d (GeoEnrich.dry_run updates)
          (fun r t d' =>
             r = Return tt
             /\ t = [EvLog GeoEnrich.LDryRun; EvLog GeoEnrich.LSampleHead]
                    ++ map (fun u => EvLog (GeoEnrich.LSample u))
                           (firstn 15 updates)
                    ++ [EvPoolEnd]).
Proof.
  unfold GeoEnrich.dry_run. rewrite slice_0 by lia.
  change (Z.to_nat 15) with 15%nat. fx_any. now split.
Qed.

Lemma metro_dry_effects updates (d : list row) :
  effects d (MetroEnrich.dry_run updates)
          (fun r t d' =>
             r = Return tt
             /\ t = [EvLog MetroEnrich.LDrySampleHead]
                    ++ map (fun u => EvLog (MetroEnrich.LSample u))
                           (firstn 15 updates)
                    ++ [EvPoolEnd]).
Proof.
  unfold MetroEnrich.dry_run. rewrite slice_0 by lia.
  change (Z.to_nat 15) with 15%nat. fx_any. now split.
Qed.

(** the lookup maps of the world, on a path of a run *)
Ltac world_maps :=
  unfold supplemented_zipGeo, downloaded_zipGeo, downloaded_zipMetro,
    downloaded_names, downloaded_countyFipsToMetro,
    downloaded_countyNameToFips;
  repeat match goal with H : fetch _ _ = _ |- _ => rewrite H end;
  cbv zeta;
  repeat match goal with
         | H : (_ >=? _) = _ |- _ => rewrite H
         | H : (_ && _) = _ |- _ => rewrite H
         end.

(** A dry run of geo-enrich.js that returns, whatever the downloads
    deliver: the plan it prints last is built from the rows with gaps
    and the lookup maps of the world. *)
Lemma geo_dry_plan t0 fuel :
  GeoEnrich.DRY_RUN w = true ->
  effects t0 (GeoEnrich.main zipcodes_lookup w fuel)
          (fun r t d' =>
             let built := GeoEnrich.build_updates
                            (supplemented_zipGeo zipcodes_lookup w t0)
                            (downloaded_zipMetro w)
                            (GeoEnrich.select_gap_rows t0) in
             r = Return tt ->
             ends_with (geo_dry_output (fst built) (snd built)) t).
Proof.
  intros Hd. unfold GeoEnrich.main, GeoEnrich.step_zipGeo,
    GeoEnrich.step_zipMetro, GeoEnrich.step_names. rewrite Hd.
  fx_any; try (intros; discriminate).
  all: (eapply effects_conseq; [apply geo_dry_effects|]);
    intros r t d' [-> ->] _; world_maps;
    unfold geo_dry_output; cbn [app]; find_tail_app.
Qed.

(** the same for the metro script, which stops before the plan exactly
    when its CBSA map is empty *)
Lemma metro_dry_plan t0 fuel :
  MetroEnrich.DRY_RUN w = true ->
  effects t0 (MetroEnrich.main toLowerCase toUpperCase w fuel)
          (fun r t d' =>
             let f2m := downloaded_countyFipsToMetro w in
             let res := MetroEnrich.match_rows toLowerCase
                          (downloaded_countyNameToFips toLowerCase toUpperCase w)
                          f2m (MetroEnrich.select_zips t0) in
             r = Return tt ->
             if (size f2m =? 0)%nat then ends_with metro_abort_output t
             else ends_with (metro_dry_output (fst (fst res)) (snd (fst res))
                                              (snd res)) t).
Proof.
  intros Hd. unfold MetroEnrich.main, MetroEnrich.step_countyFipsToMetro,
    MetroEnrich.enrich, MetroEnrich.step_countyNameToFips. rewrite Hd.
  fx_any; try (intros; discriminate); try absurd_path.
  all: try (intros _; world_maps;
            match goal with
            | H : (size _ =? 0)%nat = true |- _ => rewrite ?H
            end;
            rewrite ?map_size_empty; cbn [Nat.eqb];
            unfold metro_abort_output; find_tail_app).
  all: (eapply effects_conseq; [apply metro_dry_effects|]);
    intros r t d' [-> ->] _; world_maps;
    match goal with
    | H : (size _ =? 0)%nat = false |- _ => rewrite H
    end;
    unfold metro_dry_output; cbn [app]; find_tail_app.
Qed.
End DryPlan.

Lemma effects_run_main {Log Sql Db} (fatal : exn -> Log)
    (main : M Log Sql Db unit) (Q : list (event Log Sql) -> Prop) (d : Db) :
  Spec.effects d main (fun r t _ => r = Return tt -> Q t) ->
  fst (run_main fatal main d) = Return tt ->
  Q (trace (snd (run_main fatal main d))).
Proof.
  intros H. unfold run_main.
  destruct (H {| db := d; trace := []; sent := 0 |} eq_refl)
    as (t & Ht & HQ).
  destruct (main _) as [[[]|e| |hl] s]; cbn in *; try discriminate.
  intros _. subst. now apply HQ.
Qed.

Lemma dry_run_ends_script {Log Sql} (fatal : exn -> Log) (w : world)
    (r : outcome unit) (t : list (event Log Sql)) :
  Spec.no_retry r t -> Spec.halts_at_download w r t -> r <> OutOfFuel ->
  Spec.dry_run_ends fatal w r
    (match r with Throw e => t ++ [EvLog (fatal e); EvExit 1] | _ => t end).
Proof.
  intros (_ & _ & _ & Hr) Hh Hf. unfold Spec.dry_run_ends.
  destruct r as [[]|e| |h]; [now split| |congruence|exact Hh].
  destruct Hr as (msg & q & -> & pre & ->). exists msg, q.
  split; [reflexivity|]. exists pre. now rewrite <- app_assoc.
Qed.

(** C2 (as amended).  With --dry-run among the arguments, whatever the
    downloads deliver and whichever statement fails, neither script
    sends an UPDATE statement and the table is at the end what it was
    at the start.  When geo-enrich.js returns, the last things it did
    are: print the summary of the update list built from the rows with
    gaps and the lookup maps, print the first 15 of these updates,
    close the pool.  When the metro script returns, it did the same
    with the updates of its matches, unless its CBSA map is empty: then
    the last things it did are: print that it has no CBSA data, close
    the pool.  Both scripts return when no statement is rejected and
    every download is settled.  A dry run that returns has had no
    statement rejected and no download left unsettled; an error leaves
    main only as a rejected statement and is followed by the Fatal line
    and process.exit(1); the script halts only at a download that is
    never settled; nothing else can happen. *)
Theorem dry_run_leaves_table
    (zl : jsstring -> option jsstring) (lower upper : jsstring -> jsstring)
    (w : world) (fuel : nat) (t0 : list row) :
  In (js "--dry-run") (argv w) ->
  let gs := GeoEnrich.script zl w fuel t0 in
  let ms := MetroEnrich.script lower upper w fuel t0 in
  let built := GeoEnrich.build_updates (Spec.supplemented_zipGeo zl w t0)
                 (Spec.downloaded_zipMetro w)
                 (GeoEnrich.select_gap_rows t0) in
  let f2m := Spec.downloaded_countyFipsToMetro w in
  let res := MetroEnrich.match_rows lower
               (Spec.downloaded_countyNameToFips lower upper w)
               f2m (MetroEnrich.select_zips t0) in
  Spec.untouched Spec.geo_is_update t0 (snd gs)
  /\ Spec.untouched Spec.metro_is_update t0 (snd ms)
  /\ (fst gs = Return tt ->
      Spec.ends_with (Spec.geo_dry_output (fst built) (snd built))
        (trace (snd gs)))
  /\ (fst ms = Return tt ->
      if (size f2m =? 0)%nat
      then Spec.ends_with Spec.metro_abort_output (trace (snd ms))
      else Spec.ends_with
             (Spec.metro_dry_output (fst (fst res)) (snd (fst res)) (snd res))
             (trace (snd ms)))
  /\ ((forall n, query_error w n = None) -> Spec.geo_settle w ->
      fst gs = Return tt)
  /\ ((forall n, query_error w n = None) -> Spec.metro_settle w ->
      fst ms = Return tt)
  /\ Spec.dry_run_ends GeoEnrich.LFatal w (fst gs) (trace (snd gs))
  /\ Spec.dry_run_ends MetroEnrich.LFatal w (fst ms) (trace (snd ms)).
Proof.
  intros Hflag gs ms built f2m res.
  destruct (dry_run_flag w Hflag) as [Hg Hm].
  split; [|split; [|split; [|split; [|split; [|split; [|split]]]]]].
  - apply untouched_run_main. now apply geo_dry_untouched.
  - apply untouched_run_main. now apply metro_dry_untouched.
  - apply (effects_run_main GeoEnrich.LFatal _ _ t0
             (geo_dry_plan zl w t0 fuel Hg)).
  - apply (effects_run_main MetroEnrich.LFatal _
             (fun t => if (size f2m =? 0)%nat
                       then Spec.ends_with Spec.metro_abort_output t
                       else Spec.ends_with
                              (Spec.metro_dry_output (fst (fst res))
                                 (snd (fst res)) (snd res)) t)
             t0 (metro_dry_plan lower upper w t0 fuel Hm)).
  - intros no_reject Sg.
    destruct (spec_run_main GeoEnrich.LFatal _ _ t0
                (geo_dry_returns zl w fuel no_reject Sg Hg)) as (t & HQ & _).
    exact HQ.
  - intros no_reject Sm.
    destruct (spec_run_main MetroEnrich.LFatal _ _ t0
                (metro_dry_returns lower upper w fuel no_reject Sm Hm))
      as (t & HQ & _).
    exact HQ.
  - destruct (spec_run_main GeoEnrich.LFatal _ _ t0
                (spec_and _ _ _ (geo_no_retry zl w fuel)
                   (spec_and _ _ _ (geo_halts zl w fuel)
                      (geo_dry_total zl w fuel Hg))))
      as (t & (H1 & H2 & H3) & Ht).
    fold (GeoEnrich.script zl w fuel t0) in H1, H2, H3, Ht.
    fold gs in H1, H2, H3, Ht. rewrite Ht.
    now apply dry_run_ends_script.
  - destruct (spec_run_main MetroEnrich.LFatal _ _ t0
                (spec_and _ _ _ (metro_no_retry lower upper w fuel)
                   (spec_and _ _ _ (metro_halts lower upper w fuel)
                      (metro_dry_total lower upper w fuel Hm))))
      as (t & (H1 & H2 & H3) & Ht).
    fold (MetroEnrich.script lower upper w fuel t0) in H1, H2, H3, Ht.
    fold ms in H1, H2, H3, Ht. rewrite Ht.
    now apply dry_run_ends_script.
Qed.

Lemma dry_run_leaves_table_witness :
  In (js "--dry-run") (argv (Examples.online Examples.dry_args))
  /\ Spec.untouched Spec.geo_is_update Examples.table
       (snd (GeoEnrich.script Examples.zipcodes_lookup
               (Examples.online Examples.dry_args) 10 Examples.table))
  /\ Spec.untouched Spec.metro_is_update Examples.table
       (snd (MetroEnrich.script Examples.ascii_lower Examples.ascii_upper
               (Examples.online Examples.dry_args) 10 Examples.table))
  /\ fst (GeoEnrich.script Examples.zipcodes_lookup
            (Examples.online Examples.dry_args) 10 Examples.table)
     = Return tt
  /\ fst (MetroEnrich.script Examples.ascii_lower Examples.ascii_upper
            (Examples.online Examples.dry_args) 10 Examples.table)
     = Return tt.
Proof.
  assert (H : In (js "--dry-run") (argv (Examples.online Examples.dry_args)))
    by (simpl; auto).
  split; [exact H|].
  pose proof (dry_run_leaves_table Examples.zipcodes_lookup
                Examples.ascii_lower Examples.ascii_upper
                (Examples.online Examples.dry_args) 10 Examples.table H) as T.
  cbv zeta in T.
  destruct T as (T1 & T2 & _ & _ & T5 & T6 & _).
  split; [exact T1|]. split; [exact T2|].
  split.
  - apply T5; [reflexivity|].
    repeat split; eexists; vm_compute; reflexivity.
  - apply T6; [reflexivity|].
    repeat split; eexists; vm_compute; reflexivity.
Defined.

(** C2 as stated fails: a dry run of the metro script that cannot
    download the crosswalk stops at the guard on the empty CBSA map; it
    prints neither the summary nor the sample updates. *)
Lemma dry_run_without_samples :
  MetroEnrich.DRY_RUN (Examples.offline Examples.dry_args) = true
  /\ fst Examples.metro_offline_dry = Return tt
  /\ trace (snd Examples.metro_offline_dry)
     = [ EvLog MetroEnrich.LBanner;
         EvLog (MetroEnrich.LMode true);
         EvQuery MetroEnrich.SelectCounties true;
         EvLog (MetroEnrich.LCountiesNeeding 2);
         EvLog MetroEnrich.LDownloadingCbsa;
         EvDownload MetroEnrich.nberUrl false;
         EvLog (MetroEnrich.LNberFailed (NetError (js "ENOTFOUND")));
         EvDownload MetroEnrich.fipsUrl false;
         EvLog (MetroEnrich.LFallbackFailed (NetError (js "ENOTFOUND")));
         EvLog MetroEnrich.LNoCbsa;
         EvPoolEnd ]
  /\ ~ In (EvLog MetroEnrich.LDrySampleHead)
          (trace (snd Examples.metro_offline_dry)).
Proof.
  split; [reflexivity|]. split; [reflexivity|].
  split; [vm_compute; reflexivity|].
  vm_compute. intros H.
  repeat (destruct H as [H|H]; [discriminate H|]). exact H.
Qed.

Section LoopEffects.
Import Spec.
Context {Log Sql Db U : Type}.
Variable stmt : list U -> Sql.
Variable cnt : list U -> Db -> Z.
Variable F : list U -> Db -> Db.
Variable body : Z -> list U -> Z -> M Log Sql Db Z.
Variable l : list U.
Variable step : Z.

(** the loop over the batches, when no statement is rejected: the
    statements of the consecutive slices, the sum of their row counts,
    and the table they leave *)
Lemma effects_for_batches :
  (forall i b acc d,
      effects d (body i b acc)
              (fun r t d' =>
                 r = Return (acc + cnt b d)
                 /\ (exists lg, t = [EvQuery (stmt b) true; EvLog lg])
                 /\ d' = F b d)) ->
  0 < step ->
  forall fuel i acc d,
    0 <= i -> (length (skipn (Z.to_nat i) l) <= fuel)%nat ->
    effects d (for_batches fuel step l body i acc)
            (fun r t d' =>
               let bs := chunks fuel (Z.to_nat step) (skipn (Z.to_nat i) l) in
               r = Return (acc + rows_counted cnt F bs d)
               /\ (exists lgs, length lgs = length bs
                               /\ t = loop_events stmt bs lgs)
               /\ d' = fold_left (fun d b => F b d) bs d).
Proof.
  intros Hb Hs. induction fuel as [|fuel IH]; intros i acc d Hi Hf.
  - assert (E : skipn (Z.to_nat i) l = [])
      by (destruct (skipn _ l); [easy|cbn in Hf; lia]).
    rewrite E. apply (f_equal (@length U)) in E. rewrite length_skipn in E.
    cbn [length] in E.
    cbn [for_batches]. destruct (Z.ltb_spec i (Z.of_nat (length l))); [lia|].
    apply effects_ret. cbn. rewrite Z.add_0_r.
    split; [reflexivity|]. split; [now exists []|reflexivity].
  - cbn [for_batches].
    destruct (Z.ltb_spec i (Z.of_nat (length l))) as [Hlt|Hge].
    + destruct (skipn (Z.to_nat i) l) as [|x r] eqn:E.
      { apply (f_equal (@length U)) in E. rewrite length_skipn in E.
        cbn in E. lia. }
      cbn [chunks]. rewrite <- E.
      apply effects_bind. eapply effects_conseq; [apply Hb|].
      intros r0 t0 d0 (-> & [lg ->] & ->).
      eapply effects_conseq; [apply (IH (i + step) (acc + cnt _ d))|];
        try lia.
      * rewrite length_skipn. cbn in Hf.
        apply (f_equal (@length U)) in E. rewrite length_skipn in E.
        cbn in E. lia.
      * intros r1 t1 d1 (-> & (lgs & Hl & ->) & ->). cbv zeta.
        rewrite slice_chunk by lia.
        rewrite skipn_skipn, Nat.add_comm, <- Z2Nat.inj_add by lia.
        cbn [rows_counted fold_left].
        split; [f_equal; lia|].
        split; [|reflexivity].
        exists (lg :: lgs). split; [cbn; now rewrite Hl|reflexivity].
    + assert (E : skipn (Z.to_nat i) l = []) by (apply skipn_all2; lia).
      rewrite E. apply effects_ret. cbn. rewrite Z.add_0_r.
      split; [reflexivity|]. split; [now exists []|now destruct fuel].
Qed.
End LoopEffects.

Section RowCounts.
Import Spec.

Lemma filter_map_zip {A} (z : A -> jsstring) (P : jsstring -> bool) (d : list A) :
  map z (List.filter (fun h => P (z h)) d) = List.filter P (map z d).
Proof.
  induction d as [|h d IH]; [reflexivity|].
  cbn [List.filter map]. destruct (P (z h)); cbn [map]; now rewrite IH.
Qed.

Lemma NoDup_List_filter {A} (P : A -> bool) (l : list A) :
  NoDup l -> NoDup (List.filter P l).
Proof.
  induction 1 as [|x l Hx _ IH]; [constructor|].
  cbn [List.filter]. destruct (P x); [|exact IH].
  constructor; [|exact IH].
  intros H. apply Hx. apply list_elem_of_In in H.
  apply filter_In in H as [H _]. now apply list_elem_of_In.
Qed.

(** a statement counts one row for each of its updates, on a table of
    distinct ZIPs that has the ZIP of every update *)
Lemma count_matched {V} (uz : V -> jsstring) (b : list V) (d : list row) :
  NoDup (map zip_code d) -> NoDup (map uz b) ->
  Forall (fun v => uz v ∈ map zip_code d) b ->
  length (List.filter
            (fun h => existsb (fun v => eqb (zip_code h) (uz v)) b) d)
  = length b.
Proof.
  intros Hd Hb Hin.
  set (P := fun z => existsb (fun v => eqb z (uz v)) b).
  change (fun h => existsb (fun v => eqb (zip_code h) (uz v)) b)
    with (fun h => P (zip_code h)).
  rewrite <- (length_map zip_code), filter_map_zip, <- (length_map uz b).
  apply Permutation_length, NoDup_Permutation;
    [now apply NoDup_List_filter|exact Hb|].
  intros z. rewrite list_elem_of_In, filter_In, <- list_elem_of_In.
  unfold P. rewrite existsb_exists. split.
  - intros (_ & v & Hv & E). apply eqb_eq in E. subst z.
    apply list_elem_of_fmap_2. now apply list_elem_of_In.
  - intros Hz. apply list_elem_of_fmap in Hz as (v & -> & Hv). split.
    + rewrite Forall_forall in Hin. now apply Hin.
    + exists v. split; [now apply list_elem_of_In|now apply eqb_eq].
Qed.

Lemma Forall_app_l {A} (P : A -> Prop) (a b : list A) :
  Forall P (a ++ b) -> Forall P a /\ Forall P b.
Proof. apply Forall_app. Qed.

Lemma geo_rows_counted t bs : forall d,
  NoDup (map zip_code d) -> NoDup (map GeoEnrich.u_zip (concat bs)) ->
  Forall (fun v => GeoEnrich.u_zip v ∈ map zip_code d) (concat bs) ->
  rows_counted (fun b d => fst (GeoEnrich.exec_update t b d))
               (fun b d => snd (GeoEnrich.exec_update t b d)) bs d
  = Z.of_nat (length (concat bs)).
Proof.
  induction bs as [|b bs IH]; intros d Hd Hn Hin; [reflexivity|].
  cbn [concat] in *. rewrite map_app in Hn.
  apply NoDup_app in Hn as (Hb & _ & Hbs).
  apply Forall_app_l in Hin as [Hib Hibs].
  assert (Z : map zip_code (map (GeoEnrich.update_row t b) d) = map zip_code d).
  { rewrite map_map. apply map_ext. intros h. apply geo_update_row_zip. }
  cbn [rows_counted GeoEnrich.exec_update fst snd].
  rewrite IH; [|now rewrite Z|exact Hbs|now rewrite Z].
  unfold count_where, GeoEnrich.matched.
  rewrite (count_matched GeoEnrich.u_zip b d Hd Hb Hib), length_app. lia.
Qed.

Lemma metro_update_row_zip t vs h :
  zip_code (MetroEnrich.update_row t vs h) = zip_code h.
Proof. unfold MetroEnrich.update_row. now destruct (List.find _ vs). Qed.

Lemma metro_rows_counted t bs : forall d,
  NoDup (map zip_code d) -> NoDup (map MetroEnrich.u_zip (concat bs)) ->
  Forall (fun v => MetroEnrich.u_zip v ∈ map zip_code d) (concat bs) ->
  rows_counted (fun b d => fst (MetroEnrich.exec_update t b d))
               (fun b d => snd (MetroEnrich.exec_update t b d)) bs d
  = Z.of_nat (length (concat bs)).
Proof.
  induction bs as [|b bs IH]; intros d Hd Hn Hin; [reflexivity|].
  cbn [concat] in *. rewrite map_app in Hn.
  apply NoDup_app in Hn as (Hb & _ & Hbs).
  apply Forall_app_l in Hin as [Hib Hibs].
  assert (Z : map zip_code (map (MetroEnrich.update_row t b) d)
              = map zip_code d).
  { rewrite map_map. apply map_ext. intros h. apply metro_update_row_zip. }
  cbn [rows_counted MetroEnrich.exec_update fst snd].
  rewrite IH; [|now rewrite Z|exact Hbs|now rewrite Z].
  unfold count_where, MetroEnrich.matched.
  rewrite (count_matched MetroEnrich.u_zip b d Hd Hb Hib), length_app. lia.
Qed.

(** the updates derived from the rows of a table have ZIPs of the
    table *)
Lemma omap_zips_in {V} (f : row -> option V) (uz : V -> jsstring) rows :
  (forall r u, f r = Some u -> uz u = zip_code r) ->
  Forall (fun v => uz v ∈ map zip_code rows) (omap f rows).
Proof.
  intros Hf. apply Forall_forall. intros v Hv.
  eapply omap_zips; [exact Hf|]. now apply list_elem_of_fmap_2.
Qed.
End RowCounts.

Section LiveReport.
Import Spec.
Variable zipcodes_lookup : jsstring -> option jsstring.
Variable toLowerCase toUpperCase : jsstring -> jsstring.
Variable w : world.
Hypothesis no_reject : forall n, query_error w n = None.
Hypothesis geo_ok : geo_settle w.
Hypothesis metro_ok : metro_settle w.

Lemma effects_run_main_returns {Log Sql Db} (fatal : exn -> Log)
    (main : M Log Sql Db unit) (Q : list (event Log Sql) -> Db -> Prop)
    (d : Db) :
  effects d main (fun r t d' => r = Return tt /\ Q t d') ->
  fst (run_main fatal main d) = Return tt
  /\ Q (trace (snd (run_main fatal main d))) (db (snd (run_main fatal main d))).
Proof.
  intros H. unfold run_main.
  destruct (H {| db := d; trace := []; sent := 0 |} eq_refl)
    as (t & Ht & Hr & HQ).
  destruct (main _) as [[[]|e| |hl] s]; cbn in *; try discriminate.
  subst. now split.
Qed.

Lemma geo_turn_effects updates i b acc d :
  effects d (GeoEnrich.batch_body w updates i b acc)
          (fun r t d' =>
             r = Return (acc + fst (GeoEnrich.exec_update (now w) b d))
             /\ (exists lg, t = [EvQuery (geo_stmt b) true; EvLog lg])
             /\ d' = snd (GeoEnrich.exec_update (now w) b d)).
Proof.
  unfold GeoEnrich.batch_body. fx no_reject. rewrite unnest4_maps.
  split; [reflexivity|]. split; [eexists; reflexivity|reflexivity].
Qed.

Lemma metro_turn_effects updates i b acc d :
  effects d (MetroEnrich.batch_body w updates i b acc)
          (fun r t d' =>
             r = Return (acc + fst (MetroEnrich.exec_update (now w) b d))
             /\ (exists lg, t = [EvQuery (metro_stmt b) true; EvLog lg])
             /\ d' = snd (MetroEnrich.exec_update (now w) b d)).
Proof.
  unfold MetroEnrich.batch_body. fx no_reject. rewrite unnest2_maps.
  split; [reflexivity|]. split; [eexists; reflexivity|reflexivity].
Qed.

Lemma geo_live_effects fuel g updates d :
  0 < GeoEnrich.BATCH_SIZE w -> (length updates <= fuel)%nat ->
  effects d (GeoEnrich.live_run w fuel g updates)
    (fun r t d' =>
       let bs := chunks fuel (Z.to_nat (GeoEnrich.BATCH_SIZE w)) updates in
       let d1 := fold_left
                   (fun d b => snd (GeoEnrich.exec_update (now w) b d)) bs d in
       r = Return tt /\ d' = d1
       /\ exists lgs,
            length lgs = length bs
            /\ t = geo_live_output (GeoEnrich.BATCH_SIZE w) bs lgs g
                     (GeoEnrich.count_gaps d1)
                     (rows_counted
                        (fun b d => fst (GeoEnrich.exec_update (now w) b d))
                        (fun b d => snd (GeoEnrich.exec_update (now w) b d))
                        bs d)).
Proof.
  intros HB Hf. unfold GeoEnrich.live_run. fx no_reject.
  eapply effects_conseq.
  - apply (effects_for_batches geo_stmt
             (fun b d => fst (GeoEnrich.exec_update (now w) b d))
             (fun b d => snd (GeoEnrich.exec_update (now w) b d)));
      [intros; apply geo_turn_effects|exact HB|lia|exact Hf].
  - intros r t d' (-> & (lgs & Hl & ->) & ->). cbn [Z.to_nat skipn].
    fx no_reject. split; [reflexivity|]. split; [reflexivity|].
    exists lgs. split; [exact Hl|].
    unfold geo_live_output. cbn [app]. reflexivity.
Qed.

Lemma metro_live_effects fuel updates d :
  (length updates <= fuel)%nat ->
  effects d (MetroEnrich.live_run w fuel updates)
    (fun r t d' =>
       let bs := chunks fuel 500 updates in
       let d1 := fold_left
                   (fun d b => snd (MetroEnrich.exec_update (now w) b d)) bs d in
       r = Return tt /\ d' = d1
       /\ exists lgs,
            length lgs = length bs
            /\ t = metro_live_output bs lgs (length updates)
                     (rows_counted
                        (fun b d => fst (MetroEnrich.exec_update (now w) b d))
                        (fun b d => snd (MetroEnrich.exec_update (now w) b d))
                        bs d)
                     (count_where (fun r => missing (metro_area r)) d1)).
Proof.
  intros Hf. unfold MetroEnrich.live_run. fx no_reject.
  eapply effects_conseq.
  - apply (effects_for_batches metro_stmt
             (fun b d => fst (MetroEnrich.exec_update (now w) b d))
             (fun b d => snd (MetroEnrich.exec_update (now w) b d)));
      [intros; apply metro_turn_effects|reflexivity|lia|exact Hf].
  - intros r t d' (-> & (lgs & Hl & ->) & ->). cbn [Z.to_nat skipn].
    fx no_reject. split; [reflexivity|]. split; [reflexivity|].
    exists lgs. split; [exact Hl|].
    unfold metro_live_output. cbn [app]. reflexivity.
Qed.

Lemma geo_live_report t0 fuel :
  GeoEnrich.DRY_RUN w = false -> 0 < GeoEnrich.BATCH_SIZE w ->
  NoDup (map zip_code t0) -> (length t0 <= fuel)%nat ->
  effects t0 (GeoEnrich.main zipcodes_lookup w fuel)
    (fun r t d' =>
       let zg := supplemented_zipGeo zipcodes_lookup w t0 in
       let zm := downloaded_zipMetro w in
       let plan := fst (GeoEnrich.build_updates zg zm
                          (GeoEnrich.select_gap_rows t0)) in
       let bs := batches (Z.to_nat (GeoEnrich.BATCH_SIZE w)) plan in
       r = Return tt
       /\ exists progress,
            length progress = length bs
            /\ ends_with
                 (geo_live_output (GeoEnrich.BATCH_SIZE w) bs progress
                    (GeoEnrich.count_gaps t0)
                    (GeoEnrich.count_gaps
                       (map (geo_enriched zg zm (now w)) t0))
                    (Z.of_nat (length plan))) t).
Proof.
  intros Hd HB Hn Hf. unfold GeoEnrich.main. rewrite Hd.
  fx no_reject.
  eapply effects_conseq;
    [apply geo_zipGeo_effects; apply geo_ok|].
  intros r t d' [-> ->]. fx no_reject.
  eapply effects_conseq;
    [apply geo_zipMetro_effects; apply geo_ok|].
  intros r t' d' [-> ->]. fx no_reject.
  fold (supplemented_zipGeo zipcodes_lookup w t0).
  set (zg := supplemented_zipGeo zipcodes_lookup w t0).
  set (zm := downloaded_zipMetro w).
  set (plan := fst (GeoEnrich.build_updates zg zm
                      (GeoEnrich.select_gap_rows t0))).
  assert (E : plan = omap (geo_row_update zg zm) t0).
  { unfold plan. rewrite geo_updates_omap. apply geo_updates_of_gaps. }
  assert (Hl : (length plan <= fuel)%nat).
  { rewrite E. pose proof (omap_shorter (geo_row_update zg zm) t0). lia. }
  assert (Hpos : (0 < Z.to_nat (GeoEnrich.BATCH_SIZE w))%nat) by lia.
  eapply effects_conseq; [apply geo_live_effects; [exact HB|exact Hl]|].
  intros r t'' d' (-> & -> & lgs & Hlen & ->). cbv zeta.
  split; [reflexivity|].
  assert (C : chunks fuel (Z.to_nat (GeoEnrich.BATCH_SIZE w)) plan
              = batches (Z.to_nat (GeoEnrich.BATCH_SIZE w)) plan).
  { unfold batches. apply chunks_enough; [exact Hpos|exact Hl|lia]. }
  exists lgs. split; [now rewrite <- C|].
  rewrite <- C.
  pose proof (geo_batches_enrich zg zm (now w) _ fuel t0 Hn Hpos Hf) as B.
  cbv zeta in B. fold plan in B. rewrite B.
  rewrite geo_rows_counted; rewrite ?(chunks_concat _ Hpos fuel plan Hl);
    [|exact Hn|rewrite E; apply omap_zips_NoDup;
                [apply geo_row_update_zip|exact Hn]
     |rewrite E; apply omap_zips_in, geo_row_update_zip].
  find_tail_app.
Qed.

Lemma metro_live_report t0 fuel :
  MetroEnrich.DRY_RUN w = false ->
  NoDup (map zip_code t0) -> (length t0 <= fuel)%nat ->
  effects t0 (MetroEnrich.main toLowerCase toUpperCase w fuel)
    (fun r t d' =>
       let f2m := downloaded_countyFipsToMetro w in
       let n2f := downloaded_countyNameToFips toLowerCase toUpperCase w in
       let plan := fst (fst (MetroEnrich.match_rows toLowerCase n2f f2m
                               (MetroEnrich.select_zips t0))) in
       let bs := batches 500 plan in
       r = Return tt
       /\ if (size f2m =? 0)%nat then ends_with metro_abort_output t
          else exists progress,
                 length progress = length bs
                 /\ ends_with
                      (metro_live_output bs progress (length plan)
                         (Z.of_nat (length plan))
                         (count_where (fun r => missing (metro_area r))
                            (map (metro_enriched toLowerCase n2f f2m (now w))
                                 t0))) t).
Proof.
  intros Hd Hn Hf. unfold MetroEnrich.main. fx no_reject.
  eapply effects_conseq;
    [apply metro_cbsa_effects; exact metro_ok|].
  intros r t d' [-> ->]. fx no_reject.
  - split; [reflexivity|]. unfold metro_abort_output. find_tail_app.
  - unfold MetroEnrich.enrich. rewrite Hd. fx no_reject.
    eapply effects_conseq;
      [apply metro_names_effects; apply metro_ok|].
    intros r t' d' [-> ->]. fx no_reject.
    set (f2m := downloaded_countyFipsToMetro w).
    set (n2f := downloaded_countyNameToFips toLowerCase toUpperCase w).
    set (plan := fst (fst (MetroEnrich.match_rows toLowerCase n2f f2m
                             (MetroEnrich.select_zips t0)))).
    assert (E : plan = omap (selected_update toLowerCase n2f f2m) t0)
      by apply metro_updates_selected.
    assert (Hl : (length plan <= fuel)%nat).
    { rewrite E.
      pose proof (omap_shorter (selected_update toLowerCase n2f f2m) t0). lia. }
    assert (Hpos : (0 < 500)%nat) by lia.
    eapply effects_conseq; [apply metro_live_effects; exact Hl|].
    intros r t'' d' (-> & -> & lgs & Hlen & ->). cbv zeta.
    split; [reflexivity|].
    assert (C : chunks fuel 500 plan = batches 500 plan).
    { unfold batches. apply chunks_enough; [exact Hpos|exact Hl|lia]. }
    exists lgs. split; [now rewrite <- C|].
    rewrite <- C.
    pose proof (metro_batches_enrich toLowerCase n2f f2m (now w) _ fuel t0
                  Hn Hpos Hf) as B.
    cbv zeta in B. fold plan in B. rewrite B.
    rewrite metro_rows_counted; rewrite ?(chunks_concat _ Hpos fuel plan Hl);
      [|exact Hn|rewrite E; apply omap_zips_NoDup;
                  [apply selected_update_zip|exact Hn]
       |rewrite E; apply omap_zips_in, selected_update_zip].
    find_tail_app.
Qed.
End LiveReport.

(** ** Batched updates *)

Section Applied.
Import Spec.






End Applied.





(** X19.  A dry run in which no statement is rejected and every download
    settles (delivers or fails) returns, and what it prints last is the plan: geo-enrich.js prints the counts of the
    update list built from the rows with gaps and the two lookup maps,
    and the first 15 of these updates; the metro script prints the
    counts and the first 15 updates of the match of the selected rows,
    or, when the CBSA map is empty, that it has no CBSA data. *)
Theorem dry_run_lists_the_plan
    (zl : jsstring -> option jsstring)
    (toLowerCase toUpperCase : jsstring -> jsstring)
    (w : world) (fuel : nat) (t0 : list row) :
  (forall n, query_error w n = None) ->
  Spec.geo_settle w -> Spec.metro_settle w ->
  In (js "--dry-run") (argv w) ->
  let gs := GeoEnrich.script zl w fuel t0 in
  let ms := MetroEnrich.script toLowerCase toUpperCase w fuel t0 in
  let built := GeoEnrich.build_updates (Spec.supplemented_zipGeo zl w t0)
                 (Spec.downloaded_zipMetro w)
                 (GeoEnrich.select_gap_rows t0) in
  let f2m := Spec.downloaded_countyFipsToMetro w in
  let res := MetroEnrich.match_rows toLowerCase
               (Spec.downloaded_countyNameToFips toLowerCase toUpperCase w)
               f2m (MetroEnrich.select_zips t0) in
  fst gs = Return tt
  /\ Spec.ends_with (Spec.geo_dry_output (fst built) (snd built))
       (trace (snd gs))
  /\ fst ms = Return tt
  /\ if (size f2m =? 0)%nat
     then Spec.ends_with Spec.metro_abort_output (trace (snd ms))
     else Spec.ends_with
            (Spec.metro_dry_output (fst (fst res)) (snd (fst res)) (snd res))
            (trace (snd ms)).
Proof.
  intros Hq Sg Sm Hflag gs ms built f2m res.
  destruct (dry_run_flag w Hflag) as [Hg Hm].
  destruct (spec_run_main GeoEnrich.LFatal _ _ t0
              (geo_dry_returns zl w fuel Hq Sg Hg)) as (tg & G1 & _).
  destruct (spec_run_main MetroEnrich.LFatal _ _ t0
              (metro_dry_returns toLowerCase toUpperCase w fuel Hq Sm Hm))
    as (tm & M1 & _).
  split; [exact G1|]. split.
  - exact (effects_run_main GeoEnrich.LFatal _ _ t0
             (geo_dry_plan zl w t0 fuel Hg) G1).
  - split; [exact M1|].
    exact (effects_run_main MetroEnrich.LFatal _
             (fun t => if (size f2m =? 0)%nat
                       then Spec.ends_with Spec.metro_abort_output t
                       else Spec.ends_with
                              (Spec.metro_dry_output (fst (fst res))
                                 (snd (fst res)) (snd res)) t)
             t0 (metro_dry_plan toLowerCase toUpperCase w t0 fuel Hm) M1).
Qed.

Lemma dry_run_lists_the_plan_witness :
  In (js "--dry-run") (argv (Examples.online Examples.dry_args))
  /\ fst (GeoEnrich.script Examples.zipcodes_lookup
            (Examples.online Examples.dry_args) 10 Examples.table)
     = Return tt
  /\ fst (MetroEnrich.script Examples.ascii_lower Examples.ascii_upper
            (Examples.online Examples.dry_args) 10 Examples.table)
     = Return tt.
Proof.
  assert (H : In (js "--dry-run") (argv (Examples.online Examples.dry_args)))
    by (simpl; auto).
  pose proof (dry_run_lists_the_plan Examples.zipcodes_lookup
                Examples.ascii_lower Examples.ascii_upper
                (Examples.online Examples.dry_args) 10 Examples.table
                ltac:(reflexivity)
                ltac:(repeat split; eexists; vm_compute; reflexivity)
                ltac:(repeat split; eexists; vm_compute; reflexivity) H) as T.
  cbv zeta in T.
  split; [exact H|]. split; [exact (proj1 T)|exact (proj1 (proj2 (proj2 T)))].
Defined.

(** X20.  A live run of geo-enrich.js in which no statement is rejected
    and every download settles (a table of pairwise different ZIPs, a
    positive batch size of at most 2^53) ends with:
    the UPDATE statements of the consecutive batches of the update
    list, each followed by a progress line; the SELECT that verifies;
    the report, which gives the gaps of the table before the run and of
    the enriched table after it, and as rows updated the number of
    updates; the shutdown of the pool. *)
Theorem geo_live_run_reports
    (zl : jsstring -> option jsstring) (w : world) (fuel : nat)
    (t0 : list row) :
  (forall n, query_error w n = None) -> Spec.geo_settle w ->
  GeoEnrich.DRY_RUN w = false ->
  0 < GeoEnrich.BATCH_SIZE w <= 9007199254740992 ->
  NoDup (map zip_code t0) -> (length t0 <= fuel)%nat ->
  let zg := Spec.supplemented_zipGeo zl w t0 in
  let zm := Spec.downloaded_zipMetro w in
  let plan := fst (GeoEnrich.build_updates zg zm
                     (GeoEnrich.select_gap_rows t0)) in
  let bs := Spec.batches (Z.to_nat (GeoEnrich.BATCH_SIZE w)) plan in
  exists progress,
    length progress = length bs
    /\ Spec.ends_with
         (Spec.geo_live_output (GeoEnrich.BATCH_SIZE w) bs progress
            (GeoEnrich.count_gaps t0)
            (GeoEnrich.count_gaps (map (Spec.geo_enriched zg zm (now w)) t0))
            (Z.of_nat (length plan)))
         (trace (snd (GeoEnrich.script zl w fuel t0))).
Proof.
  intros Hq Hs Hd [HB _] Hn Hf zg zm plan bs.
  exact (proj2 (effects_run_main_returns GeoEnrich.LFatal _ _ t0
                  (geo_live_report zl w Hq Hs t0 fuel Hd HB Hn Hf))).
Qed.

Lemma ends_with_In {E} (x : E) (tail t : list E) :
  Spec.ends_with tail t -> In x tail -> In x t.
Proof. intros [pre ->] H. apply in_or_app. now right. Qed.

Lemma geo_live_output_done batch bs progress before after updated :
  In (EvLog (GeoEnrich.LDone updated))
     (Spec.geo_live_output batch bs progress before after updated).
Proof.
  unfold Spec.geo_live_output. right. apply in_or_app. right.
  do 7 right. now left.
Qed.

Lemma metro_live_output_complete bs progress updates updated remaining :
  In (EvLog (MetroEnrich.LComplete updated))
     (Spec.metro_live_output bs progress updates updated remaining).
Proof.
  unfold Spec.metro_live_output. right. apply in_or_app. right.
  do 2 right. now left.
Qed.

Lemma geo_live_run_reports_witness :
  NoDup (map zip_code Examples.table)
  /\ Spec.geo_settle (Examples.online Examples.live_args)
  /\ 0 < GeoEnrich.BATCH_SIZE (Examples.online Examples.live_args)
      <= 9007199254740992
  /\ In (EvLog (GeoEnrich.LDone 3)) (trace (snd Examples.geo_online_live)).
Proof.
  assert (Hn : NoDup (map zip_code Examples.table))
    by (apply (bool_decide_unpack _); vm_compute; reflexivity).
  assert (Hs : Spec.geo_settle (Examples.online Examples.live_args))
    by (repeat split; eexists; vm_compute; reflexivity).
  assert (HB : 0 < GeoEnrich.BATCH_SIZE (Examples.online Examples.live_args)
               <= 9007199254740992)
    by (split; vm_compute; [reflexivity|discriminate]).
  split; [exact Hn|]. split; [exact Hs|]. split; [exact HB|].
  destruct (geo_live_run_reports Examples.zipcodes_lookup
              (Examples.online Examples.live_args) 10 Examples.table
              ltac:(reflexivity) Hs eq_refl HB Hn ltac:(simpl; lia))
    as (progress & _ & H).
  match type of H with
  | Spec.ends_with (Spec.geo_live_output _ _ _ _ _ ?n) _ =>
      assert (E : n = 3) by (vm_compute; reflexivity)
  end.
  rewrite <- E.
  exact (ends_with_In _ _ _ H (geo_live_output_done _ _ _ _ _ _)).
Defined.

(** X21.  A live run of the metro script in which no statement is rejected
    and every download settles (a table of pairwise different ZIPs)
    ends, when it has CBSA data, with:
    the UPDATE statements of the consecutive batches of 500 of the
    update list, each followed by a progress line; the SELECT that
    verifies; as rows updated the number of updates, and as remaining
    the rows of the enriched table without metro area; the shutdown of
    the pool. *)
Theorem metro_live_run_reports
    (toLowerCase toUpperCase : jsstring -> jsstring) (w : world)
    (fuel : nat) (t0 : list row) :
  (forall n, query_error w n = None) -> Spec.metro_settle w ->
  MetroEnrich.DRY_RUN w = false ->
  NoDup (map zip_code t0) -> (length t0 <= fuel)%nat ->
  let f2m := Spec.downloaded_countyFipsToMetro w in
  let n2f := Spec.downloaded_countyNameToFips toLowerCase toUpperCase w in
  let plan := fst (fst (MetroEnrich.match_rows toLowerCase n2f f2m
                          (MetroEnrich.select_zips t0))) in
  let bs := Spec.batches 500 plan in
  let t := trace (snd (MetroEnrich.script toLowerCase toUpperCase w fuel t0)) in
  if (size f2m =? 0)%nat then Spec.ends_with Spec.metro_abort_output t
  else exists progress,
         length progress = length bs
         /\ Spec.ends_with
              (Spec.metro_live_output bs progress (length plan)
                 (Z.of_nat (length plan))
                 (count_where (fun r => missing (metro_area r))
                    (map (Spec.metro_enriched toLowerCase n2f f2m (now w)) t0)))
              t.
Proof.
  intros Hq Hs Hd Hn Hf f2m n2f plan bs t.
  exact (proj2 (effects_run_main_returns MetroEnrich.LFatal _ _ t0
                  (metro_live_report toLowerCase toUpperCase w Hq Hs t0 fuel
                     Hd Hn Hf))).
Qed.

Lemma metro_live_run_reports_witness :
  NoDup (map zip_code Examples.table)
  /\ Spec.metro_settle (Examples.online Examples.live_args)
  /\ In (EvLog (MetroEnrich.LComplete 2))
        (trace (snd Examples.metro_online_live)).
Proof.
  assert (Hn : NoDup (map zip_code Examples.table))
    by (apply (bool_decide_unpack _); vm_compute; reflexivity).
  assert (Hs : Spec.metro_settle (Examples.online Examples.live_args))
    by (repeat split; eexists; vm_compute; reflexivity).
  split; [exact Hn|]. split; [exact Hs|].
  pose proof (metro_live_run_reports Examples.ascii_lower Examples.ascii_upper
                (Examples.online Examples.live_args) 10 Examples.table
                ltac:(reflexivity) Hs eq_refl Hn ltac:(simpl; lia)) as T.
  cbv zeta in T.
  assert (S : (size (Spec.downloaded_countyFipsToMetro
                       (Examples.online Examples.live_args)) =? 0)%nat
              = false) by (vm_compute; reflexivity).
  rewrite S in T. destruct T as (progress & _ & H).
  match type of H with
  | Spec.ends_with (Spec.metro_live_output _ _ _ ?n _) _ =>
      assert (E : n = 2) by (vm_compute; reflexivity)
  end.
  rewrite <- E.
  exact (ends_with_In _ _ _ H (metro_live_output_complete _ _ _ _ _)).
Defined.
